(** * LifePositioningSystem (c10 player): scheduler, action runner and
      playback queue

    Shallow embedding of [src/c10/lps-c10-full.py] (with the sibling
    scheduler check of [src/c10/gtk-gstreamer-mp4-v11-2.py]) and the
    properties of its calendar expansion, daily state, step interpreter
    and playback queue.

    Conventions.
    - Python [int] is [Z]; list indices produced by [enumerate] are [nat].
    - Python [str] is [string]; the model covers ASCII text (code points
      above 127 are treated as ordinary, non-blank, non-digit characters).
    - [dict] is [gmap]; [list] is [list].
    - A raised exception is a value of [result]; handlers that mutate
      [self] before raising return the state reached. *)

From Stdlib Require Import ZArith List Ascii String Bool Lia.
From stdpp Require Import base tactics option list gmap strings pretty.

Local Open Scope string_scope.
Local Open Scope list_scope.
Local Open Scope Z_scope.

(** ** Results of fallible code *)

Inductive result (E A : Type) : Type :=
| Ok (a : A)
| Raise (e : E).
Arguments Ok {E A} a.
Arguments Raise {E A} e.

(** ** Python string primitives *)

Module Py.

(** [str.isspace] on ASCII code points: TAB, LF, VT, FF, CR, FS, GS, RS,
    US and SPACE. *)
Definition isspace (c : ascii) : bool :=
  let n := N_of_ascii c in
  ((9 <=? n) && (n <=? 13) || (28 <=? n) && (n <=? 32))%N.

(** [str.isdigit] on ASCII code points, with the digit's value. *)
Definition digit (c : ascii) : option Z :=
  let n := Z.of_N (N_of_ascii c) in
  if (48 <=? n) && (n <=? 57) then Some (n - 48) else None.

Definition isdigit (c : ascii) : bool :=
  match digit c with Some _ => true | None => false end.

Fixpoint lstrip (s : string) : string :=
  match s with
  | String c s' => if isspace c then lstrip s' else s
  | EmptyString => EmptyString
  end.

Fixpoint rstrip (s : string) : string :=
  match s with
  | String c s' =>
      match rstrip s' with
      | EmptyString => if isspace c then EmptyString else String c EmptyString
      | r => String c r
      end
  | EmptyString => EmptyString
  end.

(** [s.strip()] *)
Definition strip (s : string) : string := rstrip (lstrip s).

(** [s[n:]] *)
Fixpoint drop (n : nat) (s : string) : string :=
  match n, s with
  | O, _ => s
  | S n', String _ s' => drop n' s'
  | S _, EmptyString => EmptyString
  end.

(** [s.startswith(p)] *)
Fixpoint startswith (p s : string) : bool :=
  match p, s with
  | EmptyString, _ => true
  | String a p', String b s' => Ascii.eqb a b && startswith p' s'
  | String _ _, EmptyString => false
  end.

(** [c.upper()] on ASCII letters. *)
Definition upper_char (c : ascii) : ascii :=
  let n := N_of_ascii c in
  if ((97 <=? n) && (n <=? 122))%N then ascii_of_N (n - 32) else c.

Fixpoint upper (s : string) : string :=
  match s with
  | String c s' => String (upper_char c) (upper s')
  | EmptyString => EmptyString
  end.

(** [c.lower()] on ASCII letters. *)
Definition lower_char (c : ascii) : ascii :=
  let n := N_of_ascii c in
  if ((65 <=? n) && (n <=? 90))%N then ascii_of_N (n + 32) else c.

Fixpoint lower (s : string) : string :=
  match s with
  | String c s' => String (lower_char c) (lower s')
  | EmptyString => EmptyString
  end.

(** The digit part of a base-10 [int] literal: decimal digits, where a
    single underscore may separate two digits. [seen] tells whether the
    previous character was a digit. *)
Fixpoint int_digits (s : string) (acc : Z) (seen : bool) : option Z :=
  match s with
  | EmptyString => if seen then Some acc else None
  | String c s' =>
      match digit c with
      | Some d => int_digits s' (10 * acc + d) true
      | None =>
          if Ascii.eqb c "_" && seen then int_digits s' acc false else None
      end
  end.

(** [int(s)] for a string argument: surrounding blanks are ignored, one
    sign is allowed, anything else raises [ValueError] ([None]). *)
Definition int (s : string) : option Z :=
  match strip s with
  | String c r =>
      if Ascii.eqb c "+" then int_digits r 0 false
      else if Ascii.eqb c "-" then Z.opp <$> int_digits r 0 false
      else int_digits (String c r) 0 false
  | EmptyString => None
  end.

(** [list(range(start, stop, step))] for [step > 0]; the length is the
    one CPython computes. *)
Definition range (start stop step : Z) : list Z :=
  let n := if start <? stop then (stop - start + step - 1) / step else 0 in
  map (fun k => start + Z.of_nat k * step) (seq 0 (Z.to_nat n)).

End Py.


(** ** Calendar expression parser: [_parse_time_field] *)

Inductive time_field_error : Type :=
| InvalidStepExpression   (* "Invalid <label> step expression" *)
| InvalidStep             (* "Invalid <label> step" *)
| InvalidValue            (* "Invalid <label> value" *)
| OutOfRange.             (* "<label> value out of range 0..max" *)

Definition _parse_time_field (value : string) (max_value : Z)
  : result time_field_error (list Z) :=
  let value := Py.strip value in
  if decide (value = "") then Ok [0]
  else if decide (value = "*") then Ok (Py.range 0 (max_value + 1) 1)
  else if Py.startswith "*/" value then
    match Py.int (Py.drop 2 value) with
    | None => Raise InvalidStepExpression
    | Some step =>
        if step <=? 0 then Raise InvalidStep
        else Ok (Py.range 0 (max_value + 1) step)
    end
  else
    match Py.int value with
    | None => Raise InvalidValue
    | Some parsed =>
        if negb ((0 <=? parsed) && (parsed <=? max_value)) then Raise OutOfRange
        else Ok [parsed]
    end.

(** ** Schedule rows: [ScheduleEntry] and [load_schedule] *)

Record ScheduleEntry : Type := mkEntry {
  monday : Z;
  tuesday : Z;
  wednesday : Z;
  thursday : Z;
  friday : Z;
  saturday : Z;
  sunday : Z;
  hour : Z;            (* 0..23 *)
  minute : Z;          (* 0..59 *)
  random : Z;          (* minutes of random delay before the action starts *)
  duration : Z;        (* seconds, informational *)
  text : string;       (* toast at start (optional) *)
  action : string;     (* ACT_* *)
  data : string;
  hour_expr : string;
  minute_expr : string
}.

Global Instance ScheduleEntry_eq_dec : EqDecision ScheduleEntry.
Proof. solve_decision. Defined.

(** [flags = [e.monday, ..., e.sunday]], Monday first. *)
Definition flags (e : ScheduleEntry) : list Z :=
  [monday e; tuesday e; wednesday e; thursday e; friday e; saturday e; sunday e].

(** Truth value of a Python [int]. *)
Definition truthy (z : Z) : bool := negb (z =? 0).

(** [flags[wd]] as a condition; [wd] is a weekday number 0..6. *)
Definition flag_set (e : ScheduleEntry) (wd : Z) : bool :=
  match flags e !! Z.to_nat wd with
  | Some f => truthy f
  | None => false
  end.

Inductive row_error : Type :=
| RowBadInt                                   (* [int(...)] raised *)
| RowBadHour (err : time_field_error)
| RowBadMinute (err : time_field_error).

(** [row[i]] on a row that was padded to [max_len] cells. *)
Definition cell (row : list string) (i : nat) : string :=
  default "" (row !! i).

(** [int((v or "0").strip() or "0")] *)
Definition int_cell (v : string) : option Z :=
  let v := if decide (v = "") then "0" else v in
  let v := Py.strip v in
  Py.int (if decide (v = "") then "0" else v).

(** [header_lookup = {col.strip().upper(): idx for idx, col in
    enumerate(header)}]: a later column with the same name wins. *)
Definition header_lookup (header : list string) : gmap string nat :=
  foldl (fun m ic => <[Py.upper (Py.strip ic.2) := ic.1]> m) ∅
        (imap (fun idx col => (idx, col)) header).

Definition hh_idx (header : list string) : nat :=
  default 7%nat (header_lookup header !! "HH").
Definition mm_idx (header : list string) : nat :=
  default 8%nat (header_lookup header !! "MM").

(** [not row or all(c.strip() == "" for c in row)] *)
Definition blank_row (row : list string) : bool :=
  forallb (fun c => bool_decide (Py.strip c = "")) row.

(** [(row + [""] * max_len)[:max_len]] *)
Definition pad_row (hh mm : nat) (row : list string) : list string :=
  let max_len := ((14 `max` (hh + 1)) `max` (mm + 1))%nat in
  take max_len (row ++ replicate max_len "").

(** The body of the [try] block for one padded row: the entries it
    appends, or the exception that makes the loader skip the row. No
    entry is appended before every field has been parsed. *)
Definition row_entries (hh mm : nat) (row : list string)
  : result row_error (list ScheduleEntry) :=
  match mapM int_cell (take 7 row) with
  | Some [m; tu; w; th; fr; sa; su] =>
      let hour_raw := cell row hh in
      let minute_raw := cell row mm in
      match int_cell (cell row 9), int_cell (cell row 10) with
      | Some rnd, Some dur =>
          let text := Py.strip (cell row 11) in
          let action := Py.strip (cell row 12) in
          let data := Py.strip (cell row 13) in
          match _parse_time_field hour_raw 23 with
          | Raise err => Raise (RowBadHour err)
          | Ok hours =>
              match _parse_time_field minute_raw 59 with
              | Raise err => Raise (RowBadMinute err)
              | Ok minutes =>
                  Ok (hour ← hours; minute ← minutes;
                      [mkEntry m tu w th fr sa su hour minute rnd dur
                               text action data
                               (Py.strip hour_raw) (Py.strip minute_raw)])
              end
          end
      | _, _ => Raise RowBadInt
      end
  | _ => Raise RowBadInt
  end.

(** One iteration of [for row_num, row in enumerate(reader, start=2)]. *)
Definition load_row (hh mm : nat) (row : list string) : list ScheduleEntry :=
  if blank_row row then []
  else match row_entries hh mm (pad_row hh mm row) with
       | Ok es => es
       | Raise _ => []
       end.

(** [by_wd[wd].append(e)] for every set flag of [e]. *)
Definition by_wd_add (e : ScheduleEntry) (by_wd : gmap nat (list ScheduleEntry))
  : gmap nat (list ScheduleEntry) :=
  foldl (fun acc wf =>
           if truthy wf.2 then <[wf.1 := default [] (acc !! wf.1) ++ [e]]> acc
           else acc)
        by_wd (imap (fun wd f => (wd, f)) (flags e)).

Definition by_wd_empty : gmap nat (list ScheduleEntry) :=
  list_to_map (map (fun i => (i, [])) (seq 0 7)).

(** [load_schedule()]. The argument is the content of [schedule.csv] as
    the records the CSV reader yields ([None]: no file was found). *)
Definition load_schedule (file : option (list (list string)))
  : list ScheduleEntry * gmap nat (list ScheduleEntry) :=
  match file with
  | None | Some [] => ([], by_wd_empty)
  | Some (header :: rows) =>
      let entries := row ← rows; load_row (hh_idx header) (mm_idx header) row in
      (entries, foldl (fun acc e => by_wd_add e acc) by_wd_empty entries)
  end.

(** ** Local date and time: [datetime] *)

(** A naive [datetime]: the date as a proleptic day number
    ([date.toordinal()]) and the time of day. *)
Record datetime : Type := mkDatetime {
  dt_day : Z;
  dt_hour : Z;
  dt_minute : Z;
  dt_second : Z;
  dt_microsecond : Z
}.

Global Instance datetime_eq_dec : EqDecision datetime.
Proof. solve_decision. Defined.

Definition dt_wf (d : datetime) : Prop :=
  0 <= dt_hour d < 24 /\ 0 <= dt_minute d < 60 /\ 0 <= dt_second d < 60 /\
  0 <= dt_microsecond d < 1000000.

(** [d.weekday()], Monday = 0: day number 1 (0001-01-01) is a Monday. *)
Definition weekday (d : datetime) : Z := (dt_day d + 6) mod 7.

(** [d.date()] *)
Definition date (d : datetime) : Z := dt_day d.

(** [d.replace(hour=h, minute=m, second=0, microsecond=0)]; [None] stands
    for the [ValueError] of an hour or minute out of range. *)
Definition replace_hm (d : datetime) (h m : Z) : option datetime :=
  if (0 <=? h) && (h <=? 23) && (0 <=? m) && (m <=? 59)
  then Some (mkDatetime (dt_day d) h m 0 0)
  else None.

(** [d.replace(microsecond=0)] *)
Definition replace_microsecond0 (d : datetime) : datetime :=
  mkDatetime (dt_day d) (dt_hour d) (dt_minute d) (dt_second d) 0.

Definition seconds_of_day (d : datetime) : Z :=
  dt_hour d * 3600 + dt_minute d * 60 + dt_second d.

(** [d + timedelta(minutes=k)] *)
Definition add_minutes (d : datetime) (k : Z) : datetime :=
  let t := seconds_of_day d + 60 * k in
  mkDatetime (dt_day d + t / 86400) (t mod 86400 / 3600) (t mod 3600 / 60)
             (t mod 60) (dt_microsecond d).

(** Microseconds since day 0, the value that orders datetimes and that
    [a - b] measures. *)
Definition to_microseconds (d : datetime) : Z :=
  (dt_day d * 86400 + seconds_of_day d) * 1000000 + dt_microsecond d.

(** [a >= b] on datetimes *)
Definition dt_geb (a b : datetime) : bool :=
  to_microseconds b <=? to_microseconds a.

(** ** The player object *)

(** One step of an action script, as [_run_steps_chain] sees it: a dict
    with exactly one key, whose value is kept as [str(val)], or anything
    else. *)
Inductive step : Type :=
| StepDict (op val : string)
| StepMalformed.

Global Instance step_eq_dec : EqDecision step.
Proof. solve_decision. Defined.

(** Callbacks handed to the GLib main loop, with their arguments. *)
Inductive callback : Type :=
| CbRunStepsChain (steps : list step) (idx : nat)
| CbAfterWaitContinue (steps : list step) (next_idx : nat)
| CbHideToast
| CbEnqueueHourVideo (hour : Z).

Global Instance callback_eq_dec : EqDecision callback.
Proof. solve_decision. Defined.

Record timeout_source : Type := mkTimeout {
  source_id : nat;
  interval_seconds : Z;
  source_cb : callback
}.

Global Instance timeout_source_eq_dec : EqDecision timeout_source.
Proof. solve_decision. Defined.

(** Lines written by [print]. *)
Inductive log_msg : Type :=
| LogFileNotFoundSkipping (path : string)
| LogQueued (path : string) (queue_length : nat)
| LogMissingHourFile (hour : Z) (path : string)
| LogFileNotFound (path : string)
| LogPlaying (path : string)
| LogIgnoringRepeat (name : string)
| LogAlreadyRunningManual (name : string)
| LogNewDay
| LogChangeOfHour
| LogFireEq (now fire_dt : datetime)
| LogShowingToast (text : string)
| LogRunningAction (name : string)
| LogUnknownAction (name : string)
| LogAlreadyRunning (current : option string)
| LogStarting (name : string)
| LogFinished (current : option string)
| LogMalformedStep
| LogWaiting (minutes : Z)
| LogUnknownOp (op : string)
| LogGstError.

Global Instance log_msg_eq_dec : EqDecision log_msg.
Proof. solve_decision. Defined.

Inductive pipe_state : Type := NULL | PLAYING.

Global Instance pipe_state_eq_dec : EqDecision pipe_state.
Proof. solve_decision. Defined.

(** Calls on the collaborators: the console, the GStreamer pipeline and
    the widgets. *)
Inductive effect : Type :=
| Print (msg : log_msg)
| PipeSetState (s : pipe_state)
| PipeSetUri (path : string)
| ShowVideoLayer
| ShowClockOnly
| OnPlaybackStarted
| OnPlaybackStopped
| ToastShow (message : string)
| ToastHide
| ClockRefresh.

Global Instance effect_eq_dec : EqDecision effect.
Proof. solve_decision. Defined.

(** The attributes of [FullscreenPlayer] that the scheduler, the action
    runner and the queue use, the sources pending in the GLib main loop,
    and the part of the world the handlers read ([files], [rng]) or write
    ([trace]). *)
Record Player : Type := mkPlayer {
  schedule : list ScheduleEntry;
  actions_script : gmap string (list step);
  _today_key : Z;   (* local date of the last tick, as a day number *)
  _today_offsets : gmap nat Z;   (* idx -> minutes *)
  _today_fired : gmap nat bool;   (* idx -> fired *)
  play_queue : list string;
  _playing : bool;   (* True when a video is currently playing *)
  last_seen_hour : Z;
  last_played_hour : option Z;
  _action_running : bool;
  _current_action_name : option string;
  _manual_action_last_trigger : gmap string datetime;
  _step_timer_source : option nat;
  toast_hide_source : option nat;
  idle_sources : list callback;   (* GLib idle sources, oldest first *)
  timeout_sources : list timeout_source;   (* GLib timeout sources *)
  next_source_id : nat;   (* next GLib source id *)
  files : gset string;   (* paths for which os.path.exists holds *)
  rng : list Z;   (* the draws random.randint will make *)
  trace : list effect   (* calls made on the collaborators, oldest first *)
}.

(** Attribute assignment, one setter per attribute that is written. *)

Definition set_schedule (v : list ScheduleEntry) (p : Player) : Player :=
  {| schedule := v; actions_script := actions_script p;
     _today_key := _today_key p; _today_offsets := _today_offsets p;
     _today_fired := _today_fired p; play_queue := play_queue p;
     _playing := _playing p; last_seen_hour := last_seen_hour p;
     last_played_hour := last_played_hour p;
     _action_running := _action_running p;
     _current_action_name := _current_action_name p;
     _manual_action_last_trigger := _manual_action_last_trigger p;
     _step_timer_source := _step_timer_source p;
     toast_hide_source := toast_hide_source p;
     idle_sources := idle_sources p; timeout_sources := timeout_sources p;
     next_source_id := next_source_id p; files := files p; rng := rng p;
     trace := trace p |}.

Definition set_today_key (v : Z) (p : Player) : Player :=
  {| schedule := schedule p; actions_script := actions_script p;
     _today_key := v; _today_offsets := _today_offsets p;
     _today_fired := _today_fired p; play_queue := play_queue p;
     _playing := _playing p; last_seen_hour := last_seen_hour p;
     last_played_hour := last_played_hour p;
     _action_running := _action_running p;
     _current_action_name := _current_action_name p;
     _manual_action_last_trigger := _manual_action_last_trigger p;
     _step_timer_source := _step_timer_source p;
     toast_hide_source := toast_hide_source p;
     idle_sources := idle_sources p; timeout_sources := timeout_sources p;
     next_source_id := next_source_id p; files := files p; rng := rng p;
     trace := trace p |}.

Definition set_today_offsets (v : gmap nat Z) (p : Player) : Player :=
  {| schedule := schedule p; actions_script := actions_script p;
     _today_key := _today_key p; _today_offsets := v;
     _today_fired := _today_fired p; play_queue := play_queue p;
     _playing := _playing p; last_seen_hour := last_seen_hour p;
     last_played_hour := last_played_hour p;
     _action_running := _action_running p;
     _current_action_name := _current_action_name p;
     _manual_action_last_trigger := _manual_action_last_trigger p;
     _step_timer_source := _step_timer_source p;
     toast_hide_source := toast_hide_source p;
     idle_sources := idle_sources p; timeout_sources := timeout_sources p;
     next_source_id := next_source_id p; files := files p; rng := rng p;
     trace := trace p |}.

Definition set_today_fired (v : gmap nat bool) (p : Player) : Player :=
  {| schedule := schedule p; actions_script := actions_script p;
     _today_key := _today_key p; _today_offsets := _today_offsets p;
     _today_fired := v; play_queue := play_queue p; _playing := _playing p;
     last_seen_hour := last_seen_hour p;
     last_played_hour := last_played_hour p;
     _action_running := _action_running p;
     _current_action_name := _current_action_name p;
     _manual_action_last_trigger := _manual_action_last_trigger p;
     _step_timer_source := _step_timer_source p;
     toast_hide_source := toast_hide_source p;
     idle_sources := idle_sources p; timeout_sources := timeout_sources p;
     next_source_id := next_source_id p; files := files p; rng := rng p;
     trace := trace p |}.

Definition set_play_queue (v : list string) (p : Player) : Player :=
  {| schedule := schedule p; actions_script := actions_script p;
     _today_key := _today_key p; _today_offsets := _today_offsets p;
     _today_fired := _today_fired p; play_queue := v; _playing := _playing p;
     last_seen_hour := last_seen_hour p;
     last_played_hour := last_played_hour p;
     _action_running := _action_running p;
     _current_action_name := _current_action_name p;
     _manual_action_last_trigger := _manual_action_last_trigger p;
     _step_timer_source := _step_timer_source p;
     toast_hide_source := toast_hide_source p;
     idle_sources := idle_sources p; timeout_sources := timeout_sources p;
     next_source_id := next_source_id p; files := files p; rng := rng p;
     trace := trace p |}.

Definition set_playing (v : bool) (p : Player) : Player :=
  {| schedule := schedule p; actions_script := actions_script p;
     _today_key := _today_key p; _today_offsets := _today_offsets p;
     _today_fired := _today_fired p; play_queue := play_queue p;
     _playing := v; last_seen_hour := last_seen_hour p;
     last_played_hour := last_played_hour p;
     _action_running := _action_running p;
     _current_action_name := _current_action_name p;
     _manual_action_last_trigger := _manual_action_last_trigger p;
     _step_timer_source := _step_timer_source p;
     toast_hide_source := toast_hide_source p;
     idle_sources := idle_sources p; timeout_sources := timeout_sources p;
     next_source_id := next_source_id p; files := files p; rng := rng p;
     trace := trace p |}.

Definition set_last_seen_hour (v : Z) (p : Player) : Player :=
  {| schedule := schedule p; actions_script := actions_script p;
     _today_key := _today_key p; _today_offsets := _today_offsets p;
     _today_fired := _today_fired p; play_queue := play_queue p;
     _playing := _playing p; last_seen_hour := v;
     last_played_hour := last_played_hour p;
     _action_running := _action_running p;
     _current_action_name := _current_action_name p;
     _manual_action_last_trigger := _manual_action_last_trigger p;
     _step_timer_source := _step_timer_source p;
     toast_hide_source := toast_hide_source p;
     idle_sources := idle_sources p; timeout_sources := timeout_sources p;
     next_source_id := next_source_id p; files := files p; rng := rng p;
     trace := trace p |}.

Definition set_last_played_hour (v : option Z) (p : Player) : Player :=
  {| schedule := schedule p; actions_script := actions_script p;
     _today_key := _today_key p; _today_offsets := _today_offsets p;
     _today_fired := _today_fired p; play_queue := play_queue p;
     _playing := _playing p; last_seen_hour := last_seen_hour p;
     last_played_hour := v; _action_running := _action_running p;
     _current_action_name := _current_action_name p;
     _manual_action_last_trigger := _manual_action_last_trigger p;
     _step_timer_source := _step_timer_source p;
     toast_hide_source := toast_hide_source p;
     idle_sources := idle_sources p; timeout_sources := timeout_sources p;
     next_source_id := next_source_id p; files := files p; rng := rng p;
     trace := trace p |}.

Definition set_action_running (v : bool) (p : Player) : Player :=
  {| schedule := schedule p; actions_script := actions_script p;
     _today_key := _today_key p; _today_offsets := _today_offsets p;
     _today_fired := _today_fired p; play_queue := play_queue p;
     _playing := _playing p; last_seen_hour := last_seen_hour p;
     last_played_hour := last_played_hour p; _action_running := v;
     _current_action_name := _current_action_name p;
     _manual_action_last_trigger := _manual_action_last_trigger p;
     _step_timer_source := _step_timer_source p;
     toast_hide_source := toast_hide_source p;
     idle_sources := idle_sources p; timeout_sources := timeout_sources p;
     next_source_id := next_source_id p; files := files p; rng := rng p;
     trace := trace p |}.

Definition set_current_action_name (v : option string) (p : Player) : Player :=
  {| schedule := schedule p; actions_script := actions_script p;
     _today_key := _today_key p; _today_offsets := _today_offsets p;
     _today_fired := _today_fired p; play_queue := play_queue p;
     _playing := _playing p; last_seen_hour := last_seen_hour p;
     last_played_hour := last_played_hour p;
     _action_running := _action_running p; _current_action_name := v;
     _manual_action_last_trigger := _manual_action_last_trigger p;
     _step_timer_source := _step_timer_source p;
     toast_hide_source := toast_hide_source p;
     idle_sources := idle_sources p; timeout_sources := timeout_sources p;
     next_source_id := next_source_id p; files := files p; rng := rng p;
     trace := trace p |}.

Definition set_manual_action_last_trigger (v : gmap string datetime) (p : Player) : Player :=
  {| schedule := schedule p; actions_script := actions_script p;
     _today_key := _today_key p; _today_offsets := _today_offsets p;
     _today_fired := _today_fired p; play_queue := play_queue p;
     _playing := _playing p; last_seen_hour := last_seen_hour p;
     last_played_hour := last_played_hour p;
     _action_running := _action_running p;
     _current_action_name := _current_action_name p;
     _manual_action_last_trigger := v;
     _step_timer_source := _step_timer_source p;
     toast_hide_source := toast_hide_source p;
     idle_sources := idle_sources p; timeout_sources := timeout_sources p;
     next_source_id := next_source_id p; files := files p; rng := rng p;
     trace := trace p |}.

Definition set_step_timer_source (v : option nat) (p : Player) : Player :=
  {| schedule := schedule p; actions_script := actions_script p;
     _today_key := _today_key p; _today_offsets := _today_offsets p;
     _today_fired := _today_fired p; play_queue := play_queue p;
     _playing := _playing p; last_seen_hour := last_seen_hour p;
     last_played_hour := last_played_hour p;
     _action_running := _action_running p;
     _current_action_name := _current_action_name p;
     _manual_action_last_trigger := _manual_action_last_trigger p;
     _step_timer_source := v; toast_hide_source := toast_hide_source p;
     idle_sources := idle_sources p; timeout_sources := timeout_sources p;
     next_source_id := next_source_id p; files := files p; rng := rng p;
     trace := trace p |}.

Definition set_toast_hide_source (v : option nat) (p : Player) : Player :=
  {| schedule := schedule p; actions_script := actions_script p;
     _today_key := _today_key p; _today_offsets := _today_offsets p;
     _today_fired := _today_fired p; play_queue := play_queue p;
     _playing := _playing p; last_seen_hour := last_seen_hour p;
     last_played_hour := last_played_hour p;
     _action_running := _action_running p;
     _current_action_name := _current_action_name p;
     _manual_action_last_trigger := _manual_action_last_trigger p;
     _step_timer_source := _step_timer_source p; toast_hide_source := v;
     idle_sources := idle_sources p; timeout_sources := timeout_sources p;
     next_source_id := next_source_id p; files := files p; rng := rng p;
     trace := trace p |}.

Definition set_idle_sources (v : list callback) (p : Player) : Player :=
  {| schedule := schedule p; actions_script := actions_script p;
     _today_key := _today_key p; _today_offsets := _today_offsets p;
     _today_fired := _today_fired p; play_queue := play_queue p;
     _playing := _playing p; last_seen_hour := last_seen_hour p;
     last_played_hour := last_played_hour p;
     _action_running := _action_running p;
     _current_action_name := _current_action_name p;
     _manual_action_last_trigger := _manual_action_last_trigger p;
     _step_timer_source := _step_timer_source p;
     toast_hide_source := toast_hide_source p; idle_sources := v;
     timeout_sources := timeout_sources p;
     next_source_id := next_source_id p; files := files p; rng := rng p;
     trace := trace p |}.

Definition set_timeout_sources (v : list timeout_source) (p : Player) : Player :=
  {| schedule := schedule p; actions_script := actions_script p;
     _today_key := _today_key p; _today_offsets := _today_offsets p;
     _today_fired := _today_fired p; play_queue := play_queue p;
     _playing := _playing p; last_seen_hour := last_seen_hour p;
     last_played_hour := last_played_hour p;
     _action_running := _action_running p;
     _current_action_name := _current_action_name p;
     _manual_action_last_trigger := _manual_action_last_trigger p;
     _step_timer_source := _step_timer_source p;
     toast_hide_source := toast_hide_source p;
     idle_sources := idle_sources p; timeout_sources := v;
     next_source_id := next_source_id p; files := files p; rng := rng p;
     trace := trace p |}.

Definition set_next_source_id (v : nat) (p : Player) : Player :=
  {| schedule := schedule p; actions_script := actions_script p;
     _today_key := _today_key p; _today_offsets := _today_offsets p;
     _today_fired := _today_fired p; play_queue := play_queue p;
     _playing := _playing p; last_seen_hour := last_seen_hour p;
     last_played_hour := last_played_hour p;
     _action_running := _action_running p;
     _current_action_name := _current_action_name p;
     _manual_action_last_trigger := _manual_action_last_trigger p;
     _step_timer_source := _step_timer_source p;
     toast_hide_source := toast_hide_source p;
     idle_sources := idle_sources p; timeout_sources := timeout_sources p;
     next_source_id := v; files := files p; rng := rng p; trace := trace p |}.

Definition set_files (v : gset string) (p : Player) : Player :=
  {| schedule := schedule p; actions_script := actions_script p;
     _today_key := _today_key p; _today_offsets := _today_offsets p;
     _today_fired := _today_fired p; play_queue := play_queue p;
     _playing := _playing p; last_seen_hour := last_seen_hour p;
     last_played_hour := last_played_hour p;
     _action_running := _action_running p;
     _current_action_name := _current_action_name p;
     _manual_action_last_trigger := _manual_action_last_trigger p;
     _step_timer_source := _step_timer_source p;
     toast_hide_source := toast_hide_source p;
     idle_sources := idle_sources p; timeout_sources := timeout_sources p;
     next_source_id := next_source_id p; files := v; rng := rng p;
     trace := trace p |}.

Definition set_rng (v : list Z) (p : Player) : Player :=
  {| schedule := schedule p; actions_script := actions_script p;
     _today_key := _today_key p; _today_offsets := _today_offsets p;
     _today_fired := _today_fired p; play_queue := play_queue p;
     _playing := _playing p; last_seen_hour := last_seen_hour p;
     last_played_hour := last_played_hour p;
     _action_running := _action_running p;
     _current_action_name := _current_action_name p;
     _manual_action_last_trigger := _manual_action_last_trigger p;
     _step_timer_source := _step_timer_source p;
     toast_hide_source := toast_hide_source p;
     idle_sources := idle_sources p; timeout_sources := timeout_sources p;
     next_source_id := next_source_id p; files := files p; rng := v;
     trace := trace p |}.

Definition set_trace (v : list effect) (p : Player) : Player :=
  {| schedule := schedule p; actions_script := actions_script p;
     _today_key := _today_key p; _today_offsets := _today_offsets p;
     _today_fired := _today_fired p; play_queue := play_queue p;
     _playing := _playing p; last_seen_hour := last_seen_hour p;
     last_played_hour := last_played_hour p;
     _action_running := _action_running p;
     _current_action_name := _current_action_name p;
     _manual_action_last_trigger := _manual_action_last_trigger p;
     _step_timer_source := _step_timer_source p;
     toast_hide_source := toast_hide_source p;
     idle_sources := idle_sources p; timeout_sources := timeout_sources p;
     next_source_id := next_source_id p; files := files p; rng := rng p;
     trace := v |}.

(** ** Collaborators: console, main loop, random source, file system *)

Definition emit (e : effect) (st : Player) : Player :=
  set_trace (trace st ++ [e]) st.

Definition print (msg : log_msg) (st : Player) : Player := emit (Print msg) st.

(** [GLib.idle_add(cb, ...)] *)
Definition idle_add (cb : callback) (st : Player) : Player :=
  set_next_source_id (S (next_source_id st))
    (set_idle_sources (idle_sources st ++ [cb]) st).

(** [GLib.timeout_add_seconds(seconds, cb, ...)]: the new source id and
    the state. *)
Definition timeout_add_seconds (seconds : Z) (cb : callback) (st : Player)
  : nat * Player :=
  let id := next_source_id st in
  (id, set_next_source_id (S id)
         (set_timeout_sources
            (timeout_sources st ++ [mkTimeout id seconds cb]) st)).

(** [GLib.source_remove(id)] *)
Definition source_remove (id : nat) (st : Player) : Player :=
  set_timeout_sources
    (filter (fun t => source_id t ≠ id) (timeout_sources st)) st.

(** [random.randint(a, b)] for [a <= b]: the next draw of the tape picks
    the value; every value of [a..b] is the result for some tape. *)
Definition randint (a b : Z) (g : list Z) : Z * list Z :=
  match g with
  | [] => (a, [])
  | r :: g' => (a + r mod (b - a + 1), g')
  end.

(** [not path or not os.path.exists(path)] *)
Definition missing (path : string) (st : Player) : bool :=
  bool_decide (path = "") || negb (bool_decide (path ∈ files st)).

(** ** Toast *)

(** [show_toast(message, seconds)] *)
Definition show_toast (message : string) (seconds : Z) (st : Player) : Player :=
  if decide (message = "") then st
  else
    let st := emit (ToastShow message) st in
    let st := match toast_hide_source st with
              | Some (S _ as id) => source_remove id st
              | _ => st
              end in
    let '(id, st) := timeout_add_seconds seconds CbHideToast st in
    set_toast_hide_source (Some id) st.

(** The [_hide] closure of [show_toast]. *)
Definition _hide (st : Player) : Player :=
  set_toast_hide_source None (emit ToastHide st).

(** ** Playback queue *)

(** [stop_to_clock()] *)
Definition stop_to_clock (st : Player) : Player :=
  emit OnPlaybackStopped (emit ShowClockOnly (emit (PipeSetState NULL) st)).

(** The part of [play_file] after the existence test: hand [path] to the
    pipeline. *)
Definition start_playback (path : string) (st : Player) : Player :=
  let st := print (LogPlaying path) st in
  let st := emit OnPlaybackStarted st in
  let st := emit ShowVideoLayer st in
  let st := emit (PipeSetState NULL) st in
  let st := emit (PipeSetUri path) st in
  let st := emit (PipeSetState PLAYING) st in
  set_playing true st.

(** [try_play_next_in_queue] and [play_file] call each other; every call
    of [play_file] from [try_play_next_in_queue] has popped one path, so
    the pair is written as a recursion on the queue [q = self.play_queue]. *)
Fixpoint try_play_next_from (q : list string) (st : Player) : Player :=
  match q with
  | [] => stop_to_clock (set_playing false (set_play_queue [] st))
  | next_path :: q' =>
      let st := set_play_queue q' st in
      if missing next_path st
      then try_play_next_from q' (print (LogFileNotFound next_path) st)
      else start_playback next_path st
  end.

(** [try_play_next_in_queue()] *)
Definition try_play_next_in_queue (st : Player) : Player :=
  try_play_next_from (play_queue st) st.

(** [play_file(path)] *)
Definition play_file (path : string) (st : Player) : Player :=
  if missing path st
  then try_play_next_in_queue (print (LogFileNotFound path) st)
  else start_playback path st.

(** [enqueue_file(path)] *)
Definition enqueue_file (path : string) (st : Player) : Player :=
  if missing path st then print (LogFileNotFoundSkipping path) st
  else if negb (_playing st) then play_file path st
  else
    let st := set_play_queue (play_queue st ++ [path]) st in
    print (LogQueued path (length (play_queue st))) st.

(** [f"{hour:02d}"] *)
Definition fmt_02d (n : Z) : string :=
  if (0 <=? n) && (n <? 10) then "0" +:+ pretty n else pretty n.

Definition FALLBACK_PATH : string :=
  "/home/tme520/Videos/LPS/moves/c10 - sitting 1.mp4".

(** [path_for_hour(hour)] *)
Definition path_for_hour (hour : Z) (st : Player) : string :=
  let base_dir := "/home/tme520/Videos/LPS/announcements/FR" in
  let candidate := base_dir +:+ "/" +:+ "c10 - " +:+ fmt_02d hour +:+ "h.mp4" in
  if bool_decide (candidate ∈ files st) then candidate else FALLBACK_PATH.

(** [enqueue_hour_video(hour)] *)
Definition enqueue_hour_video (hour : Z) (st : Player) : Player :=
  if decide (last_played_hour st = Some hour) then st
  else
    let path := path_for_hour hour st in
    if missing path st then print (LogMissingHourFile hour path) st
    else set_last_played_hour (Some hour) (enqueue_file path st).

(** [on_eos] *)
Definition on_eos (st : Player) : Player :=
  try_play_next_in_queue (set_playing false st).

(** [on_error]; the GStreamer message is only printed. *)
Definition on_error (st : Player) : Player :=
  try_play_next_in_queue (set_playing false (print LogGstError st)).

(** ** Action scripts *)

(** The longest run of digits at the front of [s], and the rest. *)
Fixpoint span_digits (s : string) : string * string :=
  match s with
  | String c s' =>
      if Py.isdigit c
      then let '(ds, rest) := span_digits s' in (String c ds, rest)
      else ("", s)
  | EmptyString => ("", "")
  end.

(** What [\s*] consumes. *)
Definition skip_spaces (s : string) : string := Py.lstrip s.

(** A match of [_RANGE_RE = \[(\d+)\s*(?:\.\.|\.)\s*(\d+)\]] at the front
    of [s]: the two groups as integers and the length of the match. The
    pattern never needs to backtrack: a shorter run of digits or blanks,
    or [.] where [..] stands, leaves a character the next item rejects. *)
Definition match_range (s : string) : option (Z * Z * nat) :=
  match s with
  | String "[" r =>
      let '(d1, r1) := span_digits r in
      if decide (d1 = "") then None
      else
        match skip_spaces r1 with
        | String "." r2 =>
            let r3 := match r2 with String "." r' => r' | _ => r2 end in
            let '(d2, r4) := span_digits (skip_spaces r3) in
            if decide (d2 = "") then None
            else
              match r4 with
              | String "]" r5 =>
                  Some (default 0 (Py.int d1), default 0 (Py.int d2),
                        (String.length s - String.length r5)%nat)
              | _ => None
              end
        | _ => None
        end
  | _ => None
  end.

(** [repl(m)]: the text that replaces a match with groups [a], [b]. *)
Definition repl (a b : Z) (g : list Z) : string * list Z :=
  let '(a, b) := if a >? b then (b, a) else (a, b) in
  let '(n, g) := randint a b g in
  (pretty n, g).

(** [_RANGE_RE.sub(repl, pattern)], scanning left to right; [skip] counts
    the characters of the current match that are still to be dropped. *)
Fixpoint sub_ranges (skip : nat) (s : string) (g : list Z) : string * list Z :=
  match s with
  | EmptyString => ("", g)
  | String c s' =>
      match skip with
      | S k => sub_ranges k s' g
      | O =>
          match match_range s with
          | Some (a, b, len) =>
              let '(r, g) := repl a b g in
              let '(out, g) := sub_ranges (len - 1) s' g in
              (r +:+ out, g)
          | None =>
              let '(out, g) := sub_ranges 0 s' g in
              (String c out, g)
          end
      end
  end.

(** [expand_play_random(pattern)] *)
Definition expand_play_random (pattern : string) (g : list Z) : string * list Z :=
  sub_ranges 0 pattern g.

(** [re.search(r"(\d+)", s)]: the first run of digits of [s]. *)
Fixpoint search_digits (s : string) : option string :=
  match s with
  | String c s' =>
      if Py.isdigit c then Some (fst (span_digits s)) else search_digits s'
  | EmptyString => None
  end.

(** [minutes] of a [WAIT] step with value [val]. *)
Definition wait_minutes (val : string) : Z :=
  match search_digits (Py.lower val) with
  | Some ds => default 0 (Py.int ds)
  | None => 0
  end.

(** [_cancel_step_timer()] *)
Definition _cancel_step_timer (st : Player) : Player :=
  match _step_timer_source st with
  | Some (S _ as id) => set_step_timer_source None (source_remove id st)
  | _ => st
  end.

(** [_run_steps_chain(steps, idx)]: one step; the continuation is handed
    to the main loop. *)
Definition _run_steps_chain (steps : list step) (idx : nat) (st : Player)
  : Player :=
  match steps !! idx with
  | None =>
      let st := print (LogFinished (_current_action_name st)) st in
      set_current_action_name None (set_action_running false st)
  | Some StepMalformed =>
      idle_add (CbRunStepsChain steps (idx + 1)) (print LogMalformedStep st)
  | Some (StepDict op val) =>
      let op_u := Py.upper (Py.strip op) in
      if decide (op_u = "PLAY") then
        idle_add (CbRunStepsChain steps (idx + 1)) (enqueue_file val st)
      else if decide (op_u = "PLAY-RANDOM") then
        let '(path, g) := expand_play_random val (rng st) in
        let st := set_rng g st in
        idle_add (CbRunStepsChain steps (idx + 1)) (enqueue_file path st)
      else if decide (op_u = "WAIT") then
        let minutes := wait_minutes val in
        let seconds := minutes * 60 in
        let st := print (LogWaiting minutes) st in
        let st := _cancel_step_timer st in
        let '(id, st) :=
          timeout_add_seconds seconds (CbAfterWaitContinue steps (idx + 1)) st in
        set_step_timer_source (Some id) st
      else if decide (op_u = "TOAST-MESSAGE") then
        idle_add (CbRunStepsChain steps (idx + 1)) (show_toast val 4 st)
      else
        idle_add (CbRunStepsChain steps (idx + 1)) (print (LogUnknownOp op) st)
  end.

(** [_after_wait_continue(steps, next_idx)] *)
Definition _after_wait_continue (steps : list step) (next_idx : nat)
  (st : Player) : Player :=
  _run_steps_chain steps next_idx (set_step_timer_source None st).

(** [run_action(action_name)] *)
Definition run_action (action_name : string) (st : Player) : Player :=
  match actions_script st !! action_name with
  | None | Some [] => print (LogUnknownAction action_name) st
  | Some steps =>
      let st := if _action_running st
                then print (LogAlreadyRunning (_current_action_name st)) st
                else st in
      let st := set_action_running true st in
      let st := set_current_action_name (Some action_name) st in
      let st := print (LogStarting action_name) st in
      _run_steps_chain steps 0 st
  end.

(** [_play_manual_action_once(action_name)]; [now] is what
    [datetime.now()] returns. *)
Definition _play_manual_action_once (action_name : string) (now : datetime)
  (st : Player) : Player :=
  let last_trigger := _manual_action_last_trigger st !! action_name in
  if match last_trigger with
     | Some last => to_microseconds now - to_microseconds last <? 1000000
     | None => false
     end
  then print (LogIgnoringRepeat action_name) st
  else if _action_running st
          && bool_decide (_current_action_name st = Some action_name)
  then print (LogAlreadyRunningManual action_name) st
  else
    let st := set_manual_action_last_trigger
                (<[action_name := now]> (_manual_action_last_trigger st)) st in
    run_action action_name st.

(** ** Daily offsets and the scheduler *)

(** The body of the loop of [_seed_today_offsets] for entry [e] at index
    [idx]. *)
Definition seed_entry (idx : nat) (e : ScheduleEntry) (st : Player) : Player :=
  let st :=
    match _today_offsets st !! idx with
    | Some _ => st
    | None =>
        let rnd := 0 `max` random e in
        let '(off, g) := if rnd >? 0 then randint 0 rnd (rng st)
                         else (0, rng st) in
        set_rng g (set_today_offsets (<[idx := off]> (_today_offsets st)) st)
    end in
  set_today_fired (<[idx := false]> (_today_fired st)) st.

(** [for idx, e in enumerate(self.schedule)], from index [idx] on. *)
Fixpoint seed_loop (idx : nat) (es : list ScheduleEntry) (st : Player) : Player :=
  match es with
  | [] => st
  | e :: es' => seed_loop (S idx) es' (seed_entry idx e st)
  end.

(** [_seed_today_offsets(force)] *)
Definition _seed_today_offsets (force : bool) (st : Player) : Player :=
  let st := if force
            then set_today_fired ∅ (set_today_offsets ∅ st)
            else st in
  seed_loop 0 (schedule st) st.

Inductive exn : Type := ValueError | TypeError.

(** How a handler ends: it returns, or an exception leaves it; in both
    cases with the state reached. *)
Inductive outcome : Type :=
| Returned (st : Player)
| Raised (e : exn) (st : Player).

Definition state_of (o : outcome) : Player :=
  match o with Returned st | Raised _ st => st end.

(** The block under [if now_no_ms == fire_dt:]: entry [e] at index
    [idx] fires. *)
Definition fire_entry (now_no_ms fire_dt : datetime) (idx : nat)
  (e : ScheduleEntry) (st : Player) : Player :=
  let st := print (LogFireEq now_no_ms fire_dt) st in
  let st := set_today_fired (<[idx := true]> (_today_fired st)) st in
  let st := if decide (text e = "") then st
            else show_toast (text e) 4
                   (print (LogShowingToast (text e)) st) in
  if decide (action e = "") then st
  else run_action (action e) (print (LogRunningAction (action e)) st).

(** The body of the loop of [_check_and_fire_scheduled] for entry [e] at
    index [idx]; [wd = now.weekday()]. *)
Definition check_entry (now : datetime) (wd : Z) (idx : nat)
  (e : ScheduleEntry) (st : Player) : outcome :=
  if negb (flag_set e wd) then Returned st
  else if default false (_today_fired st !! idx) then Returned st
  else
    let offset_min := default 0 (_today_offsets st !! idx) in
    match replace_hm now (hour e) (minute e) with
    | None => Raised ValueError st
    | Some base =>
        let fire_dt := add_minutes base offset_min in
        let now_no_ms := replace_microsecond0 now in
        if decide (now_no_ms = fire_dt)
        then Returned (fire_entry now_no_ms fire_dt idx e st)
        else Returned st
    end.

Fixpoint check_loop (now : datetime) (wd : Z) (idx : nat)
  (es : list ScheduleEntry) (st : Player) : outcome :=
  match es with
  | [] => Returned st
  | e :: es' =>
      match check_entry now wd idx e st with
      | Returned st' => check_loop now wd (S idx) es' st'
      | Raised x st' => Raised x st'
      end
  end.

(** [_check_and_fire_scheduled(now)] *)
Definition _check_and_fire_scheduled (now : datetime) (st : Player) : outcome :=
  check_loop now (weekday now) 0 (schedule st) st.

(** [tick()]; [now] is what [datetime.now()] returns. *)
Definition tick (now : datetime) (st : Player) : outcome :=
  let st := emit ClockRefresh st in
  let st := if decide (date now ≠ _today_key st)
            then _seed_today_offsets true
                   (set_today_key (date now) (print LogNewDay st))
            else st in
  let st := if decide (dt_hour now ≠ last_seen_hour st)
            then enqueue_hour_video (dt_hour now)
                   (set_last_seen_hour (dt_hour now) (print LogChangeOfHour st))
            else st in
  _check_and_fire_scheduled now st.

(** The schedule loader of [gtk-gstreamer-mp4-v11-2.py]. Its entries
    have no [hour_expr] and no [minute_expr]; the hour and the minute of
    a row are read with [int], and a row gives one entry. *)
Module V11_2_schedule.

Record ScheduleEntry : Type := mkEntry {
  monday : Z;
  tuesday : Z;
  wednesday : Z;
  thursday : Z;
  friday : Z;
  saturday : Z;
  sunday : Z;
  hour : Z;
  minute : Z;
  random : Z;
  duration : Z;
  text : string;
  action : string;
  data : string
}.

Definition flags (e : ScheduleEntry) : list Z :=
  [monday e; tuesday e; wednesday e; thursday e; friday e; saturday e; sunday e].

(** [int(v.strip() or "0")] *)
Definition int_stripped (v : string) : option Z :=
  let v := Py.strip v in
  Py.int (if decide (v = "") then "0" else v).

(** The body of the [try] block for one padded row: the entry it
    appends, or [None] when an [int(...)] raised and the loader skips the
    row. *)
Definition row_entry (hh mm : nat) (row : list string) : option ScheduleEntry :=
  match mapM int_cell (take 7 row) with
  | Some [m; tu; w; th; fr; sa; su] =>
      match int_stripped (cell row hh), int_stripped (cell row mm),
            int_cell (cell row 9), int_cell (cell row 10) with
      | Some hour, Some minute, Some rnd, Some dur =>
          Some (mkEntry m tu w th fr sa su hour minute rnd dur
                        (Py.strip (cell row 11)) (Py.strip (cell row 12))
                        (Py.strip (cell row 13)))
      | _, _, _, _ => None
      end
  | _ => None
  end.

(** One iteration of [for row_num, row in enumerate(reader, start=2)]. *)
Definition load_row (hh mm : nat) (row : list string) : list ScheduleEntry :=
  if blank_row row then []
  else match row_entry hh mm (pad_row hh mm row) with
       | Some e => [e]
       | None => []
       end.

Definition by_wd_add (e : ScheduleEntry) (by_wd : gmap nat (list ScheduleEntry))
  : gmap nat (list ScheduleEntry) :=
  foldl (fun acc wf =>
           if truthy wf.2 then <[wf.1 := default [] (acc !! wf.1) ++ [e]]> acc
           else acc)
        by_wd (imap (fun wd f => (wd, f)) (flags e)).

Definition by_wd_empty : gmap nat (list ScheduleEntry) :=
  list_to_map (map (fun i => (i, [])) (seq 0 7)).

(** [load_schedule()] *)
Definition load_schedule (file : option (list (list string)))
  : list ScheduleEntry * gmap nat (list ScheduleEntry) :=
  match file with
  | None | Some [] => ([], by_wd_empty)
  | Some (header :: rows) =>
      let entries := row ← rows; load_row (hh_idx header) (mm_idx header) row in
      (entries, foldl (fun acc e => by_wd_add e acc) by_wd_empty entries)
  end.

End V11_2_schedule.

(** The scheduler check of [gtk-gstreamer-mp4-v11-2.py]. Its test is
    [now.strftime('%Y-%m-%d %H:%M:%S') >= fire_dt], a [str] compared with
    a [datetime]: Python raises [TypeError] there. *)
Module V11_2.

Definition check_entry (now : datetime) (wd : Z) (idx : nat)
  (e : ScheduleEntry) (st : Player) : outcome :=
  if negb (flag_set e wd) then Returned st
  else if default false (_today_fired st !! idx) then Returned st
  else
    match replace_hm now (hour e) (minute e) with
    | None => Raised ValueError st
    | Some _ => Raised TypeError st
    end.

Fixpoint check_loop (now : datetime) (wd : Z) (idx : nat)
  (es : list ScheduleEntry) (st : Player) : outcome :=
  match es with
  | [] => Returned st
  | e :: es' =>
      match check_entry now wd idx e st with
      | Returned st' => check_loop now wd (S idx) es' st'
      | Raised x st' => Raised x st'
      end
  end.

Definition _check_and_fire_scheduled (now : datetime) (st : Player) : outcome :=
  check_loop now (weekday now) 0 (schedule st) st.

End V11_2.

(** ** Events of the main loop *)

(** The branch of [on_key] for the R key; [file] is the content of
    [schedule.csv] at that moment. The refresh of the schedule view and
    the highlight timer that follow every key press are display only and
    are left out. *)
Definition on_key_R (file : option (list (list string))) (st : Player) : Player :=
  _seed_today_offsets true (set_schedule (load_schedule file).1 st).

(** The branch of [on_key] for the A key. *)
Definition on_key_A (now : datetime) (st : Player) : Player :=
  _play_manual_action_once "ACT_A_KEY_ACTION" now st.

(** What the main loop does with a callback whose source is due. *)
Definition run_callback (cb : callback) (st : Player) : Player :=
  match cb with
  | CbRunStepsChain steps idx => _run_steps_chain steps idx st
  | CbAfterWaitContinue steps next_idx => _after_wait_continue steps next_idx st
  | CbHideToast => _hide st
  | CbEnqueueHourVideo hour => enqueue_hour_video hour st
  end.

Inductive event : Type :=
| EvTick (now : datetime)                       (* the 1 s timeout source *)
| EvEos                                         (* bus message::eos *)
| EvError                                       (* bus message::error *)
| EvKeyR (file : option (list (list string)))   (* R key: reload *)
| EvManual (action_name : string) (now : datetime)
                                                (* a manual trigger *)
| EvIdle                                        (* the oldest idle source runs *)
| EvTimeout (id : nat)                          (* a timeout source expires *)
| EvFiles (fs : gset string).                   (* files appear or vanish *)

(** All the callbacks above return [False], so a source runs once. *)
Definition handle (ev : event) (st : Player) : Player :=
  match ev with
  | EvTick now => state_of (tick now st)
  | EvEos => on_eos st
  | EvError => on_error st
  | EvKeyR file => on_key_R file st
  | EvManual action_name now => _play_manual_action_once action_name now st
  | EvIdle =>
      match idle_sources st with
      | [] => st
      | cb :: rest => run_callback cb (set_idle_sources rest st)
      end
  | EvTimeout id =>
      match list_find (fun t => source_id t = id) (timeout_sources st) with
      | None => st
      | Some (_, t) => run_callback (source_cb t) (source_remove id st)
      end
  | EvFiles fs => set_files fs st
  end.

(** The state after a list of events, oldest first. *)
Definition run (evs : list event) (st : Player) : Player :=
  foldl (fun st ev => handle ev st) st evs.

(** ** Start-up *)

(** [enqueue_startup_sequence()] *)
Definition enqueue_startup_sequence (now : datetime) (st : Player) : Player :=
  let hello := "/home/tme520/Videos/LPS/moves" +:+ "/" +:+ "c10 - wave hello 3.mp4" in
  let base_dir_nice := "/home/tme520/Videos/LPS/announcements/FR" in
  let st := if bool_decide (hello ∈ files st) then enqueue_file hello st else st in
  let names := ["monday"; "tuesday"; "wednesday"; "thursday"; "friday";
                "saturday"; "sunday"] in
  let wd := weekday now in
  let daymsg := base_dir_nice +:+ "/" +:+ "c10 - good "
                +:+ default "" (names !! Z.to_nat wd) +:+ ".mp4" in
  if bool_decide (daymsg ∈ files st) then enqueue_file daymsg st else st.

(** The part of [__init__] that sets up the attributes above, in the
    order of the source. [file] and [script] are the contents of
    [schedule.csv] and [script.json], [now] the local time while the
    constructor runs. The periodic sources ([tick], the highlight timer)
    are not kept in [timeout_sources]: [tick] is the event [EvTick]. *)
Definition init (file : option (list (list string)))
  (script : gmap string (list step)) (now : datetime)
  (fs : gset string) (g : list Z) : Player :=
  let st :=
    {| schedule := (load_schedule file).1; actions_script := script;
       _today_key := date now; _today_offsets := ∅; _today_fired := ∅;
       play_queue := []; _playing := false;
       last_seen_hour := dt_hour now; last_played_hour := None;
       _action_running := false; _current_action_name := None;
       _manual_action_last_trigger := ∅; _step_timer_source := None;
       toast_hide_source := None; idle_sources := []; timeout_sources := [];
       next_source_id := 1; files := fs; rng := g; trace := [] |} in
  let st := _seed_today_offsets false st in
  let st := idle_add (CbEnqueueHourVideo (dt_hour now)) st in
  let st := emit ClockRefresh st in
  let st := emit ShowClockOnly st in
  enqueue_startup_sequence now st.

(** ** Schedule view *)

(** [_format_days(e)] *)
Definition _format_days (e : ScheduleEntry) : string :=
  let letters := ["M"; "T"; "W"; "T"; "F"; "S"; "S"] in
  String.concat ""
    (zip_with (fun l f => if truthy f then l else "-") letters (flags e)).

(** The row [populate_schedule_view] appends to the list store for [e]:
    days, time, jitter, duration, text and action. *)
Definition schedule_row (e : ScheduleEntry) : list string :=
  let days := _format_days e in
  let time_str := fmt_02d (hour e) +:+ ":" +:+ fmt_02d (minute e) in
  let rand_str := fmt_02d (random e) +:+ "m" in
  let dur_str := pretty (duration e) in
  [days; time_str; rand_str; dur_str; text e; action e].

(** [populate_schedule_view()]: the content of the list store after the
    call (the store is cleared first); the line printed for every row is
    left out. *)
Definition populate_schedule_view (st : Player) : list (list string) :=
  map schedule_row (schedule st).

(** [datetime(year, month, day, hour, minute)] for the date with day
    number [day]; [None] stands for the [ValueError] of an hour or minute
    out of range. *)
Definition datetime_of (day h m : Z) : option datetime :=
  if (0 <=? h) && (h <=? 23) && (0 <=? m) && (m <=? 59)
  then Some (mkDatetime day h m 0 0)
  else None.

(** [a < b] on datetimes *)
Definition dt_ltb (a b : datetime) : bool :=
  to_microseconds a <? to_microseconds b.

(** The body of the inner loop of [find_next_event_index] for entry [e]
    at index [idx] and the day [day_offset] days after [now]. *)
Definition next_event_candidate (now : datetime) (day_offset : Z) (idx : nat)
  (e : ScheduleEntry) (candidates : list (datetime * nat))
  : result exn (list (datetime * nat)) :=
  let day_idx := (weekday now + day_offset) mod 7 in
  if negb (flag_set e day_idx) then Ok candidates
  else
    match datetime_of (dt_day now + day_offset) (hour e) (minute e) with
    | None => Raise ValueError
    | Some cand_dt =>
        if dt_geb cand_dt now then Ok (candidates ++ [(cand_dt, idx)])
        else Ok candidates
    end.

(** [for idx, e in enumerate(self.schedule)], from index [idx] on. *)
Fixpoint next_event_day (now : datetime) (day_offset : Z) (idx : nat)
  (es : list ScheduleEntry) (candidates : list (datetime * nat))
  : result exn (list (datetime * nat)) :=
  match es with
  | [] => Ok candidates
  | e :: es' =>
      match next_event_candidate now day_offset idx e candidates with
      | Ok candidates' => next_event_day now day_offset (S idx) es' candidates'
      | Raise x => Raise x
      end
  end.

(** [for day_offset in range(0, 7)], over the offsets that are left. *)
Fixpoint next_event_days (now : datetime) (offsets : list Z)
  (es : list ScheduleEntry) (candidates : list (datetime * nat))
  : result exn (list (datetime * nat)) :=
  match offsets with
  | [] => Ok candidates
  | day_offset :: offsets' =>
      match next_event_day now day_offset 0 es candidates with
      | Ok candidates' => next_event_days now offsets' es candidates'
      | Raise x => Raise x
      end
  end.

(** [min(candidates, key=lambda t: t[0])] with [best] the least
    candidate so far: a later candidate replaces it only when its
    datetime is smaller. *)
Fixpoint min_candidate (best : datetime * nat) (l : list (datetime * nat))
  : datetime * nat :=
  match l with
  | [] => best
  | c :: l' => min_candidate (if dt_ltb c.1 best.1 then c else best) l'
  end.

(** [find_next_event_index()]; [now] is what [datetime.now()] returns.
    The result [(None, None)] is [None]; the two lines the function
    prints are left out. *)
Definition find_next_event_index (now : datetime) (st : Player)
  : result exn (option (nat * datetime)) :=
  if decide (schedule st = []) then Ok None
  else
    match next_event_days now (Py.range 0 7 1) (schedule st) [] with
    | Raise x => Raise x
    | Ok [] => Ok None
    | Ok (c :: cs) =>
        let '(cand_dt, idx) := min_candidate c cs in Ok (Some (idx, cand_dt))
    end.

(** ** Vocabulary of the properties *)

(** The range the comments of [ScheduleEntry] give for [hour], [minute]. *)
Definition entry_valid (e : ScheduleEntry) : Prop :=
  0 <= hour e <= 23 ∧ 0 <= minute e <= 59.

(** [self._today_fired.get(i)] as a condition. *)
Definition fired_flag (i : nat) (st : Player) : bool :=
  default false (_today_fired st !! i).

(** What can happen to the player between two observations: an event of
    the main loop, or a call of [_seed_today_offsets(force)]. *)
Inductive day_op : Type :=
| OpEvent (ev : event)
| OpSeed (force : bool).

Definition do_op (op : day_op) (st : Player) : Player :=
  match op with
  | OpEvent ev => handle ev st
  | OpSeed force => _seed_today_offsets force st
  end.

Definition run_ops (ops : list day_op) (st : Player) : Player :=
  foldl (fun st op => do_op op st) st ops.

(** How many times the fired flag of entry [i] goes from false to true
    along [ops]. *)
Fixpoint rises (i : nat) (ops : list day_op) (st : Player) : nat :=
  match ops with
  | [] => 0
  | op :: ops' =>
      let st' := do_op op st in
      ((if negb (fired_flag i st) && fired_flag i st' then 1 else 0)
       + rises i ops' st')%nat
  end.

(** Whether the flag of entry [i] ever goes from true back to false
    along [ops]. *)
Fixpoint falls (i : nat) (ops : list day_op) (st : Player) : bool :=
  match ops with
  | [] => false
  | op :: ops' =>
      let st' := do_op op st in
      fired_flag i st && negb (fired_flag i st') || falls i ops' st'
  end.

(** An event that leaves the day alone: a tick on the date [key], or any
    event other than a reload of the schedule. *)
Definition same_day_event (key : Z) (ev : event) : Prop :=
  match ev with
  | EvTick now => date now = key
  | EvKeyR _ => False
  | _ => True
  end.

(** Ticks and seeding calls on the date [key]. *)
Definition tick_or_seed (key : Z) (op : day_op) : Prop :=
  match op with
  | OpEvent (EvTick now) => date now = key
  | OpEvent _ => False
  | OpSeed _ => True
  end.

(** Same-day events and calls of [_seed_today_offsets()] without
    [force]. *)
Definition same_day_op (key : Z) (op : day_op) : Prop :=
  match op with
  | OpEvent ev => same_day_event key ev
  | OpSeed force => force = false
  end.

(** The fire instant of entry [e] for offset [off] on the date of [now],
    in microseconds, and the test of the specification: [now], cut to
    the second, has reached it. *)
Definition fire_instant (now : datetime) (e : ScheduleEntry) (off : Z) : Z :=
  to_microseconds
    (add_minutes (mkDatetime (dt_day now) (hour e) (minute e) 0 0) off).

Definition spec_shouldFire (i : nat) (e : ScheduleEntry) (now : datetime)
  (st : Player) : bool :=
  flag_set e (weekday now) && negb (fired_flag i st)
  && (fire_instant now e (default 0 (_today_offsets st !! i))
      <=? to_microseconds (replace_microsecond0 now)).

(** The effects a handler added to the trace. *)
Definition new_effects (st st' : Player) : list effect :=
  drop (length (trace st)) (trace st').

(** The attributes the scheduler owns; the queue and the action runner
    never write them. *)
Definition sched_view (st : Player) :=
  (schedule st, actions_script st, _today_key st, _today_offsets st,
   _today_fired st, _manual_action_last_trigger st, files st).

(** Source ids are handed out in increasing order. *)
Definition sources_fresh (st : Player) : Prop :=
  Forall (fun t => (source_id t < next_source_id st)%nat) (timeout_sources st).

(** The attributes of the daily state. *)
Definition day_view (st : Player) :=
  (schedule st, _today_key st, _today_offsets st, _today_fired st).

(** The fired flags only go up from [st] to [st'], nothing else of the
    daily state differs. *)
Definition fired_mono (st st' : Player) : Prop :=
  schedule st' = schedule st ∧ _today_key st' = _today_key st ∧
  _today_offsets st' = _today_offsets st ∧
  ∀ j, fired_flag j st = true → fired_flag j st' = true.

(** Offsets that are set in [st] are the same in [st']. *)
Definition offsets_kept (st st' : Player) : Prop :=
  ∀ i o, _today_offsets st !! i = Some o → _today_offsets st' !! i = Some o.

(** Every entry of the schedule has an offset within its jitter bound. *)
Definition offsets_seeded (st : Player) : Prop :=
  ∀ i e, schedule st !! i = Some e →
    ∃ o, _today_offsets st !! i = Some o ∧ 0 <= o <= Z.max 0 (random e).

(** The queue and the playing flag. *)
Definition queue_view (st : Player) : list string * bool :=
  (play_queue st, _playing st).

(** The paths handed to the pipeline by the effects [l], oldest first. *)
Fixpoint handed (l : list effect) : list string :=
  match l with
  | [] => []
  | PipeSetUri path :: l' => path :: handed l'
  | _ :: l' => handed l'
  end.

(** The first path of [q] that exists among [fs], and the paths behind
    it. *)
Fixpoint next_existing (fs : gset string) (q : list string)
  : option (string * list string) :=
  match q with
  | [] => None
  | p :: q' =>
      if bool_decide (p = "") || negb (bool_decide (p ∈ fs))
      then next_existing fs q' else Some (p, q')
  end.

(** From [st] to [st'] the main loop only handed out new source ids:
    every timeout source of [st'] was there in [st] or got an id that was
    free in [st]. *)
Definition loop_grows (st st' : Player) : Prop :=
  (next_source_id st ≤ next_source_id st')%nat ∧
  ∀ t, t ∈ timeout_sources st' →
       t ∈ timeout_sources st ∨
       (next_source_id st ≤ source_id t < next_source_id st')%nat.

(** The occurrence of entry [e] on the day [k] days after [now]. *)
Definition occurrence (now : datetime) (k : Z) (e : ScheduleEntry) : datetime :=
  mkDatetime (dt_day now + k) (hour e) (minute e) 0 0.

(** Entry [e] at index [i] occurs [k] days after [now], within the week
    that starts today, and not before [now]. *)
Definition upcoming (now : datetime) (st : Player) (k : Z) (i : nat)
  (e : ScheduleEntry) : Prop :=
  0 <= k < 7 ∧ schedule st !! i = Some e ∧
  flag_set e ((weekday now + k) mod 7) = true ∧
  to_microseconds now <= to_microseconds (occurrence now k e).

(** The order in which [find_next_event_index] meets its candidates:
    by day, then by row. *)
Definition candidate_before (x y : datetime * nat) : Prop :=
  dt_day x.1 < dt_day y.1 ∨ (dt_day x.1 = dt_day y.1 ∧ (x.2 < y.2)%nat).

Definition candidates_ordered (l : list (datetime * nat)) : Prop :=
  ∀ (p q : nat) x y, l !! p = Some x → l !! q = Some y → (p < q)%nat →
                     candidate_before x y.

(** A queued video never waits while nothing plays. *)
Definition idle_queue_empty (st : Player) : Prop :=
  _playing st = false → play_queue st = [].

(** From [st] to [st'] the files are the same, the trace only grew,
    every path handed to the pipeline on the way exists, and a queued
    video still never waits while nothing plays. *)
Definition plays_existing (st st' : Player) : Prop :=
  files st' = files st ∧
  (idle_queue_empty st → idle_queue_empty st') ∧
  ∃ l, trace st' = trace st ++ l ∧
       Forall (fun p => missing p st = false) (handed l).

(** Effects on the pipeline and on the layers of the window. *)
Definition playback_effect (e : effect) : bool :=
  match e with
  | PipeSetState _ | PipeSetUri _ | ShowVideoLayer | ShowClockOnly
  | OnPlaybackStarted | OnPlaybackStopped => true
  | _ => false
  end.

(** If a video plays in [st], it still plays in [st']: nothing touched
    the pipeline on the way and the queue only grew at its end. *)
Definition keeps_playing (st st' : Player) : Prop :=
  _playing st = true →
  _playing st' = true ∧ play_queue st `prefix_of` play_queue st' ∧
  ∃ l, trace st' = trace st ++ l ∧ forallb (fun e => negb (playback_effect e)) l = true.

(** What the main loop holds for the player: the timers, the handles
    the player keeps on them, the next source id and the idle sources. *)
Definition timer_view (st : Player) :=
  (timeout_sources st, toast_hide_source st, _step_timer_source st,
   next_source_id st, idle_sources st).

(** Callbacks that are handed to [GLib.idle_add]. *)
Definition idle_cb (cb : callback) : Prop :=
  match cb with
  | CbRunStepsChain _ _ | CbEnqueueHourVideo _ => True
  | _ => False
  end.

(** The one-shot timers pending in the main loop: their ids are distinct
    and were handed out, a timer that hides the toast is the one
    [toast_hide_source] names, and a timer that continues a chain after a
    WAIT is the one [_step_timer_source] names; the idle sources are
    steps of chains and hour videos. *)
Definition timers_ok (st : Player) : Prop :=
  (0 < next_source_id st)%nat ∧
  sources_fresh st ∧
  NoDup (map source_id (timeout_sources st)) ∧
  (∀ t, t ∈ timeout_sources st →
     (0 < source_id t)%nat ∧
     match source_cb t with
     | CbHideToast => toast_hide_source st = Some (source_id t)
     | CbAfterWaitContinue _ _ => _step_timer_source st = Some (source_id t)
     | _ => False
     end) ∧
  Forall idle_cb (idle_sources st).

(** The timers of [st] that hide the toast, and those that continue a
    chain after a WAIT. *)
Definition toast_timers (st : Player) : list timeout_source :=
  filter (fun t => source_cb t = CbHideToast) (timeout_sources st).

Definition is_wait_cb (cb : callback) : bool :=
  match cb with CbAfterWaitContinue _ _ => true | _ => false end.

Definition wait_timers (st : Player) : list timeout_source :=
  filter (fun t => is_wait_cb (source_cb t) = true) (timeout_sources st).

(** The line that [tick] prints when it sees a new hour. *)
Definition hour_change (e : effect) : bool :=
  match e with Print LogChangeOfHour => true | _ => false end.

(** From [st] to [st'] the hour last seen and the hour last played are
    the same, the trace only grew and no change of hour was printed. *)
Definition hour_kept (st st' : Player) : Prop :=
  last_seen_hour st' = last_seen_hour st ∧
  last_played_hour st' = last_played_hour st ∧
  ∃ l, trace st' = trace st ++ l ∧
       forallb (fun e => negb (hour_change e)) l = true.

(** The fields of an entry that the entries of
    [gtk-gstreamer-mp4-v11-2.py] have as well. *)
Definition v11_2_fields (e : ScheduleEntry) : V11_2_schedule.ScheduleEntry :=
  V11_2_schedule.mkEntry (monday e) (tuesday e) (wednesday e) (thursday e)
    (friday e) (saturday e) (sunday e) (hour e) (minute e) (random e)
    (duration e) (text e) (action e) (data e).

(** An hour of the day and a minute of the hour. *)
Definition time_in_range (e : V11_2_schedule.ScheduleEntry) : Prop :=
  (0 <= V11_2_schedule.hour e <= 23) ∧ (0 <= V11_2_schedule.minute e <= 59).

Global Instance time_in_range_dec e : Decision (time_in_range e).
Proof. unfold time_in_range. apply _. Defined.

(** The handles do not dangle: a source id kept in [toast_hide_source]
    is the id of a pending timer that hides the toast, and one kept in
    [_step_timer_source] is the id of a pending timer that continues a
    chain. *)
Definition handles_live (st : Player) : Prop :=
  (∀ id, toast_hide_source st = Some id →
     ∃ t, t ∈ timeout_sources st ∧ source_id t = id ∧
          source_cb t = CbHideToast) ∧
  (∀ id, _step_timer_source st = Some id →
     ∃ t, t ∈ timeout_sources st ∧ source_id t = id ∧
          is_wait_cb (source_cb t) = true).

Definition timers_live (st : Player) : Prop := timers_ok st ∧ handles_live st.

(** What the action runner keeps about the chain in progress, and the
    idle sources of the main loop. *)
Definition runner_view (st : Player) :=
  (_action_running st, _current_action_name st, idle_sources st).



(** ** The window: schedule panel, keys, periodic highlight *)

Inductive key : Type := KEY_Escape | KEY_s | KEY_r | KEY_a | KEY_other.

(** The player with what the schedule panel and the keyboard handler add
    to it: whether the panel is switched on ([schedule_visible]), whether
    its box is shown on screen, the rows of the list store, the number of
    periodic sources that run [_periodic_highlight], and whether
    [Gtk.main_quit] was called. *)
Record Window : Type := mkWindow {
  player : Player;
  schedule_visible : bool;
  schedule_box_shown : bool;
  schedule_store : list (list string);
  highlight_sources : nat;
  quit_requested : bool
}.

(** What the calls [l] on the collaborators do to the box of the panel:
    [_on_playback_started] hides it, [_on_playback_stopped] shows it when
    the panel is switched on and hides it otherwise. *)
Definition schedule_box_after (visible shown : bool) (l : list effect) : bool :=
  foldl (fun b e => match e with
                    | OnPlaybackStarted => false
                    | OnPlaybackStopped => visible
                    | _ => b
                    end) shown l.

(** A handler of the player, run in the window. *)
Definition in_window (f : Player → Player) (w : Window) : Window :=
  let st' := f (player w) in
  {| player := st';
     schedule_visible := schedule_visible w;
     schedule_box_shown :=
       schedule_box_after (schedule_visible w) (schedule_box_shown w)
         (new_effects (player w) st');
     schedule_store := schedule_store w;
     highlight_sources := highlight_sources w;
     quit_requested := quit_requested w |}.

(** [toggle_schedule_visibility()] *)
Definition toggle_schedule_visibility (w : Window) : Window :=
  let visible := negb (schedule_visible w) in
  {| player := player w;
     schedule_visible := visible;
     schedule_box_shown :=
       if visible then (if negb (_playing (player w)) then true else false)
       else false;
     schedule_store := schedule_store w;
     highlight_sources := highlight_sources w;
     quit_requested := quit_requested w |}.

(** [quit_cleanly()] *)
Definition quit_cleanly (w : Window) : Window :=
  let w := in_window (emit (PipeSetState NULL)) w in
  {| player := player w;
     schedule_visible := schedule_visible w;
     schedule_box_shown := schedule_box_shown w;
     schedule_store := schedule_store w;
     highlight_sources := highlight_sources w;
     quit_requested := true |}.

(** [highlight_next_upcoming()]: the row it selects, if any. The calls on
    the tree view are display only. *)
Definition highlight_next_upcoming (now : datetime) (w : Window)
  : result exn (option nat) :=
  match find_next_event_index now (player w) with
  | Raise x => Raise x
  | Ok None => Ok None
  | Ok (Some (idx, _)) => Ok (Some idx)
  end.

(** [_periodic_highlight()]: [try: ... finally: return True] drops any
    exception, and [True] keeps the source. *)
Definition _periodic_highlight (now : datetime) (w : Window) : bool :=
  match highlight_next_upcoming now w with
  | Raise _ | Ok _ => true
  end.

(** [on_key]; [now] is the time the manual trigger reads, [now_h] the
    one [find_next_event_index] reads, [file] the content of
    [schedule.csv]. An exception leaves the handler with the window
    reached. The [DEBUG] lines are left out. *)
Definition on_key (k : key) (now now_h : datetime)
  (file : option (list (list string))) (w : Window)
  : result (exn * Window) Window :=
  let w :=
    match k with
    | KEY_Escape => quit_cleanly w
    | KEY_s => toggle_schedule_visibility w
    | KEY_r =>
        let w := in_window (on_key_R file) w in
        {| player := player w;
           schedule_visible := schedule_visible w;
           schedule_box_shown := schedule_box_shown w;
           schedule_store := populate_schedule_view (player w);
           highlight_sources := highlight_sources w;
           quit_requested := quit_requested w |}
    | KEY_a => in_window (on_key_A now) w
    | KEY_other => w
    end in
  match highlight_next_upcoming now_h w with
  | Raise x => Raise (x, w)
  | Ok _ =>
      Ok {| player := player w;
            schedule_visible := schedule_visible w;
            schedule_box_shown := schedule_box_shown w;
            schedule_store := schedule_store w;
            highlight_sources := S (highlight_sources w);
            quit_requested := quit_requested w |}
  end.

(** What the main loop delivers to the window: an event of the player,
    a key, or a periodic highlight source that is due. *)
Inductive window_event : Type :=
| WPlayer (ev : event)
| WKey (k : key) (now now_h : datetime) (file : option (list (list string)))
| WHighlight (now : datetime).

Definition window_handle (wev : window_event) (w : Window) : Window :=
  match wev with
  | WPlayer ev => in_window (handle ev) w
  | WKey k now now_h file =>
      match on_key k now now_h file w with
      | Ok w' => w'
      | Raise (_, w') => w'
      end
  | WHighlight now =>
      if _periodic_highlight now w then w
      else {| player := player w;
              schedule_visible := schedule_visible w;
              schedule_box_shown := schedule_box_shown w;
              schedule_store := schedule_store w;
              highlight_sources := pred (highlight_sources w);
              quit_requested := quit_requested w |}
  end.


(** The window when [__init__] returns: [build_schedule_view] shows the
    box and switches the panel on, the store is populated, one periodic
    highlight source is added, and the start-up sequence may start a
    video. *)
Definition init_window (file : option (list (list string)))
  (script : gmap string (list step)) (now : datetime) (fs : gset string)
  (g : list Z) : Window :=
  let st := init file script now fs g in
  {| player := st;
     schedule_visible := true;
     schedule_box_shown := schedule_box_after true true (trace st);
     schedule_store := populate_schedule_view st;
     highlight_sources := 1;
     quit_requested := false |}.

(** The bootstrap: [player = FullscreenPlayer(); player.show_all()]. The
    second call shows every widget of the window again, the box of the
    panel included. *)
Definition bootstrap (file : option (list (list string)))
  (script : gmap string (list step)) (now : datetime) (fs : gset string)
  (g : list Z) : Window :=
  let w := init_window file script now fs g in
  {| player := player w;
     schedule_visible := schedule_visible w;
     schedule_box_shown := true;
     schedule_store := schedule_store w;
     highlight_sources := highlight_sources w;
     quit_requested := quit_requested w |}.

(** ** Vocabulary of the window *)

(** The box of the schedule panel is on screen exactly when the panel
    is switched on and no video plays. *)
Definition panel_ok (w : Window) : Prop :=
  schedule_box_shown w = schedule_visible w && negb (_playing (player w)).

(** The playing flag that the calls [l] announce, starting from [p]. *)
Definition playing_after (p : bool) (l : list effect) : bool :=
  foldl (fun p e => match e with
                    | OnPlaybackStarted => true
                    | OnPlaybackStopped => false
                    | _ => p
                    end) p l.

(** From [st] to [st'] the trace only grew and the playing flag moved as
    the calls on the collaborators announce. *)
Definition tracks_playing (st st' : Player) : Prop :=
  ∃ l, trace st' = trace st ++ l ∧
       _playing st' = playing_after (_playing st) l.

(** The calls [l] start or stop a playback. *)
Definition announces (l : list effect) : Prop :=
  OnPlaybackStarted ∈ l ∨ OnPlaybackStopped ∈ l.


(** ** A concrete player *)

(** Monday 2025-01-06 is day 739257. *)
Definition monday_at (h m sec : Z) : datetime := mkDatetime 739257 h m sec 0.

(** [schedule.csv]: a header and one row, Monday to Friday at 09:00 with
    a jitter of up to 15 minutes. *)
Definition demo_csv : list (list string) :=
  [ ["MON"; "TUE"; "WED"; "THU"; "FRI"; "SAT"; "SUN"; "HH"; "MM"; "RND";
     "DUR"; "TEXT"; "ACTION"; "DATA"];
    ["1"; "1"; "1"; "1"; "1"; "0"; "0"; "9"; "0"; "15"; "60"; "Stretch";
     "ACT_STRETCH"; "FF"] ].

(** The same row without jitter. *)
Definition exact_csv : list (list string) :=
  [ ["MON"; "TUE"; "WED"; "THU"; "FRI"; "SAT"; "SUN"; "HH"; "MM"; "RND";
     "DUR"; "TEXT"; "ACTION"; "DATA"];
    ["1"; "1"; "1"; "1"; "1"; "0"; "0"; "9"; "0"; "0"; "60"; "Stretch";
     "ACT_STRETCH"; "FF"] ].

Definition demo_script : gmap string (list step) :=
  {[ "ACT_STRETCH" := [StepDict "PLAY" "/videos/stretch.mp4";
                       StepDict "WAIT" "1";
                       StepDict "TOAST-MESSAGE" "Done"] ]}.

Definition demo_files : gset string :=
  {[ "/videos/stretch.mp4"; "/videos/a.mp4"; "/videos/b.mp4" ]}.

(** The player started on Monday at 08:00:00; the random source will
    draw 0, then 5. *)
Definition demo_player : Player :=
  init (Some demo_csv) demo_script (monday_at 8 0 0) demo_files [0; 5].

(** The player started on Monday at 09:00:30, half a minute after the
    entry's time. *)
Definition late_player : Player :=
  init (Some exact_csv) demo_script (monday_at 9 0 30) demo_files [].

(** [demo_player] while it plays [a.mp4] with [b.mp4] waiting. *)
Definition busy_player : Player :=
  enqueue_file "/videos/b.mp4" (enqueue_file "/videos/a.mp4" demo_player).

(** [demo_player] after its entry fired at 09:00:00 and the first idle
    source ran: the toast timer is pending, [stretch.mp4] plays and the
    next idle source is the continuation of ACT_STRETCH at its WAIT
    step. *)
Definition stretching_player : Player :=
  run [EvTick (monday_at 9 0 0); EvIdle] demo_player.

(** * Properties *)

Example parse_step_15 : _parse_time_field "*/15" 59 = Ok [0; 15; 30; 45].
Proof. reflexivity. Qed.

Example parse_star_23 :
  _parse_time_field "*" 23 = Ok (map Z.of_nat (seq 0 24)).
Proof. reflexivity. Qed.

Example parse_literal_7 : _parse_time_field "7" 23 = Ok [7].
Proof. reflexivity. Qed.

Example parse_literal_99 : _parse_time_field "99" 23 = Raise OutOfRange.
Proof. reflexivity. Qed.

Example parse_blank : _parse_time_field "  " 23 = Ok [0].
Proof. reflexivity. Qed.

Example parse_garbage : _parse_time_field "7h" 23 = Raise InvalidValue.
Proof. reflexivity. Qed.

(** ** Python primitives *)

Lemma range_lookup start stop step (k : nat) x :
  Py.range start stop step !! k = Some x →
  x = start + Z.of_nat k * step.
Proof.
  unfold Py.range. rewrite list_lookup_fmap.
  destruct (seq _ _ !! k) as [j|] eqn:Hj; [|done].
  apply lookup_seq in Hj as [-> _]. simpl. by intros [= <-].
Qed.

Lemma elem_of_range_0 stop step x :
  0 < step →
  x ∈ Py.range 0 stop step ↔ (0 <= x < stop) ∧ (step | x).
Proof.
  intros Hstep. unfold Py.range. rewrite list_elem_of_fmap. split.
  - intros (k & -> & Hk). apply elem_of_seq in Hk as [_ Hk]. simpl in Hk.
    destruct (0 <? stop) eqn:Hlt; [|simpl in Hk; lia].
    apply Z.ltb_lt in Hlt.
    assert (Z.of_nat k < (stop - 0 + step - 1) / step) as Hk'.
    { apply Z2Nat.inj_lt; [lia| |lia].
      apply Z.div_pos; lia. }
    split; [|exists (Z.of_nat k); lia].
    split; [nia|].
    assert (Z.of_nat k + 1 <= (stop - 0 + step - 1) / step) as Hle by lia.
    assert (step * (Z.of_nat k + 1) <= stop - 0 + step - 1).
    { etrans; [apply Z.mul_le_mono_nonneg_l; [lia|exact Hle]|].
      apply Z.mul_div_le; lia. }
    nia.
  - intros ([Hx0 Hx] & q & ->). exists (Z.to_nat q).
    assert (0 <= q) by nia.
    split; [rewrite Z2Nat.id; lia|].
    apply elem_of_seq. split; [lia|]. simpl.
    assert ((0 <? stop) = true) as -> by (apply Z.ltb_lt; lia).
    apply Z2Nat.inj_lt; [lia|apply Z.div_pos; lia|].
    apply Z.lt_le_trans with (m := q + 1); [lia|].
    apply Z.div_le_lower_bound; [lia|]. nia.
Qed.

Lemma NoDup_range start stop step :
  0 < step → NoDup (Py.range start stop step).
Proof.
  intros Hstep. unfold Py.range. apply NoDup_fmap_2; [|apply NoDup_seq].
  intros j k Hjk. nia.
Qed.

Lemma strip_cons_nonspace c r :
  Py.isspace c = false → ∃ r', Py.strip (String c r) = String c r'.
Proof.
  intros Hc. unfold Py.strip. cbn [Py.lstrip]. rewrite Hc.
  cbn [Py.rstrip]. destruct (Py.rstrip r); [rewrite Hc|]; eauto.
Qed.

Lemma int_star r : Py.int (String "*" r) = None.
Proof.
  unfold Py.int.
  destruct (strip_cons_nonspace "*" r) as [r' ->]; done.
Qed.

Lemma startswith_star_slash s :
  Py.startswith "*/" s = true → ∃ t, s = "*/" +:+ t ∧ Py.drop 2 s = t.
Proof.
  destruct s as [|a [|b t]]; cbn [Py.startswith]; try done.
  - by rewrite andb_false_r.
  - destruct (Ascii.eqb_spec "*" a) as [<-|]; [|done].
    destruct (Ascii.eqb_spec "/" b) as [<-|]; [|done]. eauto.
Qed.

(** ** C4: the calendar expression parser *)

Lemma parse_time_field_blank value max_value :
  Py.strip value = "" → _parse_time_field value max_value = Ok [0].
Proof. intros H. unfold _parse_time_field. by rewrite H. Qed.



Lemma parse_time_field_other value max_value :
  Py.strip value ≠ "" → Py.strip value ≠ "*" →
  Py.startswith "*/" (Py.strip value) = false →
  _parse_time_field value max_value =
    match Py.int (Py.strip value) with
    | None => Raise InvalidValue
    | Some parsed =>
        if negb ((0 <=? parsed) && (parsed <=? max_value))
        then Raise OutOfRange else Ok [parsed]
    end.
Proof.
  intros H1 H2 H3. unfold _parse_time_field.
  rewrite !decide_False by done. by rewrite H3.
Qed.

Lemma int_literal_shape s v :
  Py.int s = Some v →
  s ≠ "" ∧ s ≠ "*" ∧ Py.startswith "*/" s = false.
Proof.
  intros Hv. split_and!.
  - by intros ->.
  - by intros ->.
  - destruct (Py.startswith "*/" s) eqn:Hp; [|done].
    apply startswith_star_slash in Hp as (t & -> & _).
    change ("*/" +:+ t) with (String "*" (String "/" t)) in Hv.
    by rewrite int_star in Hv.
Qed.

(** *** Decimal literals: [int(str(v)) = v] *)




















(** ** C3: rows of the schedule *)

Lemma parse_time_field_sound value max_value l :
  0 <= max_value →
  _parse_time_field value max_value = Ok l →
  NoDup l ∧ ∀ x, x ∈ l → 0 <= x <= max_value.
Proof.
  intros Hmax. unfold _parse_time_field. intros H.
  repeat case_match; simplify_eq.
  - split; [apply NoDup_singleton|].
    intros x ->%list_elem_of_singleton. lia.
  - split; [apply NoDup_range; lia|].
    intros x [? _]%elem_of_range_0; lia.
  - split; [apply NoDup_range; lia|].
    intros x [? _]%elem_of_range_0; lia.
  - split; [apply NoDup_singleton|].
    intros x Hx%list_elem_of_singleton. subst x.
    match goal with
    | Hr : negb _ = false |- _ =>
        apply negb_false_iff, andb_true_iff in Hr as [?%Z.leb_le ?%Z.leb_le]
    end. lia.
Qed.

Lemma NoDup_list_prod {A B} (l : list A) (k : list B) :
  NoDup l → NoDup k → NoDup (list_prod l k).
Proof.
  intros Hl Hk. induction Hl as [|x l Hx Hl IH]; cbn [list_prod].
  - apply NoDup_nil_2.
  - apply NoDup_app. split_and!.
    + apply NoDup_fmap_2; [|done]. by intros ?? [= ->].
    + intros [a b] [y [[= <- <-] Hy]]%list_elem_of_fmap Hin.
      apply list_elem_of_In, in_prod_iff in Hin as [Hin _].
      by apply list_elem_of_In in Hin.
    + done.
Qed.

Lemma expansion_pairs (m tu w th fr sa su rnd dur : Z) (t a d he me : string)
  (hours minutes : list Z) :
  map (fun e => (hour e, minute e))
      (h ← hours; mi ← minutes;
       [mkEntry m tu w th fr sa su h mi rnd dur t a d he me])
  = list_prod hours minutes.
Proof.
  induction hours as [|h hours IH]; [done|].
  rewrite bind_cons, map_app, IH. cbn [list_prod]. f_equal.
  clear IH. induction minutes as [|mi minutes IHm]; [reflexivity|].
  rewrite bind_cons. cbn. by rewrite IHm.
Qed.

Lemma expansion_fields (m tu w th fr sa su rnd dur : Z) (t a d he me : string)
  (hours minutes : list Z) e :
  e ∈ (h ← hours; mi ← minutes;
       [mkEntry m tu w th fr sa su h mi rnd dur t a d he me]) →
  ∃ h mi, h ∈ hours ∧ mi ∈ minutes ∧
          e = mkEntry m tu w th fr sa su h mi rnd dur t a d he me.
Proof.
  intros (h & (mi & ->%list_elem_of_singleton & Hmi)%list_elem_of_bind & Hh)
    %list_elem_of_bind.
  eauto.
Qed.

Lemma load_row_ok hh mm row es :
  blank_row row = false →
  row_entries hh mm (pad_row hh mm row) = Ok es →
  load_row hh mm row = es.
Proof. intros Hb He. unfold load_row. by rewrite Hb, He. Qed.

(** C3. A schedule row whose flags, jitter bound and duration are
    integers and whose hour and minute fields expand to [hours] and
    [minutes] is loaded as exactly one entry per pair of
    [hours] x [minutes], in that order: [length hours * length minutes]
    entries, no pair twice, every hour in 0..23 and minute in 0..59, and
    every entry with the row's weekday flags, jitter bound, duration,
    toast, action and tag. *)
Theorem load_row_cartesian (hh mm : nat) (row : list string)
  (m tu w th fr sa su rnd dur : Z) (hours minutes : list Z) :
  blank_row row = false →
  mapM int_cell (take 7 (pad_row hh mm row)) = Some [m; tu; w; th; fr; sa; su] →
  int_cell (cell (pad_row hh mm row) 9) = Some rnd →
  int_cell (cell (pad_row hh mm row) 10) = Some dur →
  _parse_time_field (cell (pad_row hh mm row) hh) 23 = Ok hours →
  _parse_time_field (cell (pad_row hh mm row) mm) 59 = Ok minutes →
  length (load_row hh mm row) = (length hours * length minutes)%nat ∧
  map (fun e => (hour e, minute e)) (load_row hh mm row)
    = list_prod hours minutes ∧
  NoDup (list_prod hours minutes) ∧
  ∀ e, e ∈ load_row hh mm row →
    flags e = [m; tu; w; th; fr; sa; su] ∧
    random e = rnd ∧ duration e = dur ∧
    text e = Py.strip (cell (pad_row hh mm row) 11) ∧
    action e = Py.strip (cell (pad_row hh mm row) 12) ∧
    data e = Py.strip (cell (pad_row hh mm row) 13) ∧
    0 <= hour e <= 23 ∧ 0 <= minute e <= 59.
Proof.
  intros Hblank Hflags Hrnd Hdur Hh Hm.
  apply parse_time_field_sound in Hh as Hsound_h; [|lia].
  apply parse_time_field_sound in Hm as Hsound_m; [|lia].
  destruct Hsound_h as [Hnd_h Hrange_h], Hsound_m as [Hnd_m Hrange_m].
  erewrite load_row_ok; [|done|].
  2:{ unfold row_entries. rewrite Hflags, Hrnd, Hdur, Hh, Hm. reflexivity. }
  split_and!.
  - rewrite <- length_prod. erewrite <- expansion_pairs. by rewrite length_map.
  - apply expansion_pairs.
  - by apply NoDup_list_prod.
  - intros e (h & mi & Hin_h & Hin_m & ->)%expansion_fields. cbn.
    specialize (Hrange_h h Hin_h). specialize (Hrange_m mi Hin_m).
    split_and!; try reflexivity; lia.
Qed.

Lemma load_row_cartesian_witness :
  let row := ["1"; "1"; "1"; "1"; "1"; "0"; "0"; "*/12"; "*/30"; "5"; "60";
              " Stretch "; "ACT_STRETCH"; "FF"] in
  length (load_row 7 8 row) = 4%nat ∧
  map (fun e => (hour e, minute e)) (load_row 7 8 row)
    = [(0, 0); (0, 30); (12, 0); (12, 30)] ∧
  NoDup (list_prod [0; 12] [0; 30]) ∧
  ∀ e, e ∈ load_row 7 8 row →
    flags e = [1; 1; 1; 1; 1; 0; 0] ∧
    random e = 5 ∧ duration e = 60 ∧
    text e = "Stretch" ∧ action e = "ACT_STRETCH" ∧ data e = "FF" ∧
    0 <= hour e <= 23 ∧ 0 <= minute e <= 59.
Proof.
  intros row.
  apply (load_row_cartesian 7 8 row 1 1 1 1 1 0 0 5 60 [0; 12] [0; 30]);
    reflexivity.
Defined.

(** A row with a malformed field is skipped as a whole. *)
Example load_row_bad_flag :
  load_row 7 8 ["x"; "1"; "1"; "1"; "1"; "0"; "0"; "7"; "30"; "5"; "60";
                "Stretch"; "ACT_STRETCH"; "FF"] = [].
Proof. reflexivity. Qed.

Example load_row_bad_hour :
  load_row 7 8 ["1"; "1"; "1"; "1"; "1"; "0"; "0"; "24"; "30"; "5"; "60";
                "Stretch"; "ACT_STRETCH"; "FF"] = [].
Proof. reflexivity. Qed.



(** ** Frame: what the queue and the action runner leave alone *)

Lemma sched_view_emit e st : sched_view (emit e st) = sched_view st.
Proof. reflexivity. Qed.

Lemma sched_view_print msg st : sched_view (print msg st) = sched_view st.
Proof. reflexivity. Qed.

Lemma sched_view_idle_add cb st : sched_view (idle_add cb st) = sched_view st.
Proof. reflexivity. Qed.

Lemma sched_view_source_remove id st :
  sched_view (source_remove id st) = sched_view st.
Proof. reflexivity. Qed.

Lemma sched_view_show_toast message seconds st :
  sched_view (show_toast message seconds st) = sched_view st.
Proof. unfold show_toast, timeout_add_seconds. by repeat case_match. Qed.

Lemma sched_view_start_playback path st :
  sched_view (start_playback path st) = sched_view st.
Proof. reflexivity. Qed.

Lemma sched_view_try_play_next_from q st :
  sched_view (try_play_next_from q st) = sched_view st.
Proof.
  revert st. induction q as [|p q IH]; intros st; cbn [try_play_next_from].
  - reflexivity.
  - case_match; [by rewrite IH|reflexivity].
Qed.

Lemma sched_view_try_play_next_in_queue st :
  sched_view (try_play_next_in_queue st) = sched_view st.
Proof. apply sched_view_try_play_next_from. Qed.

Lemma sched_view_play_file path st :
  sched_view (play_file path st) = sched_view st.
Proof.
  unfold play_file. case_match; [|reflexivity].
  by rewrite sched_view_try_play_next_in_queue.
Qed.

Lemma sched_view_enqueue_file path st :
  sched_view (enqueue_file path st) = sched_view st.
Proof.
  unfold enqueue_file. repeat case_match; try reflexivity.
  apply sched_view_play_file.
Qed.

Lemma sched_view_enqueue_hour_video hour st :
  sched_view (enqueue_hour_video hour st) = sched_view st.
Proof.
  unfold enqueue_hour_video. repeat case_match; try reflexivity.
  apply sched_view_enqueue_file.
Qed.

Lemma sched_view_on_eos st : sched_view (on_eos st) = sched_view st.
Proof. unfold on_eos. by rewrite sched_view_try_play_next_in_queue. Qed.

Lemma sched_view_on_error st : sched_view (on_error st) = sched_view st.
Proof. unfold on_error. by rewrite sched_view_try_play_next_in_queue. Qed.

Lemma sched_view_cancel_step_timer st :
  sched_view (_cancel_step_timer st) = sched_view st.
Proof. unfold _cancel_step_timer. by repeat case_match. Qed.

Lemma sched_view_run_steps_chain steps idx st :
  sched_view (_run_steps_chain steps idx st) = sched_view st.
Proof.
  unfold _run_steps_chain, timeout_add_seconds.
  repeat case_match; try reflexivity;
    rewrite ?sched_view_idle_add;
    rewrite ?sched_view_enqueue_file, ?sched_view_show_toast; try reflexivity.
  unfold _cancel_step_timer. by repeat case_match.
Qed.

Lemma sched_view_after_wait_continue steps idx st :
  sched_view (_after_wait_continue steps idx st) = sched_view st.
Proof.
  unfold _after_wait_continue. by rewrite sched_view_run_steps_chain.
Qed.

Lemma sched_view_run_action name st :
  sched_view (run_action name st) = sched_view st.
Proof.
  unfold run_action. repeat case_match; try reflexivity;
    by rewrite sched_view_run_steps_chain.
Qed.

Lemma sched_view_run_callback cb st :
  sched_view (run_callback cb st) = sched_view st.
Proof.
  destruct cb; cbn [run_callback].
  - apply sched_view_run_steps_chain.
  - apply sched_view_after_wait_continue.
  - reflexivity.
  - apply sched_view_enqueue_hour_video.
Qed.

(** Peel the queue and runner operations off the left-hand side of a
    [sched_view] equation, matching their names only. *)
Ltac sched_frame :=
  repeat lazymatch goal with
    | |- sched_view (emit _ _) = _ => etrans; [apply sched_view_emit|]
    | |- sched_view (print _ _) = _ => etrans; [apply sched_view_print|]
    | |- sched_view (idle_add _ _) = _ => etrans; [apply sched_view_idle_add|]
    | |- sched_view (show_toast _ _ _) = _ =>
        etrans; [apply sched_view_show_toast|]
    | |- sched_view (enqueue_file _ _) = _ =>
        etrans; [apply sched_view_enqueue_file|]
    | |- sched_view (enqueue_hour_video _ _) = _ =>
        etrans; [apply sched_view_enqueue_hour_video|]
    | |- sched_view (run_action _ _) = _ =>
        etrans; [apply sched_view_run_action|]
    | |- sched_view (run_callback _ _) = _ =>
        etrans; [apply sched_view_run_callback|]
    end.

Lemma sched_view_fields st st' :
  sched_view st' = sched_view st →
  schedule st' = schedule st ∧ actions_script st' = actions_script st ∧
  _today_key st' = _today_key st ∧ _today_offsets st' = _today_offsets st ∧
  _today_fired st' = _today_fired st ∧
  _manual_action_last_trigger st' = _manual_action_last_trigger st ∧
  files st' = files st.
Proof. unfold sched_view. by intros [= -> -> -> -> -> -> ->]. Qed.

Lemma sched_view_day_view st st' :
  sched_view st' = sched_view st → day_view st' = day_view st.
Proof. unfold sched_view, day_view. by intros [= -> _ -> -> -> _ _]. Qed.

(** ** Daily offsets: [_seed_today_offsets] *)

Lemma randint_range a b g : a <= b → a <= (randint a b g).1 <= b.
Proof.
  intros Hab. unfold randint. destruct g as [|r g]; cbn [fst]; [lia|].
  pose proof (Z.mod_pos_bound r (b - a + 1)). lia.
Qed.

Lemma setters_id st :
  set_rng (rng st)
    (set_today_fired (_today_fired st)
       (set_today_offsets (_today_offsets st) st)) = st.
Proof. by destruct st. Qed.

Lemma seed_entry_shape idx e st :
  ∃ o,
    seed_entry idx e st =
      set_rng (rng (seed_entry idx e st))
        (set_today_fired (<[idx := false]> (_today_fired st))
           (set_today_offsets (<[idx := o]> (_today_offsets st)) st)) ∧
    (_today_offsets st !! idx = Some o ∨
     _today_offsets st !! idx = None ∧ 0 <= o <= Z.max 0 (random e)).
Proof.
  unfold seed_entry. destruct (_today_offsets st !! idx) as [o|] eqn:Ho.
  - exists o. split; [|by left].
    rewrite (insert_id (_today_offsets st)) by done. by destruct st.
  - destruct (Z.gtb_spec (0 `max` random e) 0) as [Hpos|Hneg].
    + destruct (randint 0 (0 `max` random e) (rng st)) as [off g] eqn:Hr.
      exists off. split; [done|]. right. split; [done|].
      pose proof (randint_range 0 (0 `max` random e) (rng st)) as Hb.
      rewrite Hr in Hb. cbn in Hb. lia.
    + exists 0. split; [done|]. right. split; [done|]. lia.
Qed.

Lemma seed_loop_shape es idx st :
  ∃ o f g,
    seed_loop idx es st = set_rng g (set_today_fired f (set_today_offsets o st)).
Proof.
  revert idx st. induction es as [|e es IH]; intros idx st; cbn [seed_loop].
  - eexists _, _, _. symmetry. apply setters_id.
  - destruct (seed_entry_shape idx e st) as (o & -> & _).
    destruct (IH (S idx)
      (set_rng (rng (seed_entry idx e st))
        (set_today_fired (<[idx := false]> (_today_fired st))
           (set_today_offsets (<[idx := o]> (_today_offsets st)) st))))
      as (o' & f' & g' & ->).
    by eexists _, _, _.
Qed.

Lemma seed_loop_fired es idx st j :
  _today_fired (seed_loop idx es st) !! j =
    if decide (idx ≤ j < idx + length es)%nat then Some false
    else _today_fired st !! j.
Proof.
  revert idx st. induction es as [|e es IH]; intros idx st; cbn [seed_loop length].
  - rewrite decide_False by lia. done.
  - rewrite IH. destruct (seed_entry_shape idx e st) as (o & -> & _).
    cbn. destruct (decide (j = idx)) as [->|Hne].
    + rewrite lookup_insert_eq.
      rewrite (decide_True (P := (idx ≤ idx < idx + S (length es))%nat)) by lia.
      by case_decide.
    + rewrite lookup_insert_ne by done.
      repeat case_decide; try done; lia.
Qed.

Lemma seed_loop_offsets es idx st j :
  if decide (idx ≤ j < idx + length es)%nat then
    ∃ o, _today_offsets (seed_loop idx es st) !! j = Some o ∧
         (_today_offsets st !! j = Some o ∨
          _today_offsets st !! j = None ∧
          ∃ e, es !! (j - idx)%nat = Some e ∧ 0 <= o <= Z.max 0 (random e))
  else _today_offsets (seed_loop idx es st) !! j = _today_offsets st !! j.
Proof.
  revert idx st. induction es as [|e es IH]; intros idx st; cbn [seed_loop length].
  - by rewrite decide_False by lia.
  - specialize (IH (S idx) (seed_entry idx e st)).
    destruct (seed_entry_shape idx e st) as (o & Hshape & Ho).
    assert (_today_offsets (seed_entry idx e st) = <[idx := o]> (_today_offsets st))
      as Hoff by (by rewrite Hshape).
    rewrite Hoff in IH.
    destruct (decide (idx ≤ j < idx + S (length es))%nat) as [Hin|Hout].
    + destruct (decide (j = idx)) as [->|Hne].
      * rewrite decide_False in IH by lia. rewrite IH, lookup_insert_eq.
        exists o. split; [done|]. destruct Ho as [Ho|[Ho Hb]]; [by left|].
        right. split; [done|]. exists e. by rewrite Nat.sub_diag.
      * rewrite decide_True in IH by lia.
        rewrite lookup_insert_ne in IH by done.
        destruct IH as (o' & -> & Hcase). exists o'. split; [done|].
        destruct Hcase as [?|[? (e' & He' & ?)]]; [by left|].
        right. split; [done|]. exists e'. split; [|done].
        replace (j - idx)%nat with (S (j - S idx)) by lia. done.
    + rewrite decide_False in IH by lia. rewrite IH.
      apply lookup_insert_ne. lia.
Qed.

(** A second pass over entries that are all seeded and unfired changes
    nothing, and draws nothing from the random source. *)
Lemma seed_loop_fixed es idx st :
  (∀ j, (idx ≤ j < idx + length es)%nat →
        is_Some (_today_offsets st !! j) ∧ _today_fired st !! j = Some false) →
  seed_loop idx es st = st.
Proof.
  revert idx st. induction es as [|e es IH]; intros idx st Hall; [done|].
  cbn [seed_loop length] in *.
  assert (seed_entry idx e st = st) as ->.
  { unfold seed_entry. destruct (Hall idx) as [[o ->] Hf]; [lia|].
    rewrite (insert_id (_today_fired st)) by done. by destruct st. }
  apply IH. intros j Hj. apply Hall. lia.
Qed.

Lemma seed_schedule force st :
  schedule (_seed_today_offsets force st) = schedule st ∧
  _today_key (_seed_today_offsets force st) = _today_key st.
Proof.
  unfold _seed_today_offsets.
  destruct (seed_loop_shape (schedule (if force
      then set_today_fired ∅ (set_today_offsets ∅ st) else st)) 0
      (if force then set_today_fired ∅ (set_today_offsets ∅ st) else st))
    as (o & f & g & ->).
  by destruct force.
Qed.

Lemma seed_fired force st j :
  _today_fired (_seed_today_offsets force st) !! j =
    if decide (j < length (schedule st))%nat then Some false
    else if force then None else _today_fired st !! j.
Proof.
  unfold _seed_today_offsets. rewrite seed_loop_fired.
  destruct force; cbn; repeat case_decide; try done; lia.
Qed.

Lemma seed_idempotent force st :
  _seed_today_offsets false (_seed_today_offsets force st)
  = _seed_today_offsets force st.
Proof.
  unfold _seed_today_offsets at 1. cbn iota.
  rewrite (proj1 (seed_schedule force st)).
  apply seed_loop_fixed. intros j Hj. split.
  - unfold _seed_today_offsets.
    pose proof (seed_loop_offsets (schedule (if force
      then set_today_fired ∅ (set_today_offsets ∅ st) else st)) 0
      (if force then set_today_fired ∅ (set_today_offsets ∅ st) else st) j) as H.
    rewrite decide_True in H by (destruct force; cbn in *; lia).
    destruct H as (o & -> & _). eauto.
  - rewrite seed_fired. by rewrite decide_True by lia.
Qed.

Lemma seed_offsets_kept st : offsets_kept st (_seed_today_offsets false st).
Proof.
  intros i o Ho. unfold _seed_today_offsets. cbn iota.
  pose proof (seed_loop_offsets (schedule st) 0 st i) as H.
  case_decide.
  - destruct H as (o' & -> & [Hold|[Hnone _]]); congruence.
  - congruence.
Qed.

Lemma seed_offsets_seeded force st :
  force = true ∨ offsets_seeded st ∨ _today_offsets st = ∅ →
  offsets_seeded (_seed_today_offsets force st).
Proof.
  intros Hcase i e. rewrite (proj1 (seed_schedule force st)). intros He.
  unfold _seed_today_offsets.
  pose proof (seed_loop_offsets (schedule (if force
      then set_today_fired ∅ (set_today_offsets ∅ st) else st)) 0
      (if force then set_today_fired ∅ (set_today_offsets ∅ st) else st) i) as H.
  pose proof (lookup_lt_Some _ _ _ He) as Hlt.
  rewrite decide_True in H by (destruct force; cbn; lia).
  destruct H as (o & Ho & Hcases). exists o. split; [done|].
  rewrite Nat.sub_0_r in Hcases.
  destruct Hcases as [Hold|[_ (e' & He' & Hb)]].
  - destruct force; [done|].
    destruct Hcase as [?|[Hs|Hempty]]; [done| |].
    + destruct (Hs i e He) as (o' & Ho' & ?). congruence.
    + by rewrite Hempty in Hold.
  - assert (e' = e) as -> by (destruct force; cbn in He'; congruence). done.
Qed.

(** ** The scheduler check *)

Lemma fired_mono_refl st : fired_mono st st.
Proof. by repeat split. Qed.

Lemma fired_mono_trans st1 st2 st3 :
  fired_mono st1 st2 → fired_mono st2 st3 → fired_mono st1 st3.
Proof.
  intros (? & ? & ? & H12) (? & ? & ? & H23).
  repeat split; try congruence. eauto.
Qed.

Lemma day_view_fired_mono st st' : day_view st' = day_view st → fired_mono st st'.
Proof.
  unfold day_view, fired_mono, fired_flag. intros [= -> -> -> ->]. done.
Qed.

(** The loop body either leaves the scheduler's attributes alone or sets
    the flag of an entry that was not yet fired. *)
Lemma check_entry_view now wd idx e st :
  sched_view (state_of (check_entry now wd idx e st)) = sched_view st ∨
  fired_flag idx st = false ∧
  sched_view (state_of (check_entry now wd idx e st))
  = sched_view (set_today_fired (<[idx := true]> (_today_fired st)) st).
Proof.
  unfold check_entry.
  destruct (negb (flag_set e wd)); [by left|].
  destruct (default false (_today_fired st !! idx)) eqn:Hf; [by left|].
  destruct (replace_hm now (hour e) (minute e)) as [base|]; [|by left].
  case_decide; [|by left].
  right. split; [done|]. cbn [state_of]. unfold fire_entry.
  repeat case_decide;
    rewrite ?sched_view_run_action, ?sched_view_print, ?sched_view_show_toast;
    reflexivity.
Qed.

Lemma check_entry_mono now wd idx e st :
  fired_mono st (state_of (check_entry now wd idx e st)).
Proof.
  destruct (check_entry_view now wd idx e st) as [Hv|[Hf Hv]].
  - by apply day_view_fired_mono, sched_view_day_view.
  - apply sched_view_fields in Hv as (Hs & _ & Hk & Ho & Hfd & _).
    repeat split; [done..|]. intros j Hj. unfold fired_flag in *.
    rewrite Hfd. cbn. destruct (decide (j = idx)) as [->|Hne].
    + by rewrite lookup_insert_eq.
    + by rewrite lookup_insert_ne.
Qed.

Lemma check_loop_mono now wd es idx st :
  fired_mono st (state_of (check_loop now wd idx es st)).
Proof.
  revert idx st. induction es as [|e es IH]; intros idx st; cbn [check_loop].
  - apply fired_mono_refl.
  - pose proof (check_entry_mono now wd idx e st) as H.
    destruct (check_entry now wd idx e st) as [st'|x st']; cbn [state_of] in *.
    + eapply fired_mono_trans; [exact H|apply IH].
    + done.
Qed.

Lemma tick_same_day_eq now st :
  date now = _today_key st →
  tick now st =
    _check_and_fire_scheduled now
      (if decide (dt_hour now ≠ last_seen_hour st)
       then enqueue_hour_video (dt_hour now)
              (set_last_seen_hour (dt_hour now)
                 (print LogChangeOfHour (emit ClockRefresh st)))
       else emit ClockRefresh st).
Proof.
  intros Hd. unfold tick.
  destruct (decide (date now ≠ _today_key (emit ClockRefresh st))) as [Hne|_];
    [by destruct Hne|].
  reflexivity.
Qed.

Lemma tick_same_day now st :
  date now = _today_key st → fired_mono st (state_of (tick now st)).
Proof.
  intros Hd. rewrite tick_same_day_eq by done.
  unfold _check_and_fire_scheduled.
  eapply fired_mono_trans; [|apply check_loop_mono].
  apply day_view_fired_mono, sched_view_day_view.
  case_decide; [|done]. by rewrite sched_view_enqueue_hour_video.
Qed.

Lemma day_view_play_manual_action_once name now st :
  day_view (_play_manual_action_once name now st) = day_view st.
Proof.
  unfold _play_manual_action_once.
  repeat case_match; try reflexivity;
    by rewrite (sched_view_day_view _ _ (sched_view_run_action _ _)).
Qed.

Lemma handle_same_day ev st :
  same_day_event (_today_key st) ev → fired_mono st (handle ev st).
Proof.
  destruct ev as [now| | |file|name now| |id|fs];
    cbn [same_day_event handle]; intros Hev.
  - by apply tick_same_day.
  - by apply day_view_fired_mono, sched_view_day_view, sched_view_on_eos.
  - by apply day_view_fired_mono, sched_view_day_view, sched_view_on_error.
  - done.
  - apply day_view_fired_mono, day_view_play_manual_action_once.
  - destruct (idle_sources st); [apply fired_mono_refl|].
    apply day_view_fired_mono, sched_view_day_view.
    by rewrite sched_view_run_callback.
  - destruct (list_find _ _) as [[? t]|]; [|apply fired_mono_refl].
    apply day_view_fired_mono, sched_view_day_view.
    by rewrite sched_view_run_callback.
  - by apply day_view_fired_mono.
Qed.

(** ** Datetimes *)

Lemma to_microseconds_inj a b :
  dt_wf a → dt_wf b → to_microseconds a = to_microseconds b → a = b.
Proof.
  destruct a as [d1 h1 m1 s1 u1], b as [d2 h2 m2 s2 u2].
  unfold dt_wf, to_microseconds, seconds_of_day. cbn.
  intros (? & ? & ? & ?) (? & ? & ? & ?) Heq.
  assert (u1 = u2) by lia. assert (s1 = s2) by lia.
  assert (m1 = m2) by lia. assert (h1 = h2) by lia.
  assert (d1 = d2) by lia. by subst.
Qed.

Lemma add_minutes_wf d k :
  0 <= dt_microsecond d < 1000000 → dt_wf (add_minutes d k).
Proof.
  intros Hu. unfold dt_wf, add_minutes. cbn.
  generalize (seconds_of_day d + 60 * k). intros t.
  split_and!; try lia; Z.div_mod_to_equations; lia.
Qed.

Lemma to_microseconds_add_minutes d k :
  to_microseconds (add_minutes d k) = to_microseconds d + k * 60000000.
Proof.
  unfold to_microseconds, add_minutes, seconds_of_day. cbn.
  generalize (dt_hour d * 3600 + dt_minute d * 60 + dt_second d). intros s.
  Z.div_mod_to_equations. lia.
Qed.

(** ** C1: the fire check *)

Lemma replace_hm_valid now e :
  entry_valid e →
  replace_hm now (hour e) (minute e)
  = Some (mkDatetime (dt_day now) (hour e) (minute e) 0 0).
Proof.
  intros [[? ?] [? ?]]. unfold replace_hm.
  destruct (Z.leb_spec 0 (hour e)), (Z.leb_spec (hour e) 23),
    (Z.leb_spec 0 (minute e)), (Z.leb_spec (minute e) 59); try lia. done.
Qed.

(** What the check of [lps-c10-full.py] computes: an entry fires when
    its weekday flag is set, it has not fired, and [now], cut to the
    second, is equal to the fire instant. *)
Lemma check_entry_exact now idx e st :
  dt_wf now → entry_valid e →
  check_entry now (weekday now) idx e st =
    if flag_set e (weekday now) && negb (fired_flag idx st)
       && (to_microseconds (replace_microsecond0 now)
           =? fire_instant now e (default 0 (_today_offsets st !! idx)))
    then Returned
           (fire_entry (replace_microsecond0 now)
              (add_minutes (mkDatetime (dt_day now) (hour e) (minute e) 0 0)
                 (default 0 (_today_offsets st !! idx))) idx e st)
    else Returned st.
Proof.
  intros Hnow He. unfold check_entry, fired_flag, fire_instant.
  rewrite (replace_hm_valid now e He). cbn zeta.
  destruct (flag_set e (weekday now)); [|done]. cbn [negb andb].
  destruct (default false (_today_fired st !! idx)); [done|]. cbn [negb andb].
  case_decide as Heq.
  - rewrite Heq, Z.eqb_refl. done.
  - destruct (Z.eqb_spec
      (to_microseconds (replace_microsecond0 now))
      (to_microseconds
         (add_minutes (mkDatetime (dt_day now) (hour e) (minute e) 0 0)
            (default 0 (_today_offsets st !! idx))))) as [Hus|]; [|done].
    destruct Heq. apply to_microseconds_inj; [| |done].
    + destruct Hnow as (? & ? & ? & ?). unfold dt_wf. cbn. lia.
    + apply add_minutes_wf. cbn. lia.
Qed.

(** A tick that comes after the fire instant leaves the entry alone. *)
Lemma check_entry_late now idx e st :
  dt_wf now → entry_valid e →
  fire_instant now e (default 0 (_today_offsets st !! idx))
    < to_microseconds (replace_microsecond0 now) →
  check_entry now (weekday now) idx e st = Returned st.
Proof.
  intros Hnow He Hlate. rewrite check_entry_exact by done.
  destruct (Z.eqb_spec (to_microseconds (replace_microsecond0 now))
              (fire_instant now e (default 0 (_today_offsets st !! idx))));
    [lia|]. by rewrite andb_false_r.
Qed.

(** C1, evaluated on the code. The player is started on Monday at
    09:00:30 with an entry for Monday 09:00 without jitter. At the tick
    of 09:00:31 the entry's weekday is set, it has not fired, and [now]
    has passed the fire instant, so the specification's check holds; the
    check of [lps-c10-full.py] does nothing ([==] instead of [>=]), and
    the check of [gtk-gstreamer-mp4-v11-2.py] raises [TypeError]. *)
Theorem late_tick_does_not_fire :
  let now := monday_at 9 0 31 in
  ∃ e, schedule late_player = [e] ∧
    spec_shouldFire 0 e now late_player = true ∧
    tick now late_player = Returned (emit ClockRefresh late_player) ∧
    fired_flag 0 (state_of (tick now late_player)) = false ∧
    V11_2._check_and_fire_scheduled now late_player
      = Raised TypeError late_player.
Proof.
  eexists. split; [vm_compute; reflexivity|].
  split_and!; vm_compute; reflexivity.
Qed.

(** ** C2: fired flags along a day *)

Lemma run_ops_events evs st : run_ops (map OpEvent evs) st = run evs st.
Proof.
  revert st. induction evs as [|ev evs IH]; intros st; [done|]. apply IH.
Qed.

Lemma same_day_run i evs st :
  Forall (same_day_event (_today_key st)) evs →
  fired_mono st (run evs st) ∧
  falls i (map OpEvent evs) st = false ∧
  (rises i (map OpEvent evs) st ≤ if fired_flag i st then 0 else 1)%nat.
Proof.
  revert st. induction evs as [|ev evs IH]; intros st Hall.
  - split; [apply fired_mono_refl|]. split; [done|]. cbn. case_match; lia.
  - apply Forall_cons in Hall as [Hev Hall].
    pose proof (handle_same_day ev st Hev) as Hstep.
    destruct (Hstep) as (_ & Hkey & _ & Hflags).
    rewrite <- Hkey in Hall. destruct (IH _ Hall) as (Hmono & Hfalls & Hrises).
    split; [by eapply fired_mono_trans|].
    cbn [map falls rises do_op]. rewrite Hfalls.
    specialize (Hflags i).
    destruct (fired_flag i st), (fired_flag i (handle ev st));
      cbn in *; try (specialize (Hflags eq_refl)); try done; split; try done; lia.
Qed.

Lemma check_entry_fired now wd idx e st :
  fired_flag idx st = true → check_entry now wd idx e st = Returned st.
Proof.
  unfold fired_flag, check_entry. intros ->. by destruct (negb _).
Qed.

(** C2, as the code has it. Along any sequence of events of one day
    (ticks on the current date and any event other than a reload of the
    schedule), the fired flag of entry [i] rises at most once and never
    falls; once it is set it stays set, and the scheduler's check skips
    the entry, so that its toast and action are not started again. *)
Theorem fired_once_per_day (evs : list event) (st : Player) (i : nat) :
  Forall (same_day_event (_today_key st)) evs →
  (rises i (map OpEvent evs) st ≤ 1)%nat ∧
  falls i (map OpEvent evs) st = false ∧
  (fired_flag i st = true →
   rises i (map OpEvent evs) st = 0%nat ∧
   fired_flag i (run evs st) = true ∧
   ∀ now e, check_entry now (weekday now) i e (run evs st)
            = Returned (run evs st)).
Proof.
  intros Hall. destruct (same_day_run i evs st Hall) as (Hmono & Hfalls & Hrises).
  split; [destruct (fired_flag i st); lia|]. split; [done|].
  intros Hf. rewrite Hf in Hrises. split; [lia|].
  destruct Hmono as (_ & _ & _ & Hflags). split; [by apply Hflags|].
  intros now e. apply check_entry_fired. by apply Hflags.
Qed.

Lemma fired_once_per_day_witness :
  let st := handle (EvTick (monday_at 9 0 0)) demo_player in
  let evs := [EvIdle; EvTick (monday_at 9 0 1); EvEos;
              EvTick (monday_at 9 0 2)] in
  (rises 0 (map OpEvent evs) st ≤ 1)%nat ∧
  falls 0 (map OpEvent evs) st = false ∧
  rises 0 (map OpEvent evs) st = 0%nat ∧
  fired_flag 0 (run evs st) = true ∧
  ∀ now e, check_entry now (weekday now) 0 e (run evs st)
           = Returned (run evs st).
Proof.
  intros st evs.
  destruct (fired_once_per_day evs st 0) as (Hrises & Hfalls & Hfired).
  { repeat constructor. }
  destruct Hfired as (Hzero & Hstays & Hskip); [vm_compute; reflexivity|].
  split_and!; assumption.
Defined.

(** The entry of [demo_player] does fire in that run, exactly once. *)
Example demo_player_fires_once :
  rises 0 (map OpEvent [EvTick (monday_at 9 0 0); EvIdle;
                         EvTick (monday_at 9 0 1); EvEos;
                         EvTick (monday_at 9 0 2)]) demo_player = 1%nat.
Proof. vm_compute. reflexivity. Qed.

(** C2 as stated fails: [_seed_today_offsets] writes [False] into the
    fired flag of every entry, so a seeding call between two ticks of the
    same date puts the flag of an entry that has fired back to false, and
    a tick that sees the fire instant again fires it a second time. *)
Lemma fired_flag_reset_by_seeding :
  ¬ (∀ (ops : list day_op) (st : Player) (i : nat),
       Forall (tick_or_seed (_today_key st)) ops →
       (rises i ops st ≤ 1)%nat ∧ falls i ops st = false).
Proof.
  intros Hclaim.
  destruct (Hclaim [OpEvent (EvTick (monday_at 9 0 0)); OpSeed false;
                    OpEvent (EvTick (monday_at 9 0 0))] demo_player 0%nat)
    as [Hrises Hfalls].
  { repeat constructor. }
  vm_compute in Hfalls. discriminate.
Qed.

Example seed_resets_fired :
  let st := handle (EvTick (monday_at 9 0 0)) demo_player in
  fired_flag 0 st = true ∧
  fired_flag 0 (_seed_today_offsets false st) = false ∧
  rises 0 [OpEvent (EvTick (monday_at 9 0 0)); OpSeed false;
           OpEvent (EvTick (monday_at 9 0 0))] demo_player = 2%nat.
Proof. vm_compute. done. Qed.

(** The events that call [_seed_today_offsets] do so with [force]: the
    reload key re-samples the offset (here from 0 to 5 minutes), and the
    entry that fired at 09:00:00 fires again at 09:05:00. *)
Example refire_after_reload :
  rises 0 [OpEvent (EvTick (monday_at 9 0 0));
           OpEvent (EvKeyR (Some demo_csv));
           OpEvent (EvTick (monday_at 9 5 0))] demo_player = 2%nat.
Proof. vm_compute. reflexivity. Qed.

(** ** C5: the daily offsets *)

Lemma sched_view_enqueue_startup_sequence now st :
  sched_view (enqueue_startup_sequence now st) = sched_view st.
Proof.
  unfold enqueue_startup_sequence. cbn zeta.
  repeat case_match; sched_frame; reflexivity.
Qed.

Lemma offsets_seeded_day_view st st' :
  day_view st' = day_view st → offsets_seeded st → offsets_seeded st'.
Proof.
  unfold day_view, offsets_seeded. intros [= Hs _ Ho _]. by rewrite Hs, Ho.
Qed.

Lemma offsets_seeded_fired_mono st st' :
  fired_mono st st' → offsets_seeded st → offsets_seeded st'.
Proof.
  unfold offsets_seeded. intros (Hs & _ & Ho & _). by rewrite Hs, Ho.
Qed.

Lemma init_offsets_seeded file script now fs g :
  offsets_seeded (init file script now fs g).
Proof.
  unfold init. cbn zeta.
  eapply offsets_seeded_day_view.
  { apply sched_view_day_view.
    etrans; [apply sched_view_enqueue_startup_sequence|].
    sched_frame. reflexivity. }
  apply seed_offsets_seeded. right; right. reflexivity.
Qed.

(** A tick first seeds the day again when the date has changed; after
    that it only raises fired flags. *)
Lemma tick_offsets_seeded now st :
  offsets_seeded st → offsets_seeded (state_of (tick now st)).
Proof.
  intros Hst. unfold tick, _check_and_fire_scheduled.
  set (st1 := if decide (date now ≠ _today_key (emit ClockRefresh st))
              then _seed_today_offsets true
                     (set_today_key (date now)
                        (print LogNewDay (emit ClockRefresh st)))
              else emit ClockRefresh st).
  assert (offsets_seeded st1) as H1.
  { unfold st1. case_decide; [apply seed_offsets_seeded; by left|done]. }
  clearbody st1. cbn zeta.
  set (st2 := if decide (dt_hour now ≠ last_seen_hour st1)
              then enqueue_hour_video (dt_hour now)
                     (set_last_seen_hour (dt_hour now)
                        (print LogChangeOfHour st1))
              else st1).
  assert (offsets_seeded st2) as H2.
  { eapply offsets_seeded_day_view; [|exact H1].
    apply sched_view_day_view. unfold st2.
    case_decide; [|done]. by rewrite sched_view_enqueue_hour_video. }
  clearbody st2.
  eapply offsets_seeded_fired_mono; [apply check_loop_mono|done].
Qed.

Lemma handle_offsets_seeded ev st :
  offsets_seeded st → offsets_seeded (handle ev st).
Proof.
  intros Hst.
  destruct ev as [now| | |file|name now| |id|fs]; cbn [handle].
  - by apply tick_offsets_seeded.
  - eapply offsets_seeded_day_view; [|done].
    apply sched_view_day_view, sched_view_on_eos.
  - eapply offsets_seeded_day_view; [|done].
    apply sched_view_day_view, sched_view_on_error.
  - apply seed_offsets_seeded. by left.
  - eapply offsets_seeded_day_view; [|done].
    apply day_view_play_manual_action_once.
  - destruct (idle_sources st); [done|].
    eapply offsets_seeded_day_view; [|exact Hst].
    apply sched_view_day_view. by rewrite sched_view_run_callback.
  - destruct (list_find _ _) as [[? t]|]; [|done].
    eapply offsets_seeded_day_view; [|exact Hst].
    apply sched_view_day_view. by rewrite sched_view_run_callback.
  - done.
Qed.

Lemma run_offsets_seeded evs st :
  offsets_seeded st → offsets_seeded (run evs st).
Proof.
  revert st. induction evs as [|ev evs IH]; intros st Hst; [done|].
  apply IH. by apply handle_offsets_seeded.
Qed.

Lemma same_day_op_step op st :
  same_day_op (_today_key st) op →
  _today_key (do_op op st) = _today_key st ∧ offsets_kept st (do_op op st).
Proof.
  destruct op as [ev|force]; cbn [same_day_op do_op].
  - intros Hev. destruct (handle_same_day ev st Hev) as (_ & Hk & Ho & _).
    split; [done|]. intros i o. by rewrite Ho.
  - intros ->. split; [apply seed_schedule|apply seed_offsets_kept].
Qed.

Lemma same_day_ops_kept ops st :
  Forall (same_day_op (_today_key st)) ops → offsets_kept st (run_ops ops st).
Proof.
  revert st. induction ops as [|op ops IH]; intros st Hall.
  - by intros i o.
  - apply Forall_cons in Hall as [Hop Hall].
    destruct (same_day_op_step op st Hop) as [Hk Hkept].
    rewrite <- Hk in Hall. intros i o Ho. by apply (IH _ Hall), Hkept.
Qed.

(** C5. (1) A call of [_seed_today_offsets()] leaves every entry with an
    offset: the one it had, or a fresh one in [0, max(0, random)], hence
    in [0, random] for a bound [random >= 0] and 0 for the bound 0.
    (2) A second call right after the first changes nothing: offsets,
    fired flags and even the random source are the same. (3) Along
    same-day events and further calls of [_seed_today_offsets()], an
    offset that is set keeps its value. (4) In every state the player
    reaches from start-up each entry of the schedule has an offset within
    its bound. *)
Theorem offsets_sampled_once :
  (∀ st i e, schedule st !! i = Some e →
     ∃ o, _today_offsets (_seed_today_offsets false st) !! i = Some o ∧
          (_today_offsets st !! i = Some o ∨
           _today_offsets st !! i = None ∧ 0 <= o <= Z.max 0 (random e) ∧
           (0 <= random e → 0 <= o <= random e) ∧ (random e = 0 → o = 0))) ∧
  (∀ st, _seed_today_offsets false (_seed_today_offsets false st)
         = _seed_today_offsets false st) ∧
  (∀ ops st i o,
     Forall (same_day_op (_today_key st)) ops →
     _today_offsets st !! i = Some o →
     _today_offsets (run_ops ops st) !! i = Some o) ∧
  (∀ file script now fs g evs i e,
     schedule (run evs (init file script now fs g)) !! i = Some e →
     ∃ o, _today_offsets (run evs (init file script now fs g)) !! i = Some o ∧
          0 <= o <= Z.max 0 (random e) ∧
          (0 <= random e → 0 <= o <= random e) ∧ (random e = 0 → o = 0)).
Proof.
  split_and!.
  - intros st i e He. unfold _seed_today_offsets. cbn iota.
    pose proof (seed_loop_offsets (schedule st) 0 st i) as H.
    pose proof (lookup_lt_Some _ _ _ He) as Hlt.
    rewrite decide_True in H by lia. rewrite Nat.sub_0_r in H.
    destruct H as (o & Ho & Hcases). exists o. split; [done|].
    destruct Hcases as [?|[? (e' & He' & Hb)]]; [by left|].
    right. assert (e' = e) as -> by congruence.
    split_and!; try done; lia.
  - intros st. apply seed_idempotent.
  - intros ops st i o Hall Ho. by apply (same_day_ops_kept ops st Hall).
  - intros file script now fs g evs i e He.
    destruct (run_offsets_seeded evs _ (init_offsets_seeded file script now fs g)
                i e He) as (o & Ho & Hb).
    exists o. split_and!; try done; lia.
Qed.

Lemma offsets_sampled_once_witness :
  (∃ o, _today_offsets (_seed_today_offsets false demo_player) !! 0%nat = Some o ∧
        (_today_offsets demo_player !! 0%nat = Some o ∨
         _today_offsets demo_player !! 0%nat = None ∧ 0 <= o <= Z.max 0 15 ∧
         (0 <= 15 → 0 <= o <= 15) ∧ (15 = 0 → o = 0))) ∧
  _today_offsets
    (run_ops [OpEvent (EvTick (monday_at 9 0 0)); OpSeed false;
              OpEvent EvIdle; OpSeed false] demo_player) !! 0%nat = Some 0 ∧
  (∃ o, _today_offsets
          (run [EvTick (monday_at 9 0 0); EvKeyR (Some demo_csv)]
             (init (Some demo_csv) demo_script (monday_at 8 0 0) demo_files
                [0; 5])) !! 0%nat = Some o ∧
        0 <= o <= Z.max 0 15 ∧ (0 <= 15 → 0 <= o <= 15) ∧ (15 = 0 → o = 0)).
Proof.
  destruct offsets_sampled_once as (Hseed & _ & Hkept & Hreach).
  split_and!.
  - apply (Hseed demo_player 0%nat
             (mkEntry 1 1 1 1 1 0 0 9 0 15 60 "Stretch" "ACT_STRETCH" "FF"
                "9" "0")).
    vm_compute. reflexivity.
  - apply (Hkept _ demo_player 0%nat 0).
    + repeat constructor.
    + vm_compute. reflexivity.
  - apply (Hreach (Some demo_csv) demo_script (monday_at 8 0 0) demo_files
             [0; 5] [EvTick (monday_at 9 0 0); EvKeyR (Some demo_csv)] 0%nat
             (mkEntry 1 1 1 1 1 0 0 9 0 15 60 "Stretch" "ACT_STRETCH" "FF"
                "9" "0")).
    vm_compute. reflexivity.
Defined.

(** ** The playback queue *)

Lemma new_effects_app st st' l : trace st' = trace st ++ l → new_effects st st' = l.
Proof. unfold new_effects. intros ->. by rewrite drop_app_length. Qed.

Lemma handed_app l k : handed (l ++ k) = handed l ++ handed k.
Proof.
  induction l as [|e l IH]; [done|]. destruct e; cbn; by rewrite ?IH.
Qed.



Lemma try_play_next_in_queue_cons st next_path q :
  play_queue st = next_path :: q →
  try_play_next_in_queue st = play_file next_path (set_play_queue q st).
Proof.
  intros Hq. unfold try_play_next_in_queue, play_file. rewrite Hq. reflexivity.
Qed.

Lemma missing_files path st st' :
  files st' = files st → missing path st' = missing path st.
Proof. unfold missing. by intros ->. Qed.

(** Where [try_play_next_in_queue] ends: at the first queued path that
    exists, or idle. *)
Lemma try_play_next_from_spec q st :
  ∃ l, trace (try_play_next_from q st) = trace st ++ l ∧
       files (try_play_next_from q st) = files st ∧
       match next_existing (files st) q with
       | Some (p, rest) =>
           queue_view (try_play_next_from q st) = (rest, true) ∧ handed l = [p]
       | None =>
           queue_view (try_play_next_from q st) = ([], false) ∧ handed l = []
       end.
Proof.
  revert st. induction q as [|p q IH]; intros st; cbn [try_play_next_from next_existing].
  - eexists. split; [cbn; rewrite <- !app_assoc; reflexivity|]. done.
  - change (bool_decide (p = "") || negb (bool_decide (p ∈ files st)))
      with (missing p (set_play_queue q st)).
    destruct (missing p (set_play_queue q st)).
    + destruct (IH (print (LogFileNotFound p) (set_play_queue q st)))
        as (l & Ht & Hf & Hres).
      exists (Print (LogFileNotFound p) :: l). split.
      { rewrite Ht. cbn. rewrite <- app_assoc. reflexivity. }
      split; [done|]. cbn [files print emit set_trace set_play_queue] in Hres.
      destruct (next_existing (files st) q) as [[p' rest]|];
        destruct Hres as [-> Hh]; done.
    + eexists. split; [cbn; rewrite <- !app_assoc; reflexivity|]. done.
Qed.

Lemma try_play_next_after st st1 pre :
  trace st1 = trace st ++ pre → handed pre = [] →
  files st1 = files st → play_queue st1 = play_queue st →
  queue_view (try_play_next_in_queue st1)
  = match next_existing (files st) (play_queue st) with
    | Some (_, rest) => (rest, true)
    | None => ([], false)
    end ∧
  handed (new_effects st (try_play_next_in_queue st1))
  = match next_existing (files st) (play_queue st) with
    | Some (p, _) => [p]
    | None => []
    end.
Proof.
  intros Ht Hpre Hf Hq. unfold try_play_next_in_queue.
  destruct (try_play_next_from_spec (play_queue st1) st1) as (l & Htr & _ & Hres).
  rewrite Hf, Hq in Hres. rewrite Hq in Htr |- *.
  rewrite Ht, <- app_assoc in Htr.
  rewrite (new_effects_app _ _ _ Htr), handed_app, Hpre.
  destruct (next_existing (files st) (play_queue st)) as [[p rest]|];
    destruct Hres as [-> ->]; done.
Qed.

Lemma next_existing_exists fs q p rest :
  next_existing fs q = Some (p, rest) →
  bool_decide (p = "") || negb (bool_decide (p ∈ fs)) = false.
Proof.
  induction q as [|p' q IH]; [done|]. cbn [next_existing].
  destruct (bool_decide (p' = "") || negb (bool_decide (p' ∈ fs))) eqn:Hm;
    [done|]. by intros [= <- _].
Qed.


Lemma on_eos_after st :
  queue_view (on_eos st)
  = match next_existing (files st) (play_queue st) with
    | Some (_, rest) => (rest, true)
    | None => ([], false)
    end ∧
  handed (new_effects st (on_eos st))
  = match next_existing (files st) (play_queue st) with
    | Some (p, _) => [p]
    | None => []
    end.
Proof.
  unfold on_eos. apply (try_play_next_after st _ []); try done.
  cbn. by rewrite app_nil_r.
Qed.

Lemma on_error_after st :
  queue_view (on_error st)
  = match next_existing (files st) (play_queue st) with
    | Some (_, rest) => (rest, true)
    | None => ([], false)
    end ∧
  handed (new_effects st (on_error st))
  = match next_existing (files st) (play_queue st) with
    | Some (p, _) => [p]
    | None => []
    end.
Proof.
  unfold on_error. by apply (try_play_next_after st _ [Print LogGstError]).
Qed.




Lemma enqueue_file_idle path st :
  missing path st = false → _playing st = false →
  enqueue_file path st = start_playback path st.
Proof.
  intros Hm Hp. unfold enqueue_file, play_file. by rewrite Hm, Hp.
Qed.

Lemma enqueue_file_busy path st :
  missing path st = false → _playing st = true →
  enqueue_file path st =
    print (LogQueued path (length (play_queue st ++ [path])))
      (set_play_queue (play_queue st ++ [path]) st).
Proof. intros Hm Hp. unfold enqueue_file. by rewrite Hm, Hp. Qed.



(** ** C8: a missing playback target *)

(** C8 as stated fails for [enqueue_file]: with [a.mp4] playing and
    [b.mp4] queued, a request for a missing file leaves the queue as it
    is, while a playback failure would move on to [b.mp4]. *)
Lemma missing_enqueue_does_not_advance :
  ¬ (∀ (st : Player) (path : string),
       missing path st = true →
       queue_view (enqueue_file path st) = queue_view (on_error st) ∧
       queue_view (play_file path st) = queue_view (on_error st)).
Proof.
  intros Hclaim.
  destruct (Hclaim busy_player "/videos/missing.mp4" eq_refl) as [Henq _].
  vm_compute in Henq. discriminate.
Qed.

(** C8, as the code has it. A request to enqueue a missing path is
    logged and dropped: queue, playing flag and pipeline are untouched.
    A missing path that reaches [play_file] is logged and handled as a
    playback failure: the queue moves on to its first existing path or
    goes idle, exactly as [on_error] does. In neither case, nor when the
    queue advances, is the missing path handed to the pipeline. *)
Theorem missing_target_skipped (st : Player) (path : string) :
  missing path st = true →
  enqueue_file path st = print (LogFileNotFoundSkipping path) st ∧
  queue_view (enqueue_file path st) = queue_view st ∧
  new_effects st (enqueue_file path st)
  = [Print (LogFileNotFoundSkipping path)] ∧
  play_file path st = try_play_next_in_queue (print (LogFileNotFound path) st) ∧
  queue_view (play_file path st) = queue_view (on_error st) ∧
  handed (new_effects st (play_file path st))
  = handed (new_effects st (on_error st)) ∧
  (path ∉ handed (new_effects st (play_file path st))) ∧
  (path ∉ handed (new_effects st (on_eos st))) ∧
  (path ∉ handed (new_effects st (on_error st))).
Proof.
  intros Hm.
  assert (enqueue_file path st = print (LogFileNotFoundSkipping path) st) as He
    by (unfold enqueue_file; by rewrite Hm).
  assert (play_file path st
          = try_play_next_in_queue (print (LogFileNotFound path) st)) as Hp
    by (unfold play_file; by rewrite Hm).
  destruct (try_play_next_after st (print (LogFileNotFound path) st)
              [Print (LogFileNotFound path)]) as [Hq1 Hh1]; try done.
  destruct (on_error_after st) as [Hq2 Hh2].
  destruct (on_eos_after st) as [Hq3 Hh3].
  rewrite He, Hp, Hq1, Hq2, Hh1, Hh2, Hh3.
  assert (path ∉ match next_existing (files st) (play_queue st) with
                 | Some (p, _) => [p]
                 | None => []
                 end) as Hnot.
  { destruct (next_existing (files st) (play_queue st)) as [[p rest]|] eqn:Hn;
      [|apply not_elem_of_nil].
    apply next_existing_exists in Hn. intros ->%list_elem_of_singleton.
    unfold missing in Hm. congruence. }
  split_and!; try done. by apply new_effects_app.
Qed.

Lemma missing_target_skipped_witness :
  let path := "/videos/missing.mp4" in
  enqueue_file path busy_player = print (LogFileNotFoundSkipping path) busy_player ∧
  queue_view (enqueue_file path busy_player) = queue_view busy_player ∧
  new_effects busy_player (enqueue_file path busy_player)
  = [Print (LogFileNotFoundSkipping path)] ∧
  play_file path busy_player
  = try_play_next_in_queue (print (LogFileNotFound path) busy_player) ∧
  queue_view (play_file path busy_player) = queue_view (on_error busy_player) ∧
  handed (new_effects busy_player (play_file path busy_player))
  = handed (new_effects busy_player (on_error busy_player)) ∧
  (path ∉ handed (new_effects busy_player (play_file path busy_player))) ∧
  (path ∉ handed (new_effects busy_player (on_eos busy_player))) ∧
  (path ∉ handed (new_effects busy_player (on_error busy_player))).
Proof.
  intros path. apply (missing_target_skipped busy_player path). reflexivity.
Defined.

(** ** C6: the WAIT step *)


Lemma list_find_fresh (l : list timeout_source) id seconds cb :
  (∀ t', t' ∈ l → source_id t' ≠ id) →
  list_find (fun t' => source_id t' = id) (l ++ [mkTimeout id seconds cb])
  = Some (length l, mkTimeout id seconds cb).
Proof.
  intros Hfresh. apply list_find_Some. split_and!.
  - by rewrite lookup_app_r, Nat.sub_diag.
  - done.
  - intros j t' Hj Hlt. rewrite lookup_app_l in Hj by done.
    apply Hfresh. by eapply list_elem_of_lookup_2.
Qed.





(** In that state the pending continuation is the WAIT step, and its
    timer is armed for 60 seconds. *)
Example stretching_player_waits :
  idle_sources stretching_player
  = [CbRunStepsChain [StepDict "PLAY" "/videos/stretch.mp4";
                      StepDict "WAIT" "1";
                      StepDict "TOAST-MESSAGE" "Done"] 1] ∧
  map interval_seconds (timeout_sources (handle EvIdle stretching_player))
  = [4; 60].
Proof. vm_compute. done. Qed.
(** ** The manual trigger and the fired flags do not meet *)

Lemma emit_set_today_fired f e st :
  emit e (set_today_fired f st) = set_today_fired f (emit e st).
Proof. reflexivity. Qed.

Lemma show_toast_set_today_fired f m s st :
  show_toast m s (set_today_fired f st) = set_today_fired f (show_toast m s st).
Proof. unfold show_toast, timeout_add_seconds. cbn. by repeat case_match. Qed.

Lemma try_play_next_from_set_today_fired f q st :
  try_play_next_from q (set_today_fired f st)
  = set_today_fired f (try_play_next_from q st).
Proof.
  revert st. induction q as [|p q IH]; intros st; cbn [try_play_next_from].
  - reflexivity.
  - change (missing p (set_play_queue q (set_today_fired f st)))
      with (missing p (set_play_queue q st)).
    case_match; [|reflexivity]. apply (IH (print (LogFileNotFound p) (set_play_queue q st))).
Qed.

Lemma enqueue_file_set_today_fired f p st :
  enqueue_file p (set_today_fired f st) = set_today_fired f (enqueue_file p st).
Proof.
  unfold enqueue_file, play_file, try_play_next_in_queue.
  change (missing p (set_today_fired f st)) with (missing p st).
  cbn [_playing set_today_fired play_queue].
  repeat case_match; try reflexivity;
    apply (try_play_next_from_set_today_fired f (play_queue st)
             (print (LogFileNotFound p) st)).
Qed.

Lemma run_steps_chain_set_today_fired f steps idx st :
  _run_steps_chain steps idx (set_today_fired f st)
  = set_today_fired f (_run_steps_chain steps idx st).
Proof.
  unfold _run_steps_chain, timeout_add_seconds, _cancel_step_timer.
  cbn [rng set_today_fired print emit set_trace _step_timer_source _current_action_name].
  repeat case_match; simplify_eq;
    try match goal with
        | |- context [set_rng ?l (set_today_fired f st)] =>
            change (set_rng l (set_today_fired f st))
              with (set_today_fired f (set_rng l st))
        end;
    rewrite ?enqueue_file_set_today_fired, ?show_toast_set_today_fired;
    reflexivity.
Qed.



Lemma run_action_set_today_fired f name st :
  run_action name (set_today_fired f st) = set_today_fired f (run_action name st).
Proof.
  unfold run_action. cbn [actions_script set_today_fired _action_running].
  repeat case_match; try reflexivity;
    rewrite <- run_steps_chain_set_today_fired; reflexivity.
Qed.

Lemma play_manual_action_once_set_today_fired f name now st :
  _play_manual_action_once name now (set_today_fired f st)
  = set_today_fired f (_play_manual_action_once name now st).
Proof.
  unfold _play_manual_action_once.
  cbn [_manual_action_last_trigger set_today_fired _action_running
       _current_action_name].
  repeat case_match; try reflexivity;
    rewrite <- run_action_set_today_fired; reflexivity.
Qed.

(** ** C9 and C10: manual triggers *)

Lemma seed_last_trigger force st :
  _manual_action_last_trigger (_seed_today_offsets force st)
  = _manual_action_last_trigger st.
Proof.
  unfold _seed_today_offsets.
  destruct (seed_loop_shape (schedule (if force
      then set_today_fired ∅ (set_today_offsets ∅ st) else st)) 0
      (if force then set_today_fired ∅ (set_today_offsets ∅ st) else st))
    as (o & f & g & ->).
  by destruct force.
Qed.

Lemma check_loop_last_trigger now wd es idx st :
  _manual_action_last_trigger (state_of (check_loop now wd idx es st))
  = _manual_action_last_trigger st.
Proof.
  revert idx st. induction es as [|e es IH]; intros idx st; cbn [check_loop];
    [done|].
  assert (_manual_action_last_trigger (state_of (check_entry now wd idx e st))
          = _manual_action_last_trigger st) as Hstep.
  { destruct (check_entry_view now wd idx e st) as [Hv|[_ Hv]];
      by apply sched_view_fields in Hv as (_ & _ & _ & _ & _ & -> & _). }
  destruct (check_entry now wd idx e st) as [st'|x st']; cbn [state_of] in *;
    [by rewrite IH|done].
Qed.

Lemma tick_last_trigger now st :
  _manual_action_last_trigger (state_of (tick now st))
  = _manual_action_last_trigger st.
Proof.
  unfold tick, _check_and_fire_scheduled. cbn zeta.
  rewrite check_loop_last_trigger.
  set (st1 := if decide (date now ≠ _today_key (emit ClockRefresh st))
              then _seed_today_offsets true
                     (set_today_key (date now)
                        (print LogNewDay (emit ClockRefresh st)))
              else emit ClockRefresh st).
  assert (_manual_action_last_trigger st1 = _manual_action_last_trigger st)
    as <-.
  { unfold st1. case_decide; [by rewrite seed_last_trigger|done]. }
  clearbody st1. case_decide; [|done].
  by destruct (sched_view_fields _ _
       (sched_view_enqueue_hour_video (dt_hour now)
          (set_last_seen_hour (dt_hour now) (print LogChangeOfHour st1))))
    as (_ & _ & _ & _ & _ & -> & _).
Qed.

Lemma run_action_last_trigger name st :
  _manual_action_last_trigger (run_action name st)
  = _manual_action_last_trigger st.
Proof.
  by destruct (sched_view_fields _ _ (sched_view_run_action name st))
    as (_ & _ & _ & _ & _ & -> & _).
Qed.

Lemma play_manual_action_once_last_trigger other name now st :
  other ≠ name →
  _manual_action_last_trigger (_play_manual_action_once other now st) !! name
  = _manual_action_last_trigger st !! name.
Proof.
  intros Hne. unfold _play_manual_action_once.
  repeat case_match; try reflexivity;
    rewrite run_action_last_trigger; cbn; by rewrite lookup_insert_ne.
Qed.

(** Only a manual trigger of [name] writes the debounce entry of
    [name]. *)
Lemma handle_last_trigger name ev st :
  (∀ now, ev ≠ EvManual name now) →
  _manual_action_last_trigger (handle ev st) !! name
  = _manual_action_last_trigger st !! name.
Proof.
  intros Hev.
  destruct ev as [now| | |file|other now| |id|fs]; cbn [handle].
  - by rewrite tick_last_trigger.
  - by destruct (sched_view_fields _ _ (sched_view_on_eos st))
      as (_ & _ & _ & _ & _ & -> & _).
  - by destruct (sched_view_fields _ _ (sched_view_on_error st))
      as (_ & _ & _ & _ & _ & -> & _).
  - unfold on_key_R. by rewrite seed_last_trigger.
  - apply play_manual_action_once_last_trigger. intros ->. by apply (Hev now).
  - destruct (idle_sources st) as [|cb rest]; [done|].
    by destruct (sched_view_fields _ _
         (sched_view_run_callback cb (set_idle_sources rest st)))
      as (_ & _ & _ & _ & _ & -> & _).
  - destruct (list_find _ _) as [[? t]|]; [|done].
    by destruct (sched_view_fields _ _
         (sched_view_run_callback (source_cb t) (source_remove id st)))
      as (_ & _ & _ & _ & _ & -> & _).
  - done.
Qed.

Lemma run_last_trigger name evs st :
  Forall (fun ev => ∀ now, ev ≠ EvManual name now) evs →
  _manual_action_last_trigger (run evs st) !! name
  = _manual_action_last_trigger st !! name.
Proof.
  revert st. induction evs as [|ev evs IH]; intros st Hall; [done|].
  apply Forall_cons in Hall as [Hev Hall]. cbn [run foldl].
  etrans; [apply (IH _ Hall)|]. by apply handle_last_trigger.
Qed.

(** A manual trigger that starts its action has recorded its time. *)
Lemma manual_started_recorded name now st :
  Print (LogStarting name) ∈ new_effects st (_play_manual_action_once name now st) →
  _manual_action_last_trigger (_play_manual_action_once name now st) !! name
  = Some now.
Proof.
  unfold _play_manual_action_once.
  destruct (match _manual_action_last_trigger st !! name with
            | Some last => to_microseconds now - to_microseconds last <? 1000000
            | None => false
            end).
  { rewrite (new_effects_app st _ [Print (LogIgnoringRepeat name)]) by done.
    by intros [=]%list_elem_of_singleton. }
  destruct (_action_running st
            && bool_decide (_current_action_name st = Some name)).
  { rewrite (new_effects_app st _ [Print (LogAlreadyRunningManual name)]) by done.
    by intros [=]%list_elem_of_singleton. }
  intros _. rewrite run_action_last_trigger. cbn. apply lookup_insert_eq.
Qed.

Lemma manual_suppressed name now last st :
  _manual_action_last_trigger st !! name = Some last →
  to_microseconds now - to_microseconds last < 1000000 →
  _play_manual_action_once name now st = print (LogIgnoringRepeat name) st.
Proof.
  intros Hlast Hlt. unfold _play_manual_action_once. rewrite Hlast.
  by destruct (Z.ltb_spec (to_microseconds now - to_microseconds last) 1000000);
    [|lia].
Qed.

(** C9. Two manual triggers of [name] at [t1] and [t2], less than one
    second apart, with any events other than a manual trigger of [name]
    in between: if the first one starts the action, the second one is
    ignored, so the two never both start it. The debounce entry is
    keyed by the action name: a trigger of another name leaves the entry
    of [name] alone and does not hold back a trigger of [name]. It is
    separate from the fired flags: a manual trigger neither reads nor
    writes [_today_fired], and the scheduler's tick never writes the
    debounce table. *)
Theorem manual_trigger_debounced (name : string) (t1 t2 : datetime)
  (evs : list event) (st : Player) :
  to_microseconds t2 - to_microseconds t1 < 1000000 →
  Forall (fun ev => ∀ now, ev ≠ EvManual name now) evs →
  (Print (LogStarting name)
     ∈ new_effects st (_play_manual_action_once name t1 st) →
   _play_manual_action_once name t2
     (run evs (_play_manual_action_once name t1 st))
   = print (LogIgnoringRepeat name)
       (run evs (_play_manual_action_once name t1 st))) ∧
  ¬ (Print (LogStarting name)
       ∈ new_effects st (_play_manual_action_once name t1 st) ∧
     Print (LogStarting name)
       ∈ new_effects (run evs (_play_manual_action_once name t1 st))
           (_play_manual_action_once name t2
              (run evs (_play_manual_action_once name t1 st)))) ∧
  _today_fired (_play_manual_action_once name t1 st) = _today_fired st ∧
  (∀ f, _play_manual_action_once name t1 (set_today_fired f st)
        = set_today_fired f (_play_manual_action_once name t1 st)) ∧
  (∀ now, _manual_action_last_trigger (state_of (tick now st))
          = _manual_action_last_trigger st) ∧
  (∀ other t0, other ≠ name →
     _manual_action_last_trigger (_play_manual_action_once other t0 st) !! name
     = _manual_action_last_trigger st !! name) ∧
  (∀ other t0, other ≠ name →
     _manual_action_last_trigger st !! name = None →
     _action_running (_play_manual_action_once other t0 st)
     && bool_decide (_current_action_name
                       (_play_manual_action_once other t0 st) = Some name)
     = false →
     _play_manual_action_once name t1 (_play_manual_action_once other t0 st)
     = run_action name
         (set_manual_action_last_trigger
            (<[name := t1]>
               (_manual_action_last_trigger
                  (_play_manual_action_once other t0 st)))
            (_play_manual_action_once other t0 st))).
Proof.
  intros Hclose Hevs.
  assert (Print (LogStarting name)
            ∈ new_effects st (_play_manual_action_once name t1 st) →
          _play_manual_action_once name t2
            (run evs (_play_manual_action_once name t1 st))
          = print (LogIgnoringRepeat name)
              (run evs (_play_manual_action_once name t1 st))) as Hsecond.
  { intros Hstarted%manual_started_recorded.
    apply (manual_suppressed name t2 t1); [|done].
    by rewrite run_last_trigger. }
  split_and!.
  - exact Hsecond.
  - intros [Hfirst Hboth]. rewrite (Hsecond Hfirst) in Hboth.
    rewrite (new_effects_app _ _ [Print (LogIgnoringRepeat name)]) in Hboth
      by done.
    by apply list_elem_of_singleton in Hboth.
  - pose proof (day_view_play_manual_action_once name t1 st) as Hv.
    unfold day_view in Hv. by injection Hv.
  - intros f. apply play_manual_action_once_set_today_fired.
  - intros now. apply tick_last_trigger.
  - intros other t0 Hne. by apply play_manual_action_once_last_trigger.
  - intros other t0 Hne Hnone Hrun.
    unfold _play_manual_action_once at 1.
    rewrite (play_manual_action_once_last_trigger other name t0 st Hne), Hnone.
    by rewrite Hrun.
Qed.

Lemma show_toast_runner message seconds st :
  _action_running (show_toast message seconds st) = _action_running st ∧
  _current_action_name (show_toast message seconds st) = _current_action_name st.
Proof. unfold show_toast, timeout_add_seconds. by repeat case_match. Qed.

(** C10. While the runner's tracked action is [name] (running flag set,
    current name equal to [name]) a manual trigger of [name] only prints
    a line, whatever the time since the last trigger; past the debounce
    window the line is the "already running" one. [run_action], which
    the scheduler calls, has no such test: it starts the chain at step 0
    even while [name] runs, and an entry that fires calls it. *)
Theorem manual_trigger_ignored_while_running (name : string) (now : datetime)
  (st : Player) :
  _action_running st = true →
  _current_action_name st = Some name →
  (_play_manual_action_once name now st = print (LogIgnoringRepeat name) st ∨
   _play_manual_action_once name now st
   = print (LogAlreadyRunningManual name) st) ∧
  ((∀ last, _manual_action_last_trigger st !! name = Some last →
            1000000 <= to_microseconds now - to_microseconds last) →
   _play_manual_action_once name now st
   = print (LogAlreadyRunningManual name) st) ∧
  (∀ steps, actions_script st !! name = Some steps → steps ≠ [] →
   run_action name st
   = _run_steps_chain steps 0
       (print (LogStarting name)
          (set_current_action_name (Some name)
             (set_action_running true
                (print (LogAlreadyRunning (Some name)) st))))) ∧
  (∀ now_no_ms fire_dt idx e, action e = name → name ≠ "" →
   ∃ st1, fire_entry now_no_ms fire_dt idx e st = run_action name st1 ∧
          _action_running st1 = true ∧
          _current_action_name st1 = Some name ∧
          actions_script st1 = actions_script st).
Proof.
  intros Hrun Hcur. split_and!.
  - unfold _play_manual_action_once. rewrite Hrun, Hcur.
    rewrite bool_decide_eq_true_2 by done. cbn [andb].
    destruct (match _manual_action_last_trigger st !! name with
              | Some last => _
              | None => false
              end); [by left|by right].
  - intros Hold. unfold _play_manual_action_once. rewrite Hrun, Hcur.
    rewrite bool_decide_eq_true_2 by done. cbn [andb].
    destruct (_manual_action_last_trigger st !! name) as [last|]; [|done].
    specialize (Hold last eq_refl).
    by destruct (Z.ltb_spec (to_microseconds now - to_microseconds last) 1000000);
      [lia|].
  - intros steps Hsteps Hne. unfold run_action. rewrite Hsteps, Hrun, Hcur.
    by destruct steps.
  - intros now_no_ms fire_dt idx e He Hne. unfold fire_entry. rewrite He.
    rewrite (decide_False (P := name = "")) by done.
    eexists. split; [reflexivity|].
    case_decide.
    + split_and!; [exact Hrun|exact Hcur|reflexivity].
    + destruct (show_toast_runner (text e) 4
        (print (LogShowingToast (text e))
           (set_today_fired
              (<[idx:=true]>
                 (_today_fired (print (LogFireEq now_no_ms fire_dt) st)))
              (print (LogFireEq now_no_ms fire_dt) st)))) as [Hr Hc].
      cbn [print emit set_trace _action_running _current_action_name
           actions_script].
      rewrite Hr, Hc.
      destruct (sched_view_fields _ _ (sched_view_show_toast (text e) 4
        (print (LogShowingToast (text e))
           (set_today_fired
              (<[idx:=true]>
                 (_today_fired (print (LogFireEq now_no_ms fire_dt) st)))
              (print (LogFireEq now_no_ms fire_dt) st)))))
        as (_ & -> & _).
      split_and!; [exact Hrun|exact Hcur|reflexivity].
Qed.

Lemma manual_trigger_debounced_witness :
  let name := "ACT_STRETCH" in
  let other := "ACT_A_KEY_ACTION" in
  let t1 := monday_at 10 0 0 in
  let t2 := mkDatetime 739257 10 0 0 500000 in
  let evs := [EvIdle; EvTick (monday_at 10 0 0); EvManual other t1] in
  let st := demo_player in
  _play_manual_action_once name t2
    (run evs (_play_manual_action_once name t1 st))
  = print (LogIgnoringRepeat name)
      (run evs (_play_manual_action_once name t1 st)) ∧
  ¬ (Print (LogStarting name)
       ∈ new_effects st (_play_manual_action_once name t1 st) ∧
     Print (LogStarting name)
       ∈ new_effects (run evs (_play_manual_action_once name t1 st))
           (_play_manual_action_once name t2
              (run evs (_play_manual_action_once name t1 st)))) ∧
  _today_fired (_play_manual_action_once name t1 st) = _today_fired st ∧
  _manual_action_last_trigger (_play_manual_action_once other t2 st) !! name
  = _manual_action_last_trigger st !! name ∧
  _play_manual_action_once name t1 (_play_manual_action_once other t2 st)
  = run_action name
      (set_manual_action_last_trigger
         (<[name := t1]>
            (_manual_action_last_trigger
               (_play_manual_action_once other t2 st)))
         (_play_manual_action_once other t2 st)).
Proof.
  intros name other t1 t2 evs st.
  destruct (manual_trigger_debounced name t1 t2 evs st)
    as (Hsecond & Hboth & Hfired & _ & _ & Hkey & Hother).
  - vm_compute. reflexivity.
  - repeat constructor; intros now; discriminate.
  - split_and!.
    + apply Hsecond. vm_compute. repeat constructor.
    + exact Hboth.
    + exact Hfired.
    + apply Hkey. discriminate.
    + apply Hother; [discriminate|vm_compute; reflexivity|vm_compute; reflexivity].
Defined.

Lemma manual_trigger_ignored_while_running_witness :
  let name := "ACT_STRETCH" in
  let now := monday_at 9 0 5 in
  let st := stretching_player in
  let steps := [StepDict "PLAY" "/videos/stretch.mp4"; StepDict "WAIT" "1";
                StepDict "TOAST-MESSAGE" "Done"] in
  let e := mkEntry 1 1 1 1 1 0 0 9 1 0 60 "" "ACT_STRETCH" "FF" "9" "1" in
  (_play_manual_action_once name now st = print (LogIgnoringRepeat name) st ∨
   _play_manual_action_once name now st
   = print (LogAlreadyRunningManual name) st) ∧
  _play_manual_action_once name now st
  = print (LogAlreadyRunningManual name) st ∧
  run_action name st
  = _run_steps_chain steps 0
      (print (LogStarting name)
         (set_current_action_name (Some name)
            (set_action_running true
               (print (LogAlreadyRunning (Some name)) st)))) ∧
  ∃ st1, fire_entry (monday_at 9 1 0) (monday_at 9 1 0) 1 e st
         = run_action name st1 ∧
         _action_running st1 = true ∧
         _current_action_name st1 = Some name ∧
         actions_script st1 = actions_script st.
Proof.
  intros name now st steps e.
  destruct (manual_trigger_ignored_while_running name now st)
    as (Hcases & Hpast & Hsched & Hfire).
  - vm_compute. reflexivity.
  - vm_compute. reflexivity.
  - split_and!.
    + exact Hcases.
    + apply Hpast. intros last Hlast. vm_compute in Hlast. discriminate.
    + apply Hsched; [vm_compute; reflexivity|discriminate].
    + apply (Hfire (monday_at 9 1 0) (monday_at 9 1 0) 1%nat e);
        [reflexivity|discriminate].
Defined.

(** The manual trigger is held back although more than a second has
    passed since the scheduler started the action; the scheduler itself
    starts it a second time. *)
Example overlap_by_scheduler :
  let st := stretching_player in
  new_effects st (_play_manual_action_once "ACT_STRETCH" (monday_at 9 0 5) st)
  = [Print (LogAlreadyRunningManual "ACT_STRETCH")] ∧
  take 2 (new_effects st (run_action "ACT_STRETCH" st))
  = [Print (LogAlreadyRunning (Some "ACT_STRETCH"));
     Print (LogStarting "ACT_STRETCH")].
Proof. vm_compute. done. Qed.

(** ** Source ids stay fresh *)

Lemma loop_grows_refl st : loop_grows st st.
Proof. split; [done|]. by left. Qed.

Lemma loop_grows_trans st1 st2 st3 :
  loop_grows st1 st2 → loop_grows st2 st3 → loop_grows st1 st3.
Proof.
  intros [Hn12 H12] [Hn23 H23]. split; [lia|].
  intros t [Ht|Ht]%H23; [|right; lia].
  destruct (H12 t Ht) as [?|?]; [by left|right; lia].
Qed.

Lemma loop_grows_fresh st st' :
  loop_grows st st' → sources_fresh st → sources_fresh st'.
Proof.
  unfold sources_fresh. rewrite !Forall_forall. intros [Hn Hg] Hst t Ht.
  destruct (Hg t Ht) as [Hold|?]; [|lia]. specialize (Hst t Hold). lia.
Qed.

Lemma loop_grows_same st st' :
  timeout_sources st' = timeout_sources st →
  next_source_id st' = next_source_id st → loop_grows st st'.
Proof. intros Ht Hn. split; [lia|]. rewrite Ht. by left. Qed.

Lemma loop_grows_idle_add cb st : loop_grows st (idle_add cb st).
Proof. split; [cbn; lia|]. by left. Qed.

Lemma loop_grows_timeout_add seconds cb st :
  loop_grows st (timeout_add_seconds seconds cb st).2.
Proof.
  split; [cbn; lia|]. cbn. intros t [Ht|Ht%list_elem_of_singleton]%elem_of_app;
    [by left|]. subst t. right. cbn. lia.
Qed.

Lemma loop_grows_source_remove id st : loop_grows st (source_remove id st).
Proof.
  split; [done|]. cbn. intros t [_ Ht]%list_elem_of_filter. by left.
Qed.

Lemma loop_grows_show_toast message seconds st :
  loop_grows st (show_toast message seconds st).
Proof.
  unfold show_toast. case_decide; [apply loop_grows_refl|].
  set (st1 := match toast_hide_source (emit (ToastShow message) st) with
              | Some (S _ as id) => source_remove id (emit (ToastShow message) st)
              | _ => emit (ToastShow message) st
              end).
  assert (loop_grows st st1) as H1.
  { unfold st1. destruct (toast_hide_source _) as [[|id]|];
      try by apply loop_grows_same.
    eapply loop_grows_trans; [|apply loop_grows_source_remove].
    by apply loop_grows_same. }
  eapply loop_grows_trans; [exact H1|].
  pose proof (loop_grows_timeout_add seconds CbHideToast st1) as H2.
  destruct (timeout_add_seconds seconds CbHideToast st1) as [id st2].
  eapply loop_grows_trans; [exact H2|]. by apply loop_grows_same.
Qed.

Lemma loop_grows_try_play_next_from q st :
  loop_grows st (try_play_next_from q st).
Proof.
  revert st. induction q as [|p q IH]; intros st; cbn [try_play_next_from].
  - by apply loop_grows_same.
  - case_match; [|by apply loop_grows_same].
    eapply loop_grows_trans; [|apply IH]. by apply loop_grows_same.
Qed.

Lemma loop_grows_enqueue_file path st : loop_grows st (enqueue_file path st).
Proof.
  unfold enqueue_file, play_file, try_play_next_in_queue.
  repeat case_match;
    first [ by apply loop_grows_same
          | eapply loop_grows_trans; [|apply loop_grows_try_play_next_from];
            by apply loop_grows_same ].
Qed.

Lemma loop_grows_enqueue_hour_video hour st :
  loop_grows st (enqueue_hour_video hour st).
Proof.
  unfold enqueue_hour_video.
  repeat case_match;
    first [ by apply loop_grows_same
          | eapply loop_grows_trans; [apply loop_grows_enqueue_file|];
            by apply loop_grows_same ].
Qed.

Lemma loop_grows_cancel_step_timer st : loop_grows st (_cancel_step_timer st).
Proof.
  unfold _cancel_step_timer. destruct (_step_timer_source st) as [[|id]|];
    try apply loop_grows_refl.
  eapply loop_grows_trans; [apply loop_grows_source_remove|].
  by apply loop_grows_same.
Qed.

Lemma loop_grows_run_steps_chain steps idx st :
  loop_grows st (_run_steps_chain steps idx st).
Proof.
  unfold _run_steps_chain.
  destruct (steps !! idx) as [[op val|]|]; [| |by apply loop_grows_same].
  - repeat case_decide.
    + eapply loop_grows_trans; [apply loop_grows_enqueue_file|].
      apply loop_grows_idle_add.
    + destruct (expand_play_random val (rng st)) as [path g].
      eapply loop_grows_trans; [|apply loop_grows_idle_add].
      eapply loop_grows_trans; [|apply loop_grows_enqueue_file].
      by apply loop_grows_same.
    + set (st1 := _cancel_step_timer (print (LogWaiting (wait_minutes val)) st)).
      assert (loop_grows st st1) as Hg1.
      { eapply loop_grows_trans; [|apply loop_grows_cancel_step_timer].
        by apply loop_grows_same. }
      pose proof (loop_grows_timeout_add (wait_minutes val * 60)
                    (CbAfterWaitContinue steps (idx + 1)) st1) as Hg2.
      destruct (timeout_add_seconds _ _ st1) as [id st2].
      eapply loop_grows_trans; [exact Hg1|].
      eapply loop_grows_trans; [exact Hg2|]. by apply loop_grows_same.
    + eapply loop_grows_trans; [apply loop_grows_show_toast|].
      apply loop_grows_idle_add.
    + eapply loop_grows_trans; [|apply loop_grows_idle_add].
      by apply loop_grows_same.
  - eapply loop_grows_trans; [|apply loop_grows_idle_add].
    by apply loop_grows_same.
Qed.

Lemma loop_grows_run_action name st : loop_grows st (run_action name st).
Proof.
  unfold run_action.
  destruct (actions_script st !! name) as [[|s steps]|];
    try by apply loop_grows_same.
  eapply loop_grows_trans; [|apply loop_grows_run_steps_chain].
  destruct (_action_running st); by apply loop_grows_same.
Qed.

Lemma loop_grows_play_manual_action_once name now st :
  loop_grows st (_play_manual_action_once name now st).
Proof.
  unfold _play_manual_action_once.
  repeat case_match;
    first [ by apply loop_grows_same
          | eapply loop_grows_trans; [|apply loop_grows_run_action];
            by apply loop_grows_same ].
Qed.

Lemma loop_grows_seed force st : loop_grows st (_seed_today_offsets force st).
Proof.
  unfold _seed_today_offsets.
  destruct (seed_loop_shape (schedule (if force
      then set_today_fired ∅ (set_today_offsets ∅ st) else st)) 0
      (if force then set_today_fired ∅ (set_today_offsets ∅ st) else st))
    as (o & f & g & ->).
  destruct force; by apply loop_grows_same.
Qed.

Lemma loop_grows_fire_entry now_no_ms fire_dt idx e st :
  loop_grows st (fire_entry now_no_ms fire_dt idx e st).
Proof.
  unfold fire_entry.
  set (st1 := set_today_fired _ _).
  assert (loop_grows st st1) as H1 by (by apply loop_grows_same).
  clearbody st1. cbn zeta.
  set (st2 := if decide (text e = "") then st1 else _).
  assert (loop_grows st1 st2) as H2.
  { unfold st2. case_decide; [apply loop_grows_refl|].
    eapply loop_grows_trans; [|apply loop_grows_show_toast].
    by apply loop_grows_same. }
  clearbody st2. eapply loop_grows_trans; [exact H1|].
  eapply loop_grows_trans; [exact H2|].
  case_decide; [apply loop_grows_refl|].
  eapply loop_grows_trans; [|apply loop_grows_run_action].
  by apply loop_grows_same.
Qed.

Lemma loop_grows_check_loop now wd es idx st :
  loop_grows st (state_of (check_loop now wd idx es st)).
Proof.
  revert idx st. induction es as [|e es IH]; intros idx st; cbn [check_loop].
  - apply loop_grows_refl.
  - assert (loop_grows st (state_of (check_entry now wd idx e st))) as Hstep.
    { unfold check_entry. repeat case_match; cbn [state_of];
        try apply loop_grows_refl. apply loop_grows_fire_entry. }
    destruct (check_entry now wd idx e st) as [st'|x st']; cbn [state_of] in *;
      [|done].
    eapply loop_grows_trans; [exact Hstep|apply IH].
Qed.

Lemma loop_grows_tick now st : loop_grows st (state_of (tick now st)).
Proof.
  unfold tick, _check_and_fire_scheduled.
  set (st1 := if decide (date now ≠ _today_key (emit ClockRefresh st))
              then _ else emit ClockRefresh st).
  assert (loop_grows st st1) as H1.
  { unfold st1. case_decide; [|by apply loop_grows_same].
    eapply loop_grows_trans; [|apply loop_grows_seed].
    by apply loop_grows_same. }
  clearbody st1. cbn zeta.
  set (st2 := if decide (dt_hour now ≠ last_seen_hour st1) then _ else st1).
  assert (loop_grows st1 st2) as H2.
  { unfold st2. case_decide; [|apply loop_grows_refl].
    eapply loop_grows_trans; [|apply loop_grows_enqueue_hour_video].
    by apply loop_grows_same. }
  clearbody st2. eapply loop_grows_trans; [exact H1|].
  eapply loop_grows_trans; [exact H2|]. apply loop_grows_check_loop.
Qed.

Lemma loop_grows_run_callback cb st : loop_grows st (run_callback cb st).
Proof.
  destruct cb; cbn [run_callback].
  - apply loop_grows_run_steps_chain.
  - unfold _after_wait_continue.
    eapply loop_grows_trans; [|apply loop_grows_run_steps_chain].
    by apply loop_grows_same.
  - by apply loop_grows_same.
  - apply loop_grows_enqueue_hour_video.
Qed.

Lemma loop_grows_handle ev st : loop_grows st (handle ev st).
Proof.
  destruct ev as [now| | |file|name now| |id|fs]; cbn [handle].
  - apply loop_grows_tick.
  - unfold on_eos, try_play_next_in_queue.
    eapply loop_grows_trans; [|apply loop_grows_try_play_next_from].
    by apply loop_grows_same.
  - unfold on_error, try_play_next_in_queue.
    eapply loop_grows_trans; [|apply loop_grows_try_play_next_from].
    by apply loop_grows_same.
  - unfold on_key_R. eapply loop_grows_trans; [|apply loop_grows_seed].
    by apply loop_grows_same.
  - apply loop_grows_play_manual_action_once.
  - destruct (idle_sources st) as [|cb rest]; [apply loop_grows_refl|].
    eapply loop_grows_trans; [|apply loop_grows_run_callback].
    by apply loop_grows_same.
  - destruct (list_find _ _) as [[? t]|]; [|apply loop_grows_refl].
    eapply loop_grows_trans; [apply loop_grows_source_remove|].
    apply loop_grows_run_callback.
  - by apply loop_grows_same.
Qed.

Lemma loop_grows_enqueue_startup_sequence now st :
  loop_grows st (enqueue_startup_sequence now st).
Proof.
  unfold enqueue_startup_sequence. cbn zeta.
  set (hello := "/home/tme520/Videos/LPS/moves" +:+ "/" +:+ "c10 - wave hello 3.mp4").
  set (st1 := if bool_decide (hello ∈ files st) then enqueue_file hello st else st).
  assert (loop_grows st st1) as Hg1.
  { unfold st1. destruct (bool_decide (hello ∈ files st));
      [apply loop_grows_enqueue_file|apply loop_grows_refl]. }
  clearbody st1. eapply loop_grows_trans; [exact Hg1|].
  match goal with
  | |- loop_grows _ (if ?b then _ else _) =>
      destruct b; [apply loop_grows_enqueue_file|apply loop_grows_refl]
  end.
Qed.

Lemma startup_sources_fresh cb now st :
  sources_fresh st →
  sources_fresh
    (enqueue_startup_sequence now
       (emit ShowClockOnly
          (emit ClockRefresh (idle_add cb (_seed_today_offsets false st))))).
Proof.
  intros Hst.
  eapply loop_grows_fresh; [apply loop_grows_enqueue_startup_sequence|].
  eapply (loop_grows_fresh (idle_add cb (_seed_today_offsets false st)));
    [apply loop_grows_same; reflexivity|].
  eapply loop_grows_fresh; [apply loop_grows_idle_add|].
  eapply loop_grows_fresh; [apply loop_grows_seed|]. exact Hst.
Qed.

Lemma init_sources_fresh file script now fs g :
  sources_fresh (init file script now fs g).
Proof.
  unfold init. cbn zeta. apply startup_sources_fresh. exact (Forall_nil_2 _).
Qed.

(** In every state the player reaches from start-up, the ids of the
    pending timeout sources are below the next id to be handed out. *)
Lemma reachable_sources_fresh file script now fs g evs :
  sources_fresh (run evs (init file script now fs g)).
Proof.
  generalize (init_sources_fresh file script now fs g).
  generalize (init file script now fs g).
  induction evs as [|ev evs IH]; intros st Hst; [done|].
  apply IH. eapply loop_grows_fresh; [apply loop_grows_handle|done].
Qed.

(** ** PLAY-RANDOM patterns *)

Example expand_play_random_scan :
  (expand_play_random
     "clip_[1..3].mp4 [1.5] [1 .. 5] [1...5] [a..b] [[2..3] [7..4]" []).1
  = "clip_1.mp4 1 1 [1...5] [a..b] [2 4".
Proof. vm_compute. reflexivity. Qed.

Lemma expand_play_random_clip (r : Z) (g : list Z) :
  expand_play_random "clip_[1..3].mp4" (r :: g)
  = ("clip_" +:+ pretty (1 + r mod 3) +:+ ".mp4", g).
Proof. reflexivity. Qed.

(** Whatever the draw, [clip_[1..3].mp4] becomes one of the three clips. *)
Lemma expand_play_random_clip_range (r : Z) (g : list Z) :
  (expand_play_random "clip_[1..3].mp4" (r :: g)).1
  ∈ ["clip_1.mp4"; "clip_2.mp4"; "clip_3.mp4"].
Proof.
  rewrite expand_play_random_clip. cbn [fst].
  pose proof (Z.mod_pos_bound r 3 ltac:(lia)) as Hr.
  assert (r mod 3 = 0 ∨ r mod 3 = 1 ∨ r mod 3 = 2) as Hcases by lia.
  destruct Hcases as [Hm|[Hm|Hm]]; rewrite Hm; vm_compute; repeat constructor.
Qed.

(** ** One timer handle for all chains *)

(** [_step_timer_source] belongs to the player, not to an invocation:
    when ACT_STRETCH is started again while its first chain waits, the
    WAIT step of the second chain removes the timer of the first, whose
    continuation is then held by no source. *)
Example second_wait_cancels_first :
  let st1 := handle EvIdle stretching_player in
  let st2 := handle EvIdle (run_action "ACT_STRETCH" st1) in
  _step_timer_source st1 = Some 4%nat ∧
  map source_id (timeout_sources st1) = [2; 4]%nat ∧
  map source_id (timeout_sources st2) = [2; 6]%nat ∧
  _step_timer_source st2 = Some 6%nat.
Proof. vm_compute. done. Qed.

(** * Further properties of the code *)

(** ** Expanded time fields *)

Lemma range_lookup_lt start stop step (i j : nat) x y :
  0 < step →
  Py.range start stop step !! i = Some x →
  Py.range start stop step !! j = Some y →
  (i < j)%nat → x < y.
Proof.
  intros Hstep Hx%range_lookup Hy%range_lookup Hij. subst. nia.
Qed.

Lemma range_nonempty stop step :
  0 < step → 0 < stop → Py.range 0 stop step ≠ [].
Proof.
  intros Hstep Hstop Hnil.
  assert (0 ∈ Py.range 0 stop step) as Hin.
  { apply elem_of_range_0; [done|]. split; [lia|]. apply Z.divide_0_r. }
  rewrite Hnil in Hin. by apply elem_of_nil in Hin.
Qed.

Lemma parse_time_field_nonempty value max_value l :
  0 <= max_value → _parse_time_field value max_value = Ok l → l ≠ [].
Proof.
  intros Hmax. unfold _parse_time_field. intros Hok.
  repeat case_match; simplify_eq; try done; apply range_nonempty; lia.
Qed.

Lemma parse_time_field_increasing value max_value l (i j : nat) x y :
  _parse_time_field value max_value = Ok l →
  l !! i = Some x → l !! j = Some y → (i < j)%nat → x < y.
Proof.
  unfold _parse_time_field. intros Hok.
  repeat case_match; simplify_eq.
  - intros Hx Hy Hij. destruct i, j; cbn in *; simplify_eq; lia.
  - apply range_lookup_lt. lia.
  - apply range_lookup_lt. lia.
  - intros Hx Hy Hij. destruct i, j; cbn in *; simplify_eq; lia.
Qed.

(** X1. For a bound [max_value >= 0], a field that [_parse_time_field]
    accepts expands to a list that is never empty, lies in
    [0..max_value] and is strictly increasing. *)
Theorem parse_time_field_ordered (value : string) (max_value : Z) (l : list Z) :
  0 <= max_value →
  _parse_time_field value max_value = Ok l →
  l ≠ [] ∧
  (∀ x, x ∈ l → 0 <= x <= max_value) ∧
  (∀ (i j : nat) x y, l !! i = Some x → l !! j = Some y → (i < j)%nat → x < y).
Proof.
  intros Hmax Hok.
  destruct (parse_time_field_sound _ _ _ Hmax Hok) as [_ Hrange].
  split; [|split; [exact Hrange|]].
  - by eapply parse_time_field_nonempty.
  - intros i j x y. by eapply parse_time_field_increasing.
Qed.

Lemma parse_time_field_ordered_witness :
  [0; 15; 30; 45] ≠ [] ∧
  (∀ x, x ∈ [0; 15; 30; 45] → 0 <= x <= 59) ∧
  (∀ (i j : nat) x y, [0; 15; 30; 45] !! i = Some x →
     [0; 15; 30; 45] !! j = Some y → (i < j)%nat → x < y).
Proof.
  apply (parse_time_field_ordered " */15 " 59 [0; 15; 30; 45]);
    [lia|reflexivity].
Defined.

(** ** The loader, row by row *)




(** ** The weekday index of the loader *)

Lemma by_wd_fold_lookup (e : ScheduleEntry) (fl : list Z)
  (acc : gmap nat (list ScheduleEntry)) (wd : nat) :
  foldl (fun acc wf =>
           if truthy wf.2 then <[wf.1 := default [] (acc !! wf.1) ++ [e]]> acc
           else acc)
        acc (imap (fun wd f => (wd, f)) fl) !! wd
  = match fl !! wd with
    | Some f => if truthy f then Some (default [] (acc !! wd) ++ [e])
                else acc !! wd
    | None => acc !! wd
    end.
Proof.
  induction fl as [|f fl IH] using rev_ind; [done|].
  rewrite imap_app, foldl_app. cbn. rewrite Nat.add_0_r.
  destruct (decide (wd = length fl)) as [->|Hne].
  - rewrite lookup_app_r, Nat.sub_diag by lia. cbn.
    rewrite (lookup_ge_None_2 fl (length fl)) in IH by lia.
    destruct (truthy f); [|done].
    by rewrite lookup_insert_eq, IH.
  - assert (foldl (fun acc wf =>
              if truthy wf.2 then <[wf.1 := default [] (acc !! wf.1) ++ [e]]> acc
              else acc) acc (imap (fun wd f => (wd, f)) fl) !! wd
            = match (fl ++ [f]) !! wd with
              | Some f => if truthy f then Some (default [] (acc !! wd) ++ [e])
                          else acc !! wd
              | None => acc !! wd
              end) as Hwd.
    { rewrite IH. destruct (decide (wd < length fl)%nat).
      - by rewrite lookup_app_l by lia.
      - rewrite !lookup_ge_None_2; [done| |lia].
        rewrite length_app. cbn. lia. }
    destruct (truthy f); [|done].
    by rewrite lookup_insert_ne.
Qed.

Lemma by_wd_add_lookup e acc (wd : nat) :
  by_wd_add e acc !! wd
  = if flag_set e (Z.of_nat wd) then Some (default [] (acc !! wd) ++ [e])
    else acc !! wd.
Proof.
  unfold by_wd_add. rewrite by_wd_fold_lookup.
  unfold flag_set. rewrite Nat2Z.id.
  destruct (flags e !! wd); [|done]. by destruct (truthy _).
Qed.

Lemma by_wd_entries_lookup es acc (wd : nat) l0 :
  acc !! wd = Some l0 →
  foldl (fun acc e => by_wd_add e acc) acc es !! wd
  = Some (l0 ++ filter (fun e => flag_set e (Z.of_nat wd) = true) es).
Proof.
  revert acc l0. induction es as [|e es IH]; intros acc l0 Hacc; cbn [foldl].
  - by rewrite filter_nil, app_nil_r.
  - rewrite filter_cons. destruct (decide (flag_set e (Z.of_nat wd) = true)) as [Hf|Hf].
    + erewrite IH; [|rewrite by_wd_add_lookup, Hf, Hacc; reflexivity].
      cbn. by rewrite <- app_assoc.
    + apply IH. rewrite by_wd_add_lookup.
      by destruct (flag_set e (Z.of_nat wd)).
Qed.

Lemma by_wd_entries_outside es acc (wd : nat) :
  (7 ≤ wd)%nat → acc !! wd = None →
  foldl (fun acc e => by_wd_add e acc) acc es !! wd = None.
Proof.
  intros Hwd. revert acc.
  induction es as [|e es IH]; intros acc Hacc; cbn [foldl]; [done|].
  apply IH. rewrite by_wd_add_lookup.
  unfold flag_set, flags. rewrite Nat2Z.id.
  by rewrite lookup_ge_None_2 by (cbn; lia).
Qed.

Lemma by_wd_empty_lookup (wd : nat) :
  by_wd_empty !! wd = if decide (wd < 7)%nat then Some [] else None.
Proof.
  do 7 (destruct wd as [|wd]; [done|]).
  rewrite decide_False by lia.
  unfold by_wd_empty. cbn.
  repeat (rewrite lookup_insert_ne by lia). done.
Qed.

(** X3. The second component of [load_schedule] indexes the entries by
    weekday: under weekday [wd] (0 = Monday .. 6 = Sunday) it holds
    exactly the entries whose flag for that day is set, in the order of
    the schedule; it has no other key. *)
Theorem load_schedule_by_weekday (file : option (list (list string))) (wd : nat) :
  (load_schedule file).2 !! wd
  = if decide (wd < 7)%nat
    then Some (filter (fun e => flag_set e (Z.of_nat wd) = true)
                 (load_schedule file).1)
    else None.
Proof.
  assert (∀ es, foldl (fun acc e => by_wd_add e acc) by_wd_empty es !! wd
                = if decide (wd < 7)%nat
                  then Some (filter (fun e => flag_set e (Z.of_nat wd) = true) es)
                  else None) as Hfold.
  { intros es. case_decide as Hwd.
    - rewrite (by_wd_entries_lookup es by_wd_empty wd []); [done|].
      rewrite by_wd_empty_lookup. by rewrite decide_True by done.
    - apply by_wd_entries_outside; [lia|].
      rewrite by_wd_empty_lookup. by rewrite decide_False by lia. }
  destruct file as [[|header rows]|]; cbn [load_schedule fst snd].
  - apply (Hfold []).
  - apply Hfold.
  - apply (Hfold []).
Qed.

(** ** Columns located by the header *)

Lemma header_lookup_snoc header col :
  header_lookup (header ++ [col])
  = <[Py.upper (Py.strip col) := length header]> (header_lookup header).
Proof.
  unfold header_lookup. rewrite imap_app, foldl_app. cbn.
  by rewrite Nat.add_0_r.
Qed.

Lemma header_lookup_Some header k (i : nat) :
  header_lookup header !! k = Some i ↔
  ∃ col, header !! i = Some col ∧ Py.upper (Py.strip col) = k ∧
         ∀ (j : nat) col', header !! j = Some col' →
                   Py.upper (Py.strip col') = k → (j ≤ i)%nat.
Proof.
  revert i. induction header as [|c header IH] using rev_ind; intros i.
  - split; [done|]. by intros (col & ? & _).
  - rewrite header_lookup_snoc.
    destruct (decide (Py.upper (Py.strip c) = k)) as [Hk|Hk].
    + subst k. rewrite lookup_insert_eq. split.
      * intros [= <-]. exists c. split; [by rewrite lookup_app_r, Nat.sub_diag|].
        split; [done|]. intros j col' Hj _.
        apply lookup_lt_Some in Hj. rewrite length_app in Hj. cbn in Hj. lia.
      * intros (col & Hi & _ & Hlast).
        specialize (Hlast (length header) c).
        rewrite lookup_app_r, Nat.sub_diag in Hlast by lia.
        specialize (Hlast eq_refl eq_refl).
        apply lookup_lt_Some in Hi. rewrite length_app in Hi. cbn in Hi.
        f_equal. lia.
    + rewrite lookup_insert_ne by done. rewrite IH. split.
      * intros (col & Hi & Hcol & Hlast). exists col.
        split; [by apply lookup_app_l_Some|]. split; [done|].
        intros j col' Hj Hcol'.
        apply lookup_app_Some in Hj as [Hj|[_ Hj]]; [by eapply Hlast|].
        apply list_lookup_singleton_Some in Hj as [_ <-]. congruence.
      * intros (col & Hi & Hcol & Hlast). exists col.
        apply lookup_app_Some in Hi as [Hi|[_ Hi]].
        -- split; [done|]. split; [done|]. intros j col' Hj.
           apply Hlast. by apply lookup_app_l_Some.
        -- apply list_lookup_singleton_Some in Hi as [_ <-]. congruence.
Qed.

Lemma header_lookup_None header k :
  header_lookup header !! k = None ↔
  ∀ col, col ∈ header → Py.upper (Py.strip col) ≠ k.
Proof.
  induction header as [|c header IH] using rev_ind.
  - split; [|done]. intros _ col Hin. by apply elem_of_nil in Hin.
  - rewrite header_lookup_snoc. split.
    + intros Hnone col Hin.
      apply lookup_insert_None in Hnone as [Hnone Hne].
      apply elem_of_app in Hin as [Hin|Hin].
      * by apply IH.
      * apply list_elem_of_singleton in Hin. by subst.
    + intros Hall. apply lookup_insert_None. split.
      * apply IH. intros col Hin. apply Hall, elem_of_app. by left.
      * apply Hall, elem_of_app. right. by apply list_elem_of_singleton.
Qed.

(** X4. [load_schedule] finds the hour and minute columns by the header:
    a column whose name, stripped and upper-cased, is [HH] (resp. [MM]);
    when several columns carry the name the last one is used, and when
    none does the loader falls back on column 7 (resp. 8). *)
Theorem header_columns (header : list string) :
  (∀ (i : nat) col, header !! i = Some col → Py.upper (Py.strip col) = "HH" →
     (∀ (j : nat) col', header !! j = Some col' →
                Py.upper (Py.strip col') = "HH" → (j ≤ i)%nat) →
     hh_idx header = i) ∧
  ((∀ col, col ∈ header → Py.upper (Py.strip col) ≠ "HH") →
   hh_idx header = 7%nat) ∧
  (∀ (i : nat) col, header !! i = Some col → Py.upper (Py.strip col) = "MM" →
     (∀ (j : nat) col', header !! j = Some col' →
                Py.upper (Py.strip col') = "MM" → (j ≤ i)%nat) →
     mm_idx header = i) ∧
  ((∀ col, col ∈ header → Py.upper (Py.strip col) ≠ "MM") →
   mm_idx header = 8%nat).
Proof.
  unfold hh_idx, mm_idx. split_and!.
  - intros i col Hi Hcol Hlast.
    assert (header_lookup header !! "HH" = Some i) as ->; [|done].
    apply header_lookup_Some. eauto.
  - intros Hnone. by rewrite (proj2 (header_lookup_None header "HH") Hnone).
  - intros i col Hi Hcol Hlast.
    assert (header_lookup header !! "MM" = Some i) as ->; [|done].
    apply header_lookup_Some. eauto.
  - intros Hnone. by rewrite (proj2 (header_lookup_None header "MM") Hnone).
Qed.

Example header_columns_moved :
  let header := ["mon"; "tue"; "wed"; "thu"; "fri"; "sat"; "sun"; " mm ";
                 "Hh"; "rnd"; "dur"; "text"; "action"; "data"; "HH"] in
  hh_idx header = 14%nat ∧ mm_idx header = 7%nat ∧
  hh_idx ["a"; "b"] = 7%nat ∧ mm_idx ["a"; "b"] = 8%nat.
Proof. vm_compute. done. Qed.

(** ** The scheduler never fails on a loaded schedule *)







Lemma run_snoc evs ev st : run (evs ++ [ev]) st = handle ev (run evs st).
Proof. unfold run. by rewrite foldl_app. Qed.



Example tick_raises_on_hour_24 :
  let e := mkEntry 1 1 1 1 1 1 1 24 0 0 0 "" "" "" "24" "0" in
  tick (monday_at 8 30 0) (set_schedule [e] demo_player)
  = Raised ValueError (emit ClockRefresh (set_schedule [e] demo_player)).
Proof. vm_compute. done. Qed.

(** ** The scheduler check of the sibling player *)



(** ** Forced seeding *)

Lemma seed_forced_offsets st (j : nat) :
  is_Some (_today_offsets (_seed_today_offsets true st) !! j)
  ↔ (j < length (schedule st))%nat.
Proof.
  unfold _seed_today_offsets.
  pose proof (seed_loop_offsets (schedule st) 0
                (set_today_fired ∅ (set_today_offsets ∅ st)) j) as H.
  cbn [schedule set_today_fired set_today_offsets] in *.
  case_decide as Hj.
  - destruct H as (o & -> & _). split; [lia|eauto].
  - cbn in H. rewrite H, lookup_empty. split; [by intros [? ?]|lia].
Qed.

Lemma seed_forced_cover st :
  schedule (_seed_today_offsets true st) = schedule st ∧
  (∀ i : nat, _today_fired (_seed_today_offsets true st) !! i
         = if decide (i < length (schedule st))%nat then Some false else None) ∧
  (∀ i : nat, is_Some (_today_offsets (_seed_today_offsets true st) !! i)
         ↔ (i < length (schedule st))%nat) ∧
  (∀ (i : nat) e o, schedule st !! i = Some e →
     _today_offsets (_seed_today_offsets true st) !! i = Some o →
     0 <= o <= Z.max 0 (random e)).
Proof.
  split; [apply seed_schedule|].
  split; [intros i; apply seed_fired|].
  split; [apply seed_forced_offsets|].
  intros i e o Hi Ho.
  destruct (seed_offsets_seeded true st (or_introl eq_refl) i e) as (o' & Ho' & Hb).
  { by rewrite (proj1 (seed_schedule _ _)). }
  congruence.
Qed.

(** X7. A forced seeding ([_seed_today_offsets(force=True)], as run by
    the R key after a reload and by the first tick of a new day) leaves a
    daily state that covers exactly the rows of the schedule: every index
    below its length has a fired flag that is false and an offset within
    the jitter bound of its entry, and no other index has a flag or an
    offset, so nothing of the previous schedule or day stays behind. The
    tick that finds a new date also records it as [_today_key]. *)
Theorem forced_seed_covers_schedule (st : Player)
  (file : option (list (list string))) (now : datetime) :
  (schedule (_seed_today_offsets true st) = schedule st ∧
   (∀ i : nat, _today_fired (_seed_today_offsets true st) !! i
          = if decide (i < length (schedule st))%nat then Some false
            else None) ∧
   (∀ i : nat, is_Some (_today_offsets (_seed_today_offsets true st) !! i)
          ↔ (i < length (schedule st))%nat) ∧
   (∀ (i : nat) e o, schedule st !! i = Some e →
      _today_offsets (_seed_today_offsets true st) !! i = Some o →
      0 <= o <= Z.max 0 (random e))) ∧
  (schedule (on_key_R file st) = (load_schedule file).1 ∧
   (∀ i : nat, _today_fired (on_key_R file st) !! i
          = if decide (i < length (load_schedule file).1)%nat then Some false
            else None) ∧
   (∀ i : nat, is_Some (_today_offsets (on_key_R file st) !! i)
          ↔ (i < length (load_schedule file).1)%nat) ∧
   (∀ (i : nat) e o, (load_schedule file).1 !! i = Some e →
      _today_offsets (on_key_R file st) !! i = Some o →
      0 <= o <= Z.max 0 (random e))) ∧
  _today_key (state_of (tick now st)) = date now ∧
  (date now ≠ _today_key st →
   ∀ i : nat, (length (schedule st) ≤ i)%nat →
     _today_fired (state_of (tick now st)) !! i = None ∧
     _today_offsets (state_of (tick now st)) !! i = None).
Proof.
  split; [apply seed_forced_cover|].
  split; [apply (seed_forced_cover (set_schedule (load_schedule file).1 st))|].
  - unfold tick, _check_and_fire_scheduled.
    set (st1 := if decide (date now ≠ _today_key (emit ClockRefresh st))
                then _seed_today_offsets true
                       (set_today_key (date now)
                          (print LogNewDay (emit ClockRefresh st)))
                else emit ClockRefresh st).
    assert (_today_key st1 = date now ∧ schedule st1 = schedule st ∧
            (date now ≠ _today_key st →
             ∀ i : nat, (length (schedule st) ≤ i)%nat →
               _today_fired st1 !! i = None ∧ _today_offsets st1 !! i = None))
      as (Hk & Hs & Hout).
    { unfold st1. case_decide as Hd.
      - split; [by rewrite (proj2 (seed_schedule _ _))|].
        split; [by rewrite (proj1 (seed_schedule _ _))|].
        intros _ i Hi. split.
        + rewrite seed_fired. cbn. by rewrite decide_False by lia.
        + apply eq_None_not_Some. rewrite seed_forced_offsets. cbn. lia.
      - cbn in Hd. split; [by destruct (decide (date now = _today_key st)) as [->|]|].
        split; [done|]. intros Hne. by destruct Hd. }
    clearbody st1. cbn zeta.
    set (st2 := if decide (dt_hour now ≠ last_seen_hour st1)
                then enqueue_hour_video (dt_hour now)
                       (set_last_seen_hour (dt_hour now)
                          (print LogChangeOfHour st1))
                else st1).
    assert (sched_view st2 = sched_view st1) as H2.
    { unfold st2. case_decide; [|done].
      by rewrite sched_view_enqueue_hour_video. }
    clearbody st2.
    destruct (sched_view_fields _ _ H2) as (Hs2 & _ & Hk2 & Ho2 & Hf2 & _).
    split.
    + destruct (check_loop_mono now (weekday now) (schedule st2) 0 st2)
        as (_ & -> & _). congruence.
    + intros Hne i Hi. destruct (Hout Hne i Hi) as [Hfi Hoi].
      assert (∀ es idx s, (idx + length es ≤ i)%nat →
                _today_fired (state_of (check_loop now (weekday now) idx es s)) !! i
                = _today_fired s !! i) as Hkeep.
      { clear. induction es as [|e es IH]; intros idx s Hle; [done|].
        cbn [check_loop length] in *.
        pose proof (check_entry_view now (weekday now) idx e s) as Hv.
        destruct (check_entry now (weekday now) idx e s) as [s'|x s'];
          cbn [state_of] in *.
        - rewrite IH by lia.
          destruct Hv as [Hv|[_ Hv]];
            destruct (sched_view_fields _ _ Hv) as (_ & _ & _ & _ & -> & _);
            [done|].
          cbn. apply lookup_insert_ne. lia.
        - destruct Hv as [Hv|[_ Hv]];
            destruct (sched_view_fields _ _ Hv) as (_ & _ & _ & _ & -> & _);
            [done|].
          cbn. apply lookup_insert_ne. lia. }
      split.
      * rewrite Hkeep by (cbn; rewrite Hs2, Hs; lia). congruence.
      * destruct (check_loop_mono now (weekday now) (schedule st2) 0 st2)
          as (_ & _ & -> & _). congruence.
Qed.

(** ** What reaches the pipeline *)

Lemma plays_existing_refl st : plays_existing st st.
Proof.
  split; [done|]. split; [done|]. exists []. by rewrite app_nil_r.
Qed.

Lemma plays_existing_trans st1 st2 st3 :
  plays_existing st1 st2 → plays_existing st2 st3 → plays_existing st1 st3.
Proof.
  intros (Hf1 & Hq1 & l1 & Ht1 & Hl1) (Hf2 & Hq2 & l2 & Ht2 & Hl2).
  split; [congruence|]. split; [tauto|].
  exists (l1 ++ l2). split; [by rewrite Ht2, Ht1, app_assoc|].
  rewrite handed_app. apply Forall_app. split; [done|].
  eapply Forall_impl; [exact Hl2|]. intros path Hp. cbn beta in *.
  by rewrite <- (missing_files path st1 st2 Hf1).
Qed.

(** A step that leaves the queue and the files alone and hands nothing
    to the pipeline. *)
Lemma plays_existing_quiet st st' l :
  queue_view st' = queue_view st → files st' = files st →
  trace st' = trace st ++ l → handed l = [] → plays_existing st st'.
Proof.
  intros [= Hq Hp] Hf Ht Hl. split; [done|]. split.
  - unfold idle_queue_empty. by rewrite Hq, Hp.
  - exists l. split; [done|]. rewrite Hl. constructor.
Qed.

Lemma plays_existing_same st st' :
  queue_view st' = queue_view st → files st' = files st →
  trace st' = trace st → plays_existing st st'.
Proof.
  intros Hq Hf Ht. apply (plays_existing_quiet st st' []); [done..| |done].
  by rewrite app_nil_r.
Qed.

Lemma plays_existing_print msg st : plays_existing st (print msg st).
Proof. by apply (plays_existing_quiet _ _ [Print msg]). Qed.

Lemma plays_existing_idle_add cb st : plays_existing st (idle_add cb st).
Proof. by apply plays_existing_same. Qed.

Lemma plays_existing_show_toast message seconds st :
  plays_existing st (show_toast message seconds st).
Proof.
  unfold show_toast. case_decide; [apply plays_existing_refl|].
  apply (plays_existing_quiet _ _ [ToastShow message]); [..|done];
    cbn; by repeat case_match.
Qed.

Lemma plays_existing_start_playback path st :
  missing path st = false → plays_existing st (start_playback path st).
Proof.
  intros Hp. split; [done|]. split; [by intros _ [=]|].
  eexists. split.
  - unfold start_playback, print, emit. cbn.
    rewrite <- !app_assoc. reflexivity.
  - cbn. by repeat constructor.
Qed.

Lemma plays_existing_try_play_next_from q st :
  play_queue st = q → plays_existing st (try_play_next_from q st).
Proof.
  intros Hq.
  destruct (try_play_next_from_spec q st) as (l & Ht & Hf & Hnext).
  split; [done|].
  destruct (next_existing (files st) q) as [[path rest]|] eqn:Hne.
  - destruct Hnext as [[= Hq' Hp'] Hl].
    split; [intros _ Hidle; congruence|].
    exists l. split; [done|]. rewrite Hl. repeat constructor.
    by apply next_existing_exists in Hne.
  - destruct Hnext as [[= Hq' Hp'] Hl]. split; [by intros _ _|].
    exists l. split; [done|]. rewrite Hl. constructor.
Qed.

Lemma idle_queue_empty_try_play_next_from q st :
  idle_queue_empty (try_play_next_from q st).
Proof.
  destruct (try_play_next_from_spec q st) as (l & _ & _ & Hnext).
  destruct (next_existing (files st) q) as [[path rest]|];
    destruct Hnext as [[= Hq' Hp'] _]; intros Hidle; congruence.
Qed.

Lemma plays_existing_try_play_next_in_queue st :
  plays_existing st (try_play_next_in_queue st).
Proof. by apply plays_existing_try_play_next_from. Qed.

Lemma plays_existing_play_file path st : plays_existing st (play_file path st).
Proof.
  unfold play_file. case_match.
  - eapply plays_existing_trans; [apply plays_existing_print|].
    apply plays_existing_try_play_next_in_queue.
  - by apply plays_existing_start_playback.
Qed.

Lemma plays_existing_enqueue_file path st :
  plays_existing st (enqueue_file path st).
Proof.
  unfold enqueue_file. case_match; [apply plays_existing_print|].
  destruct (_playing st) eqn:Hp; cbn [negb].
  - split; [done|]. split; [intros _ Hidle; cbn in Hidle; congruence|].
    eexists. split; [reflexivity|]. constructor.
  - apply plays_existing_play_file.
Qed.

Lemma plays_existing_enqueue_hour_video hour st :
  plays_existing st (enqueue_hour_video hour st).
Proof.
  unfold enqueue_hour_video. case_decide; [apply plays_existing_refl|].
  case_match; [apply plays_existing_print|].
  eapply plays_existing_trans; [apply plays_existing_enqueue_file|].
  by apply plays_existing_same.
Qed.

Lemma plays_existing_on_eos st : plays_existing st (on_eos st).
Proof.
  unfold on_eos, try_play_next_in_queue. cbn [play_queue set_playing].
  destruct (plays_existing_try_play_next_from (play_queue st)
              (set_playing false st) eq_refl) as (Hf & _ & l & Ht & Hl).
  split; [done|]. split; [intros _; apply idle_queue_empty_try_play_next_from|].
  by exists l.
Qed.

Lemma plays_existing_on_error st : plays_existing st (on_error st).
Proof.
  unfold on_error, try_play_next_in_queue.
  cbn [play_queue set_playing print emit set_trace].
  match goal with
  | |- plays_existing _ (try_play_next_from ?q ?s) =>
      destruct (plays_existing_try_play_next_from q s eq_refl)
        as (Hf & _ & l & Ht & Hl)
  end.
  split; [done|]. split; [intros _; apply idle_queue_empty_try_play_next_from|].
  exists (Print LogGstError :: l). split; [|done].
  rewrite Ht. cbn. by rewrite <- app_assoc.
Qed.

Lemma plays_existing_run_steps_chain steps idx st :
  plays_existing st (_run_steps_chain steps idx st).
Proof.
  unfold _run_steps_chain.
  destruct (steps !! idx) as [[op val|]|].
  - repeat case_decide.
    + eapply plays_existing_trans; [apply plays_existing_enqueue_file|].
      apply plays_existing_idle_add.
    + destruct (expand_play_random val (rng st)) as [path g].
      eapply plays_existing_trans; [|apply plays_existing_idle_add].
      eapply plays_existing_trans; [|apply plays_existing_enqueue_file].
      by apply plays_existing_same.
    + unfold _cancel_step_timer, timeout_add_seconds, source_remove.
      apply (plays_existing_quiet _ _ [Print (LogWaiting (wait_minutes val))]);
        [..|done]; cbn; by repeat case_match.
    + eapply plays_existing_trans; [apply plays_existing_show_toast|].
      apply plays_existing_idle_add.
    + eapply plays_existing_trans; [apply plays_existing_print|].
      apply plays_existing_idle_add.
  - eapply plays_existing_trans; [apply plays_existing_print|].
    apply plays_existing_idle_add.
  - by apply (plays_existing_quiet _ _
                [Print (LogFinished (_current_action_name st))]).
Qed.

Lemma plays_existing_run_action name st : plays_existing st (run_action name st).
Proof.
  unfold run_action.
  destruct (actions_script st !! name) as [[|s steps]|];
    [apply plays_existing_print| |apply plays_existing_print].
  eapply plays_existing_trans; [|apply plays_existing_run_steps_chain].
  destruct (_action_running st).
  - apply (plays_existing_quiet _ _
             [Print (LogAlreadyRunning (_current_action_name st));
              Print (LogStarting name)]); [done..| |done].
    cbn. by rewrite <- app_assoc.
  - by apply (plays_existing_quiet _ _ [Print (LogStarting name)]).
Qed.

Lemma plays_existing_play_manual_action_once name now st :
  plays_existing st (_play_manual_action_once name now st).
Proof.
  unfold _play_manual_action_once.
  repeat case_match; try apply plays_existing_print;
    (eapply plays_existing_trans; [|apply plays_existing_run_action]);
    by apply plays_existing_same.
Qed.

Lemma plays_existing_seed force st :
  plays_existing st (_seed_today_offsets force st).
Proof.
  unfold _seed_today_offsets.
  match goal with
  | |- plays_existing _ (seed_loop ?i ?es ?s) =>
      destruct (seed_loop_shape es i s) as (o & f & g & ->)
  end.
  apply plays_existing_same; by destruct force.
Qed.

Lemma plays_existing_fire_entry now_no_ms fire_dt idx e st :
  plays_existing st (fire_entry now_no_ms fire_dt idx e st).
Proof.
  unfold fire_entry.
  set (st1 := set_today_fired _ (print _ st)).
  assert (plays_existing st st1) as H1.
  { by apply (plays_existing_quiet _ _ [Print (LogFireEq now_no_ms fire_dt)]). }
  clearbody st1.
  set (st2 := if decide (text e = "") then st1 else _).
  assert (plays_existing st1 st2) as H2.
  { unfold st2. case_decide; [apply plays_existing_refl|].
    eapply plays_existing_trans; [apply plays_existing_print|].
    apply plays_existing_show_toast. }
  clearbody st2.
  eapply plays_existing_trans; [exact H1|].
  eapply plays_existing_trans; [exact H2|].
  case_decide; [apply plays_existing_refl|].
  eapply plays_existing_trans; [apply plays_existing_print|].
  apply plays_existing_run_action.
Qed.

Lemma plays_existing_check_entry now wd idx e st :
  plays_existing st (state_of (check_entry now wd idx e st)).
Proof.
  unfold check_entry.
  repeat case_match; cbn [state_of]; try apply plays_existing_refl.
  apply plays_existing_fire_entry.
Qed.

Lemma plays_existing_check_loop now wd es idx st :
  plays_existing st (state_of (check_loop now wd idx es st)).
Proof.
  revert idx st. induction es as [|e es IH]; intros idx st; cbn [check_loop].
  - apply plays_existing_refl.
  - pose proof (plays_existing_check_entry now wd idx e st) as He.
    destruct (check_entry now wd idx e st) as [st'|x st']; cbn [state_of] in *.
    + eapply plays_existing_trans; [exact He|apply IH].
    + done.
Qed.

Lemma plays_existing_tick now st : plays_existing st (state_of (tick now st)).
Proof.
  unfold tick, _check_and_fire_scheduled.
  set (st1 := if decide (date now ≠ _today_key (emit ClockRefresh st))
              then _seed_today_offsets true
                     (set_today_key (date now)
                        (print LogNewDay (emit ClockRefresh st)))
              else emit ClockRefresh st).
  assert (plays_existing st st1) as H1.
  { unfold st1. case_decide.
    - eapply plays_existing_trans; [|apply plays_existing_seed].
      apply (plays_existing_quiet _ _ [ClockRefresh; Print LogNewDay]);
        [done..| |done].
      cbn. by rewrite <- app_assoc.
    - by apply (plays_existing_quiet _ _ [ClockRefresh]). }
  clearbody st1. cbn zeta.
  set (st2 := if decide (dt_hour now ≠ last_seen_hour st1)
              then enqueue_hour_video (dt_hour now)
                     (set_last_seen_hour (dt_hour now)
                        (print LogChangeOfHour st1))
              else st1).
  assert (plays_existing st1 st2) as H2.
  { unfold st2. case_decide; [|apply plays_existing_refl].
    eapply plays_existing_trans; [|apply plays_existing_enqueue_hour_video].
    by apply (plays_existing_quiet _ _ [Print LogChangeOfHour]). }
  clearbody st2.
  eapply plays_existing_trans; [exact H1|].
  eapply plays_existing_trans; [exact H2|].
  apply plays_existing_check_loop.
Qed.

Lemma plays_existing_run_callback cb st :
  plays_existing st (run_callback cb st).
Proof.
  destruct cb as [steps idx|steps idx| |hour]; cbn [run_callback].
  - apply plays_existing_run_steps_chain.
  - unfold _after_wait_continue.
    eapply plays_existing_trans; [|apply plays_existing_run_steps_chain].
    by apply plays_existing_same.
  - by apply (plays_existing_quiet _ _ [ToastHide]).
  - apply plays_existing_enqueue_hour_video.
Qed.

Lemma plays_existing_handle ev st :
  (∀ fs, ev ≠ EvFiles fs) → plays_existing st (handle ev st).
Proof.
  intros Hev.
  destruct ev as [now| | |file|name now| |id|fs]; cbn [handle].
  - apply plays_existing_tick.
  - apply plays_existing_on_eos.
  - apply plays_existing_on_error.
  - unfold on_key_R.
    eapply plays_existing_trans; [|apply plays_existing_seed].
    by apply plays_existing_same.
  - apply plays_existing_play_manual_action_once.
  - destruct (idle_sources st) as [|cb rest]; [apply plays_existing_refl|].
    eapply plays_existing_trans; [|apply plays_existing_run_callback].
    by apply plays_existing_same.
  - destruct (list_find _ _) as [[? t]|]; [|apply plays_existing_refl].
    eapply plays_existing_trans; [|apply plays_existing_run_callback].
    by apply plays_existing_same.
  - by destruct (Hev fs).
Qed.

Lemma plays_existing_enqueue_startup_sequence now st :
  plays_existing st (enqueue_startup_sequence now st).
Proof.
  unfold enqueue_startup_sequence. cbn zeta.
  set (st1 := if bool_decide _ then enqueue_file _ st else st).
  assert (plays_existing st st1) as H1.
  { unfold st1. case_match;
      [apply plays_existing_enqueue_file|apply plays_existing_refl]. }
  clearbody st1.
  eapply plays_existing_trans; [exact H1|].
  case_match; [apply plays_existing_enqueue_file|apply plays_existing_refl].
Qed.

Lemma idle_queue_empty_handle ev st :
  idle_queue_empty st → idle_queue_empty (handle ev st).
Proof.
  intros Hst.
  destruct ev as [now| | |file|name now| |id|fs];
    try (by apply (plays_existing_handle _ st)).
  exact Hst.
Qed.

Lemma idle_queue_empty_init file script now fs g :
  idle_queue_empty (init file script now fs g).
Proof.
  unfold init. cbn zeta.
  match goal with
  | |- idle_queue_empty (enqueue_startup_sequence _ ?s) =>
      apply (plays_existing_enqueue_startup_sequence now s)
  end.
  match goal with
  | |- idle_queue_empty (emit ?e ?s) =>
      apply (plays_existing_quiet s (emit e s) [e]); [done..|]
  end.
  match goal with
  | |- idle_queue_empty (emit ?e ?s) =>
      apply (plays_existing_quiet s (emit e s) [e]); [done..|]
  end.
  match goal with
  | |- idle_queue_empty (idle_add ?cb ?s) => apply (plays_existing_idle_add cb s)
  end.
  match goal with
  | |- idle_queue_empty (_seed_today_offsets ?f ?s) =>
      apply (plays_existing_seed f s)
  end.
  by intros _.
Qed.

(** X8. A queued video never waits while nothing plays: in every state
    the player reaches from start-up, under any events, either a video is
    playing or the playback queue is empty. *)
Theorem queue_never_stalls (file : option (list (list string)))
  (script : gmap string (list step)) (now : datetime) (fs : gset string)
  (g : list Z) (evs : list event) :
  _playing (run evs (init file script now fs g)) = true ∨
  play_queue (run evs (init file script now fs g)) = [].
Proof.
  assert (idle_queue_empty (run evs (init file script now fs g))) as Hidle.
  { induction evs as [|ev evs IH] using rev_ind.
    - apply idle_queue_empty_init.
    - rewrite run_snoc. by apply idle_queue_empty_handle. }
  destruct (_playing (run evs (init file script now fs g))) eqn:Hp;
    [by left|right; by apply Hidle].
Qed.

(** X9. Whatever event the main loop delivers in whatever state, every
    path the handler hands to the pipeline is a non-empty path of a file
    that exists at that moment: missing files are skipped by every route
    (scheduled and manual actions, the hour video, end of stream, errors,
    idle and timer callbacks). *)
Theorem only_existing_files_played (ev : event) (st : Player) (path : string) :
  path ∈ handed (new_effects st (handle ev st)) →
  path ≠ "" ∧ path ∈ files st.
Proof.
  intros Hin.
  assert (missing path st = false) as Hm.
  { assert ((∃ fs, ev = EvFiles fs) ∨ ∀ fs, ev ≠ EvFiles fs) as [[fs ->]|Hne]
      by (destruct ev; eauto).
    - cbn in Hin. unfold new_effects in Hin. cbn in Hin.
      rewrite drop_all in Hin. by apply elem_of_nil in Hin.
    - destruct (plays_existing_handle ev st Hne) as (_ & _ & l & Ht & Hl).
      rewrite (new_effects_app _ _ _ Ht) in Hin.
      by apply (proj1 (Forall_forall _ _) Hl). }
  unfold missing in Hm. apply orb_false_iff in Hm as [H1 H2].
  apply bool_decide_eq_false in H1. apply negb_false_iff in H2.
  by apply bool_decide_eq_true in H2.
Qed.

Lemma only_existing_files_played_witness :
  "/videos/b.mp4" ≠ "" ∧ "/videos/b.mp4" ∈ files busy_player.
Proof.
  apply (only_existing_files_played EvEos busy_player "/videos/b.mp4").
  vm_compute. apply list_elem_of_here.
Defined.

(** ** End of stream with missing files in the queue *)

Lemma try_play_next_from_set_play_queue q x st :
  try_play_next_from q (set_play_queue x st) = try_play_next_from q st.
Proof. by destruct q. Qed.

Lemma try_play_next_from_missing x q st :
  missing x st = true →
  try_play_next_from (x :: q) st
  = try_play_next_from q (print (LogFileNotFound x) st).
Proof.
  intros Hx. cbn [try_play_next_from].
  rewrite (missing_files x st (set_play_queue q st) eq_refl), Hx.
  apply (try_play_next_from_set_play_queue q q (print (LogFileNotFound x) st)).
Qed.

Lemma try_play_next_from_existing x q st :
  missing x st = false →
  try_play_next_from (x :: q) st = start_playback x (set_play_queue q st).
Proof.
  intros Hx. cbn [try_play_next_from].
  by rewrite (missing_files x st (set_play_queue q st) eq_refl), Hx.
Qed.

Lemma start_playback_trace path st :
  trace (start_playback path st)
  = trace st ++ [Print (LogPlaying path); OnPlaybackStarted; ShowVideoLayer;
                 PipeSetState NULL; PipeSetUri path; PipeSetState PLAYING].
Proof. unfold start_playback, print, emit. cbn. by rewrite <- !app_assoc. Qed.

Lemma stop_to_clock_trace st :
  trace (stop_to_clock st)
  = trace st ++ [PipeSetState NULL; ShowClockOnly; OnPlaybackStopped].
Proof. unfold stop_to_clock, emit. cbn. by rewrite <- !app_assoc. Qed.

Lemma log_missing_view skipped st :
  let st' := foldl (fun s x => print (LogFileNotFound x) s) st skipped in
  files st' = files st ∧ _playing st' = _playing st ∧
  trace st' = trace st ++ map (fun x => Print (LogFileNotFound x)) skipped.
Proof.
  revert st. induction skipped as [|x skipped IH]; intros st; cbn.
  - by rewrite app_nil_r.
  - destruct (IH (print (LogFileNotFound x) st)) as (-> & -> & ->).
    cbn. by rewrite <- app_assoc.
Qed.

Lemma try_play_next_from_skip skipped q st :
  Forall (fun x => missing x st = true) skipped →
  try_play_next_from (skipped ++ q) st
  = try_play_next_from q
      (foldl (fun s x => print (LogFileNotFound x) s) st skipped).
Proof.
  intros Hs. revert st Hs.
  induction skipped as [|x skipped IH]; intros st Hs; [done|].
  apply Forall_cons in Hs as [Hx Hs]. cbn [app foldl].
  rewrite try_play_next_from_missing by done. apply IH.
  eapply Forall_impl; [exact Hs|]. intros y Hy. exact Hy.
Qed.

(** X10. When a video ends (or fails) the player goes through the queue
    in order: it reports and drops every queued path that is missing and
    plays the first one that exists, keeping the paths behind it; when no
    queued path exists it reports each of them, empties the queue and
    goes back to the clock. *)
Theorem eos_skips_missing (st : Player) (skipped : list string) :
  Forall (fun x => missing x st = true) skipped →
  (∀ p rest, play_queue st = skipped ++ p :: rest → missing p st = false →
     queue_view (on_eos st) = (rest, true) ∧
     new_effects st (on_eos st)
     = map (fun x => Print (LogFileNotFound x)) skipped
       ++ [Print (LogPlaying p); OnPlaybackStarted; ShowVideoLayer;
           PipeSetState NULL; PipeSetUri p; PipeSetState PLAYING] ∧
     queue_view (on_error st) = (rest, true) ∧
     new_effects st (on_error st)
     = Print LogGstError :: map (fun x => Print (LogFileNotFound x)) skipped
       ++ [Print (LogPlaying p); OnPlaybackStarted; ShowVideoLayer;
           PipeSetState NULL; PipeSetUri p; PipeSetState PLAYING]) ∧
  (play_queue st = skipped →
     queue_view (on_eos st) = ([], false) ∧
     new_effects st (on_eos st)
     = map (fun x => Print (LogFileNotFound x)) skipped
       ++ [PipeSetState NULL; ShowClockOnly; OnPlaybackStopped] ∧
     queue_view (on_error st) = ([], false) ∧
     new_effects st (on_error st)
     = Print LogGstError :: map (fun x => Print (LogFileNotFound x)) skipped
       ++ [PipeSetState NULL; ShowClockOnly; OnPlaybackStopped]).
Proof.
  intros Hs.
  assert (∀ pre st0, files st0 = files st → trace st0 = trace st ++ pre →
            (∀ p rest, play_queue st0 = skipped ++ p :: rest →
               missing p st = false →
               queue_view (try_play_next_in_queue st0) = (rest, true) ∧
               new_effects st (try_play_next_in_queue st0)
               = pre ++ map (fun x => Print (LogFileNotFound x)) skipped
                 ++ [Print (LogPlaying p); OnPlaybackStarted; ShowVideoLayer;
                     PipeSetState NULL; PipeSetUri p; PipeSetState PLAYING]) ∧
            (play_queue st0 = skipped →
               queue_view (try_play_next_in_queue st0) = ([], false) ∧
               new_effects st (try_play_next_in_queue st0)
               = pre ++ map (fun x => Print (LogFileNotFound x)) skipped
                 ++ [PipeSetState NULL; ShowClockOnly; OnPlaybackStopped]))
    as Hgen.
  { intros pre st0 Hf Ht.
    assert (Forall (fun x => missing x st0 = true) skipped) as Hs0.
    { eapply Forall_impl; [exact Hs|]. intros x Hx.
      by rewrite (missing_files x st st0 Hf). }
    unfold try_play_next_in_queue.
    destruct (log_missing_view skipped st0) as (Hlf & Hlp & Hlt).
    split.
    - intros p rest Hq Hp. rewrite Hq, try_play_next_from_skip by done.
      rewrite try_play_next_from_existing.
      2:{ rewrite <- Hp. apply missing_files. congruence. }
      split; [done|]. apply new_effects_app.
      rewrite start_playback_trace. cbn [trace set_play_queue].
      cbn zeta in Hlt. rewrite Hlt, Ht. by rewrite <- !app_assoc.
    - intros Hq. rewrite Hq.
      pose proof (try_play_next_from_skip skipped [] st0 Hs0) as Hskip.
      rewrite app_nil_r in Hskip. rewrite Hskip.
      split; [done|]. apply new_effects_app.
      cbn [try_play_next_from]. rewrite stop_to_clock_trace.
      cbn [trace set_play_queue set_playing].
      cbn zeta in Hlt. rewrite Hlt, Ht. by rewrite <- !app_assoc. }
  split.
  - intros p rest Hq Hp.
    destruct (Hgen [] (set_playing false st) eq_refl) as [Heos _].
    { by rewrite app_nil_r. }
    destruct (Hgen [Print LogGstError]
                (set_playing false (print LogGstError st)) eq_refl eq_refl)
      as [Herr _].
    destruct (Heos p rest Hq Hp) as [H1 H2].
    destruct (Herr p rest Hq Hp) as [H3 H4].
    done.
  - intros Hq.
    destruct (Hgen [] (set_playing false st) eq_refl) as [_ Heos].
    { by rewrite app_nil_r. }
    destruct (Hgen [Print LogGstError]
                (set_playing false (print LogGstError st)) eq_refl eq_refl)
      as [_ Herr].
    destruct (Heos Hq) as [H1 H2].
    destruct (Herr Hq) as [H3 H4].
    done.
Qed.

Lemma eos_skips_missing_witness :
  let st := handle (EvFiles {["/videos/stretch.mp4"]})
              (enqueue_file "/videos/stretch.mp4" busy_player) in
  (∀ p rest, play_queue st = ["/videos/b.mp4"] ++ p :: rest →
     missing p st = false →
     queue_view (on_eos st) = (rest, true) ∧
     new_effects st (on_eos st)
     = map (fun x => Print (LogFileNotFound x)) ["/videos/b.mp4"]
       ++ [Print (LogPlaying p); OnPlaybackStarted; ShowVideoLayer;
           PipeSetState NULL; PipeSetUri p; PipeSetState PLAYING] ∧
     queue_view (on_error st) = (rest, true) ∧
     new_effects st (on_error st)
     = Print LogGstError
       :: map (fun x => Print (LogFileNotFound x)) ["/videos/b.mp4"]
       ++ [Print (LogPlaying p); OnPlaybackStarted; ShowVideoLayer;
           PipeSetState NULL; PipeSetUri p; PipeSetState PLAYING]) ∧
  (play_queue st = ["/videos/b.mp4"] →
     queue_view (on_eos st) = ([], false) ∧
     new_effects st (on_eos st)
     = map (fun x => Print (LogFileNotFound x)) ["/videos/b.mp4"]
       ++ [PipeSetState NULL; ShowClockOnly; OnPlaybackStopped] ∧
     queue_view (on_error st) = ([], false) ∧
     new_effects st (on_error st)
     = Print LogGstError
       :: map (fun x => Print (LogFileNotFound x)) ["/videos/b.mp4"]
       ++ [PipeSetState NULL; ShowClockOnly; OnPlaybackStopped]).
Proof.
  apply (eos_skips_missing
           (handle (EvFiles {["/videos/stretch.mp4"]})
              (enqueue_file "/videos/stretch.mp4" busy_player))
           ["/videos/b.mp4"]).
  vm_compute. repeat constructor.
Defined.

Example eos_skips_missing_demo :
  let st := handle (EvFiles {["/videos/stretch.mp4"]})
              (enqueue_file "/videos/stretch.mp4" busy_player) in
  play_queue st = ["/videos/b.mp4"; "/videos/stretch.mp4"] ∧
  queue_view (on_eos st) = ([], true) ∧
  handed (new_effects st (on_eos st)) = ["/videos/stretch.mp4"].
Proof. vm_compute. done. Qed.

(** ** Playback is not interrupted *)

Lemma keeps_playing_refl st : keeps_playing st st.
Proof.
  intros Hp. split; [done|]. split; [done|]. exists []. by rewrite app_nil_r.
Qed.

Lemma keeps_playing_trans st1 st2 st3 :
  keeps_playing st1 st2 → keeps_playing st2 st3 → keeps_playing st1 st3.
Proof.
  intros H12 H23 Hp.
  destruct (H12 Hp) as (Hp2 & Hq2 & l2 & Ht2 & Hl2).
  destruct (H23 Hp2) as (Hp3 & Hq3 & l3 & Ht3 & Hl3).
  split; [done|]. split; [by etrans|].
  exists (l2 ++ l3). split; [by rewrite Ht3, Ht2, app_assoc|].
  rewrite forallb_app. by rewrite Hl2, Hl3.
Qed.

Lemma keeps_playing_quiet st st' l :
  queue_view st' = queue_view st → trace st' = trace st ++ l →
  forallb (fun e => negb (playback_effect e)) l = true → keeps_playing st st'.
Proof.
  intros [= Hq Hp] Ht Hl Hplay. split; [congruence|].
  split; [by rewrite Hq|]. by exists l.
Qed.

Lemma keeps_playing_same st st' :
  queue_view st' = queue_view st → trace st' = trace st → keeps_playing st st'.
Proof.
  intros Hq Ht. apply (keeps_playing_quiet st st' []); [done| |done].
  by rewrite app_nil_r.
Qed.

Lemma keeps_playing_print msg st : keeps_playing st (print msg st).
Proof. by apply (keeps_playing_quiet _ _ [Print msg]). Qed.

Lemma keeps_playing_idle_add cb st : keeps_playing st (idle_add cb st).
Proof. by apply keeps_playing_same. Qed.

Lemma keeps_playing_show_toast message seconds st :
  keeps_playing st (show_toast message seconds st).
Proof.
  unfold show_toast. case_decide; [apply keeps_playing_refl|].
  apply (keeps_playing_quiet _ _ [ToastShow message]); [..|done];
    cbn; by repeat case_match.
Qed.

Lemma keeps_playing_enqueue_file path st :
  keeps_playing st (enqueue_file path st).
Proof.
  intros Hp. unfold enqueue_file. rewrite Hp. cbn [negb].
  case_match; [by apply keeps_playing_print|].
  split; [done|]. split; [by apply prefix_app_r|].
  by eexists [_].
Qed.

Lemma keeps_playing_enqueue_hour_video hour st :
  keeps_playing st (enqueue_hour_video hour st).
Proof.
  unfold enqueue_hour_video. case_decide; [apply keeps_playing_refl|].
  case_match; [apply keeps_playing_print|].
  eapply keeps_playing_trans; [apply keeps_playing_enqueue_file|].
  by apply keeps_playing_same.
Qed.

Lemma keeps_playing_run_steps_chain steps idx st :
  keeps_playing st (_run_steps_chain steps idx st).
Proof.
  unfold _run_steps_chain.
  destruct (steps !! idx) as [[op val|]|].
  - repeat case_decide.
    + eapply keeps_playing_trans; [apply keeps_playing_enqueue_file|].
      apply keeps_playing_idle_add.
    + destruct (expand_play_random val (rng st)) as [path g].
      eapply keeps_playing_trans; [|apply keeps_playing_idle_add].
      eapply keeps_playing_trans; [|apply keeps_playing_enqueue_file].
      by apply keeps_playing_same.
    + unfold _cancel_step_timer, timeout_add_seconds, source_remove.
      apply (keeps_playing_quiet _ _ [Print (LogWaiting (wait_minutes val))]);
        [..|done]; cbn; by repeat case_match.
    + eapply keeps_playing_trans; [apply keeps_playing_show_toast|].
      apply keeps_playing_idle_add.
    + eapply keeps_playing_trans; [apply keeps_playing_print|].
      apply keeps_playing_idle_add.
  - eapply keeps_playing_trans; [apply keeps_playing_print|].
    apply keeps_playing_idle_add.
  - by apply (keeps_playing_quiet _ _
                [Print (LogFinished (_current_action_name st))]).
Qed.

Lemma keeps_playing_run_action name st : keeps_playing st (run_action name st).
Proof.
  unfold run_action.
  destruct (actions_script st !! name) as [[|s steps]|];
    [apply keeps_playing_print| |apply keeps_playing_print].
  eapply keeps_playing_trans; [|apply keeps_playing_run_steps_chain].
  destruct (_action_running st).
  - apply (keeps_playing_quiet _ _
             [Print (LogAlreadyRunning (_current_action_name st));
              Print (LogStarting name)]); [done| |done].
    cbn. by rewrite <- app_assoc.
  - by apply (keeps_playing_quiet _ _ [Print (LogStarting name)]).
Qed.

Lemma keeps_playing_play_manual_action_once name now st :
  keeps_playing st (_play_manual_action_once name now st).
Proof.
  unfold _play_manual_action_once.
  repeat case_match; try apply keeps_playing_print;
    (eapply keeps_playing_trans; [|apply keeps_playing_run_action]);
    by apply keeps_playing_same.
Qed.

Lemma keeps_playing_seed force st :
  keeps_playing st (_seed_today_offsets force st).
Proof.
  unfold _seed_today_offsets.
  match goal with
  | |- keeps_playing _ (seed_loop ?i ?es ?s) =>
      destruct (seed_loop_shape es i s) as (o & f & g & ->)
  end.
  apply keeps_playing_same; by destruct force.
Qed.

Lemma keeps_playing_fire_entry now_no_ms fire_dt idx e st :
  keeps_playing st (fire_entry now_no_ms fire_dt idx e st).
Proof.
  unfold fire_entry.
  set (st1 := set_today_fired _ (print _ st)).
  assert (keeps_playing st st1) as H1.
  { by apply (keeps_playing_quiet _ _ [Print (LogFireEq now_no_ms fire_dt)]). }
  clearbody st1.
  set (st2 := if decide (text e = "") then st1 else _).
  assert (keeps_playing st1 st2) as H2.
  { unfold st2. case_decide; [apply keeps_playing_refl|].
    eapply keeps_playing_trans; [apply keeps_playing_print|].
    apply keeps_playing_show_toast. }
  clearbody st2.
  eapply keeps_playing_trans; [exact H1|].
  eapply keeps_playing_trans; [exact H2|].
  case_decide; [apply keeps_playing_refl|].
  eapply keeps_playing_trans; [apply keeps_playing_print|].
  apply keeps_playing_run_action.
Qed.

Lemma keeps_playing_check_entry now wd idx e st :
  keeps_playing st (state_of (check_entry now wd idx e st)).
Proof.
  unfold check_entry.
  repeat case_match; cbn [state_of]; try apply keeps_playing_refl.
  apply keeps_playing_fire_entry.
Qed.

Lemma keeps_playing_check_loop now wd es idx st :
  keeps_playing st (state_of (check_loop now wd idx es st)).
Proof.
  revert idx st. induction es as [|e es IH]; intros idx st; cbn [check_loop].
  - apply keeps_playing_refl.
  - pose proof (keeps_playing_check_entry now wd idx e st) as He.
    destruct (check_entry now wd idx e st) as [st'|x st']; cbn [state_of] in *.
    + eapply keeps_playing_trans; [exact He|apply IH].
    + done.
Qed.

Lemma keeps_playing_tick now st : keeps_playing st (state_of (tick now st)).
Proof.
  unfold tick, _check_and_fire_scheduled.
  set (st1 := if decide (date now ≠ _today_key (emit ClockRefresh st))
              then _seed_today_offsets true
                     (set_today_key (date now)
                        (print LogNewDay (emit ClockRefresh st)))
              else emit ClockRefresh st).
  assert (keeps_playing st st1) as H1.
  { unfold st1. case_decide.
    - eapply keeps_playing_trans; [|apply keeps_playing_seed].
      apply (keeps_playing_quiet _ _ [ClockRefresh; Print LogNewDay]);
        [done| |done].
      cbn. by rewrite <- app_assoc.
    - by apply (keeps_playing_quiet _ _ [ClockRefresh]). }
  clearbody st1. cbn zeta.
  set (st2 := if decide (dt_hour now ≠ last_seen_hour st1)
              then enqueue_hour_video (dt_hour now)
                     (set_last_seen_hour (dt_hour now)
                        (print LogChangeOfHour st1))
              else st1).
  assert (keeps_playing st1 st2) as H2.
  { unfold st2. case_decide; [|apply keeps_playing_refl].
    eapply keeps_playing_trans; [|apply keeps_playing_enqueue_hour_video].
    by apply (keeps_playing_quiet _ _ [Print LogChangeOfHour]). }
  clearbody st2.
  eapply keeps_playing_trans; [exact H1|].
  eapply keeps_playing_trans; [exact H2|].
  apply keeps_playing_check_loop.
Qed.

Lemma keeps_playing_run_callback cb st :
  keeps_playing st (run_callback cb st).
Proof.
  destruct cb as [steps idx|steps idx| |hour]; cbn [run_callback].
  - apply keeps_playing_run_steps_chain.
  - unfold _after_wait_continue.
    eapply keeps_playing_trans; [|apply keeps_playing_run_steps_chain].
    by apply keeps_playing_same.
  - by apply (keeps_playing_quiet _ _ [ToastHide]).
  - apply keeps_playing_enqueue_hour_video.
Qed.

Lemma keeps_playing_handle ev st :
  ev ≠ EvEos → ev ≠ EvError → keeps_playing st (handle ev st).
Proof.
  intros Heos Herr.
  destruct ev as [now| | |file|name now| |id|fs]; cbn [handle]; try done.
  - apply keeps_playing_tick.
  - unfold on_key_R.
    eapply keeps_playing_trans; [|apply keeps_playing_seed].
    by apply keeps_playing_same.
  - apply keeps_playing_play_manual_action_once.
  - destruct (idle_sources st) as [|cb rest]; [apply keeps_playing_refl|].
    eapply keeps_playing_trans; [|apply keeps_playing_run_callback].
    by apply keeps_playing_same.
  - destruct (list_find _ _) as [[? t]|]; [|apply keeps_playing_refl].
    eapply keeps_playing_trans; [|apply keeps_playing_run_callback].
    by apply keeps_playing_same.
  - by apply keeps_playing_same.
Qed.

(** X11. While a video plays, no event other than its end of stream or
    an error of the pipeline interrupts it: whatever a tick, a reload, a
    manual trigger, an idle or timer callback or a change of the files
    does (scheduled actions and the hour video included), the video is
    still playing afterwards, nothing was sent to the pipeline or to the
    layers of the window, and the queue kept its paths in order, new ones
    only being added at its end. *)
Theorem playback_not_interrupted (ev : event) (st : Player) :
  ev ≠ EvEos → ev ≠ EvError → _playing st = true →
  _playing (handle ev st) = true ∧
  play_queue st `prefix_of` play_queue (handle ev st) ∧
  Forall (fun e => playback_effect e = false) (new_effects st (handle ev st)).
Proof.
  intros Heos Herr Hp.
  destruct (keeps_playing_handle ev st Heos Herr Hp) as (Hp' & Hq & l & Ht & Hl).
  split; [done|]. split; [done|].
  rewrite (new_effects_app _ _ _ Ht).
  apply Forall_forall. intros e He.
  rewrite forallb_forall in Hl. apply list_elem_of_In, Hl in He.
  by apply negb_true_iff.
Qed.

Lemma playback_not_interrupted_witness :
  _playing (handle (EvTick (monday_at 9 0 0)) busy_player) = true ∧
  play_queue busy_player
    `prefix_of` play_queue (handle (EvTick (monday_at 9 0 0)) busy_player) ∧
  Forall (fun e => playback_effect e = false)
    (new_effects busy_player (handle (EvTick (monday_at 9 0 0)) busy_player)).
Proof.
  apply (playback_not_interrupted (EvTick (monday_at 9 0 0)) busy_player);
    [discriminate|discriminate|vm_compute; reflexivity].
Defined.

Example scheduled_play_waits_its_turn :
  let st := handle (EvTick (monday_at 9 0 0)) busy_player in
  handed (new_effects busy_player st) = [] ∧
  play_queue st = ["/videos/b.mp4"; "/videos/stretch.mp4"].
Proof. vm_compute. done. Qed.

(** ** Timers of the main loop *)

Lemma timers_ok_view st st' :
  timer_view st' = timer_view st → timers_ok st → timers_ok st'.
Proof.
  intros [= Hl Ht Hs Hn Hi]. unfold timers_ok, sources_fresh.
  by rewrite Hl, Ht, Hs, Hn, Hi.
Qed.

Lemma timer_view_try_play_next_from q st :
  timer_view (try_play_next_from q st) = timer_view st.
Proof.
  revert st. induction q as [|p q IH]; intros st; cbn [try_play_next_from].
  - reflexivity.
  - case_match; [by rewrite IH|reflexivity].
Qed.

Lemma timer_view_enqueue_file path st :
  timer_view (enqueue_file path st) = timer_view st.
Proof.
  unfold enqueue_file, play_file, try_play_next_in_queue.
  repeat case_match; reflexivity.
Qed.

Lemma timer_view_enqueue_hour_video hour st :
  timer_view (enqueue_hour_video hour st) = timer_view st.
Proof.
  unfold enqueue_hour_video. repeat case_match; try reflexivity.
  change (timer_view (set_last_played_hour ?h ?s)) with (timer_view s).
  apply timer_view_enqueue_file.
Qed.

Lemma timer_view_seed force st :
  timer_view (_seed_today_offsets force st) = timer_view st.
Proof.
  unfold _seed_today_offsets.
  match goal with
  | |- timer_view (seed_loop ?i ?es ?s) = _ =>
      destruct (seed_loop_shape es i s) as (o & f & g & ->)
  end.
  by destruct force.
Qed.

Lemma NoDup_map_filter {A B} (f : A → B) (P : A → Prop)
  `{∀ x, Decision (P x)} (l : list A) :
  NoDup (map f l) → NoDup (map f (filter P l)).
Proof.
  induction l as [|x l IH]; [done|]. cbn [map]. intros Hnd.
  apply NoDup_cons in Hnd as [Hx Hnd]. rewrite filter_cons.
  case_decide; [|by apply IH]. cbn [map]. apply NoDup_cons.
  split; [|by apply IH]. intros Hin. apply Hx.
  change (map f) with (fmap (M:=list) f) in *.
  apply list_elem_of_fmap in Hin as (y & -> & Hy).
  apply list_elem_of_filter in Hy as [_ Hy].
  apply list_elem_of_fmap. eauto.
Qed.

Lemma Forall_filter_keep {A} (Q P : A → Prop) `{∀ x, Decision (P x)}
  (l : list A) : Forall Q l → Forall Q (filter P l).
Proof.
  rewrite !Forall_forall. intros Hall x Hx.
  apply list_elem_of_filter in Hx as [_ Hx]. by apply Hall.
Qed.

Lemma timers_ok_source_remove id st :
  timers_ok st → timers_ok (source_remove id st).
Proof.
  intros (Hpos & Hfresh & Hnd & Hkind & Hidle).
  unfold timers_ok, sources_fresh, source_remove. cbn.
  split; [done|]. split; [by apply Forall_filter_keep|].
  split; [by apply NoDup_map_filter|]. split; [|done].
  intros t Ht. apply list_elem_of_filter in Ht as [_ Ht]. by apply Hkind.
Qed.

Lemma timers_ok_idle_add cb st :
  idle_cb cb → timers_ok st → timers_ok (idle_add cb st).
Proof.
  intros Hcb (Hpos & Hfresh & Hnd & Hkind & Hidle).
  unfold timers_ok, sources_fresh, idle_add. cbn.
  split; [lia|]. split.
  { eapply Forall_impl; [exact Hfresh|]. intros t Ht. cbn in *. lia. }
  split; [done|]. split; [done|].
  apply Forall_app. split; [done|]. by constructor.
Qed.

(** A new timer with the next source id joins timers that were there. *)
Lemma timers_add (l : list timeout_source) (next : nat) t_new :
  NoDup (map source_id l) →
  Forall (fun t => (source_id t < next)%nat) l →
  source_id t_new = next →
  NoDup (map source_id (l ++ [t_new])) ∧
  Forall (fun t => (source_id t < S next)%nat) (l ++ [t_new]).
Proof.
  intros Hnd Hfresh Hnew. split.
  - rewrite map_app. cbn. apply NoDup_app. split; [done|].
    split; [|apply NoDup_singleton].
    intros x Hx Hx'. apply list_elem_of_singleton in Hx'. subst x.
    change (map source_id) with (fmap (M:=list) source_id) in Hx.
    apply list_elem_of_fmap in Hx as (t & Heq & Ht).
    apply (proj1 (Forall_forall _ _) Hfresh) in Ht. lia.
  - apply Forall_app. split.
    + eapply Forall_impl; [exact Hfresh|]. intros t Ht. cbn in *. lia.
    + constructor; [lia|constructor].
Qed.

Lemma timers_ok_show_toast message seconds st :
  timers_ok st → timers_ok (show_toast message seconds st).
Proof.
  intros (Hpos & Hfresh & Hnd & Hkind & Hidle).
  unfold show_toast. case_decide; [done|].
  unfold timeout_add_seconds, source_remove, timers_ok, sources_fresh in *.
  cbn. destruct (toast_hide_source st) as [[|n]|] eqn:Hold; cbn.
  - destruct (timers_add (timeout_sources st) (next_source_id st)
                (mkTimeout (next_source_id st) seconds CbHideToast) Hnd Hfresh
                eq_refl) as [Hnd' Hfresh'].
    split; [lia|]. split; [done|]. split; [done|]. split; [|done].
    intros t Ht. apply elem_of_app in Ht as [Ht|Ht].
    + destruct (Hkind t Ht) as [Hid Hcb]. split; [done|].
      destruct (source_cb t); try done. simplify_eq. lia.
    + apply list_elem_of_singleton in Ht. subst t. by cbn.
  - destruct (timers_add
                (filter (fun t => source_id t ≠ S n) (timeout_sources st))
                (next_source_id st)
                (mkTimeout (next_source_id st) seconds CbHideToast))
      as [Hnd' Hfresh']; [by apply NoDup_map_filter|by apply Forall_filter_keep|done|].
    split; [lia|]. split; [done|]. split; [done|]. split; [|done].
    intros t Ht. apply elem_of_app in Ht as [Ht|Ht].
    + apply list_elem_of_filter in Ht as [Hne Ht].
      destruct (Hkind t Ht) as [Hid Hcb]. split; [done|].
      destruct (source_cb t); try done. simplify_eq.
    + apply list_elem_of_singleton in Ht. subst t. by cbn.
  - destruct (timers_add (timeout_sources st) (next_source_id st)
                (mkTimeout (next_source_id st) seconds CbHideToast) Hnd Hfresh
                eq_refl) as [Hnd' Hfresh'].
    split; [lia|]. split; [done|]. split; [done|]. split; [|done].
    intros t Ht. apply elem_of_app in Ht as [Ht|Ht].
    + destruct (Hkind t Ht) as [Hid Hcb]. split; [done|].
      by destruct (source_cb t).
    + apply list_elem_of_singleton in Ht. subst t. by cbn.
Qed.

(** The WAIT arm of [_run_steps_chain]. *)
Lemma timers_ok_wait seconds steps idx st :
  timers_ok st →
  timers_ok
    (set_step_timer_source (Some (next_source_id (_cancel_step_timer st)))
       (timeout_add_seconds seconds (CbAfterWaitContinue steps idx)
          (_cancel_step_timer st)).2).
Proof.
  intros (Hpos & Hfresh & Hnd & Hkind & Hidle).
  unfold _cancel_step_timer, timeout_add_seconds, source_remove, timers_ok,
    sources_fresh in *.
  destruct (_step_timer_source st) as [[|n]|] eqn:Hold; cbn.
  - destruct (timers_add (timeout_sources st) (next_source_id st)
                (mkTimeout (next_source_id st) seconds
                   (CbAfterWaitContinue steps idx)) Hnd Hfresh eq_refl)
      as [Hnd' Hfresh'].
    split; [lia|]. split; [done|]. split; [done|]. split; [|done].
    intros t Ht. apply elem_of_app in Ht as [Ht|Ht].
    + destruct (Hkind t Ht) as [Hid Hcb]. split; [done|].
      destruct (source_cb t); try done. simplify_eq. lia.
    + apply list_elem_of_singleton in Ht. subst t. by cbn.
  - destruct (timers_add
                (filter (fun t => source_id t ≠ S n) (timeout_sources st))
                (next_source_id st)
                (mkTimeout (next_source_id st) seconds
                   (CbAfterWaitContinue steps idx)))
      as [Hnd' Hfresh']; [by apply NoDup_map_filter|by apply Forall_filter_keep|done|].
    split; [lia|]. split; [done|]. split; [done|]. split; [|done].
    intros t Ht. apply elem_of_app in Ht as [Ht|Ht].
    + apply list_elem_of_filter in Ht as [Hne Ht].
      destruct (Hkind t Ht) as [Hid Hcb]. split; [done|].
      destruct (source_cb t); try done. simplify_eq.
    + apply list_elem_of_singleton in Ht. subst t. by cbn.
  - destruct (timers_add (timeout_sources st) (next_source_id st)
                (mkTimeout (next_source_id st) seconds
                   (CbAfterWaitContinue steps idx)) Hnd Hfresh eq_refl)
      as [Hnd' Hfresh'].
    split; [lia|]. split; [done|]. split; [done|]. split; [|done].
    intros t Ht. apply elem_of_app in Ht as [Ht|Ht].
    + destruct (Hkind t Ht) as [Hid Hcb]. split; [done|].
      by destruct (source_cb t).
    + apply list_elem_of_singleton in Ht. subst t. by cbn.
Qed.

Lemma timers_ok_run_steps_chain steps idx st :
  timers_ok st → timers_ok (_run_steps_chain steps idx st).
Proof.
  intros Hst. unfold _run_steps_chain.
  destruct (steps !! idx) as [[op val|]|].
  - repeat case_decide.
    + apply timers_ok_idle_add; [done|].
      eapply timers_ok_view; [apply timer_view_enqueue_file|done].
    + destruct (expand_play_random val (rng st)) as [path g].
      apply timers_ok_idle_add; [done|].
      eapply timers_ok_view; [apply timer_view_enqueue_file|].
      by apply (timers_ok_view st).
    + pose proof (timers_ok_wait (wait_minutes val * 60) steps (idx + 1)
                    (print (LogWaiting (wait_minutes val)) st)) as Hw.
      unfold timeout_add_seconds in *. cbn [snd] in Hw. cbn zeta.
      apply Hw. by apply (timers_ok_view st).
    + apply timers_ok_idle_add; [done|]. by apply timers_ok_show_toast.
    + apply timers_ok_idle_add; [done|]. by apply (timers_ok_view st).
  - apply timers_ok_idle_add; [done|]. by apply (timers_ok_view st).
  - by apply (timers_ok_view st).
Qed.

Lemma timers_ok_run_action name st :
  timers_ok st → timers_ok (run_action name st).
Proof.
  intros Hst. unfold run_action.
  destruct (actions_script st !! name) as [[|s steps]|];
    [by apply (timers_ok_view st)| |by apply (timers_ok_view st)].
  apply timers_ok_run_steps_chain.
  apply (timers_ok_view st); [|done]. by destruct (_action_running st).
Qed.

Lemma timers_ok_play_manual_action_once name now st :
  timers_ok st → timers_ok (_play_manual_action_once name now st).
Proof.
  intros Hst. unfold _play_manual_action_once.
  repeat case_match; try (by apply (timers_ok_view st));
    apply timers_ok_run_action; by apply (timers_ok_view st).
Qed.

Lemma timers_ok_fire_entry now_no_ms fire_dt idx e st :
  timers_ok st → timers_ok (fire_entry now_no_ms fire_dt idx e st).
Proof.
  intros Hst. unfold fire_entry.
  set (st1 := set_today_fired _ (print _ st)).
  assert (timers_ok st1) as H1 by (by apply (timers_ok_view st)).
  clearbody st1.
  set (st2 := if decide (text e = "") then st1 else _).
  assert (timers_ok st2) as H2.
  { unfold st2. case_decide; [done|].
    apply timers_ok_show_toast. by apply (timers_ok_view st1). }
  clearbody st2.
  case_decide; [done|].
  apply timers_ok_run_action. by apply (timers_ok_view st2).
Qed.

Lemma timers_ok_check_loop now wd es idx st :
  timers_ok st → timers_ok (state_of (check_loop now wd idx es st)).
Proof.
  revert idx st. induction es as [|e es IH]; intros idx st Hst;
    cbn [check_loop]; [done|].
  assert (timers_ok (state_of (check_entry now wd idx e st))) as He.
  { unfold check_entry. repeat case_match; cbn [state_of]; try done.
    by apply timers_ok_fire_entry. }
  destruct (check_entry now wd idx e st) as [st'|x st']; cbn [state_of] in *.
  - by apply IH.
  - done.
Qed.

Lemma timers_ok_tick now st :
  timers_ok st → timers_ok (state_of (tick now st)).
Proof.
  intros Hst. unfold tick, _check_and_fire_scheduled.
  set (st1 := if decide (date now ≠ _today_key (emit ClockRefresh st))
              then _seed_today_offsets true
                     (set_today_key (date now)
                        (print LogNewDay (emit ClockRefresh st)))
              else emit ClockRefresh st).
  assert (timers_ok st1) as H1.
  { unfold st1. case_decide.
    - eapply timers_ok_view; [apply timer_view_seed|].
      by apply (timers_ok_view st).
    - by apply (timers_ok_view st). }
  clearbody st1. cbn zeta.
  set (st2 := if decide (dt_hour now ≠ last_seen_hour st1)
              then enqueue_hour_video (dt_hour now)
                     (set_last_seen_hour (dt_hour now)
                        (print LogChangeOfHour st1))
              else st1).
  assert (timers_ok st2) as H2.
  { unfold st2. case_decide; [|done].
    eapply timers_ok_view; [apply timer_view_enqueue_hour_video|].
    by apply (timers_ok_view st1). }
  clearbody st2.
  by apply timers_ok_check_loop.
Qed.

Lemma timers_ok_handle ev st : timers_ok st → timers_ok (handle ev st).
Proof.
  intros Hst.
  destruct ev as [now| | |file|name now| |id|fs]; cbn [handle].
  - by apply timers_ok_tick.
  - unfold on_eos, try_play_next_in_queue.
    eapply timers_ok_view; [apply timer_view_try_play_next_from|].
    by apply (timers_ok_view st).
  - unfold on_error, try_play_next_in_queue.
    eapply timers_ok_view; [apply timer_view_try_play_next_from|].
    by apply (timers_ok_view st).
  - unfold on_key_R.
    eapply timers_ok_view; [apply timer_view_seed|].
    by apply (timers_ok_view st).
  - by apply timers_ok_play_manual_action_once.
  - destruct (idle_sources st) as [|cb rest] eqn:Hidle; [done|].
    destruct Hst as (Hpos & Hfresh & Hnd & Hkind & Hcbs).
    rewrite Hidle in Hcbs. apply Forall_cons in Hcbs as [Hcb Hrest].
    assert (timers_ok (set_idle_sources rest st)) as Hst' by done.
    destruct cb as [steps idx|steps idx| |hour]; cbn [run_callback]; try done.
    + by apply timers_ok_run_steps_chain.
    + eapply timers_ok_view; [apply timer_view_enqueue_hour_video|done].
  - destruct (list_find _ _) as [[i t]|] eqn:Hfind; [|done].
    apply list_find_Some in Hfind as (Hi & Hid & _).
    apply list_elem_of_lookup_2 in Hi.
    pose proof (timers_ok_source_remove id st Hst) as Hrem.
    destruct Hst as (Hpos & Hfresh & Hnd & Hkind & Hcbs).
    destruct (Hkind t Hi) as [Hpos_t Hcb].
    destruct Hrem as (Hpos' & Hfresh' & Hnd' & Hkind' & Hcbs').
    destruct (source_cb t) as [steps idx|steps idx| |hour] eqn:Hsrc;
      cbn [run_callback]; try done.
    + unfold _after_wait_continue. apply timers_ok_run_steps_chain.
      split; [done|]. split; [done|]. split; [done|]. split; [|done].
      intros t' Ht'. destruct (Hkind' t' Ht') as [Hpos_t' Hcb'].
      split; [done|]. cbn in *.
      apply list_elem_of_filter in Ht' as [Hne _].
      destruct (source_cb t'); try done. congruence.
    + unfold _hide.
      split; [done|]. split; [done|]. split; [done|]. split; [|done].
      intros t' Ht'. destruct (Hkind' t' Ht') as [Hpos_t' Hcb'].
      split; [done|]. cbn in *.
      apply list_elem_of_filter in Ht' as [Hne _].
      destruct (source_cb t'); try done. congruence.
  - by apply (timers_ok_view st).
Qed.

Lemma timers_ok_init file script now fs g :
  timers_ok (init file script now fs g).
Proof.
  unfold init. cbn zeta.
  unfold enqueue_startup_sequence. cbn zeta.
  match goal with
  | |- timers_ok (if ?b then enqueue_file ?p ?s else ?s) =>
      assert (timers_ok s) as Hs; [|by destruct b;
        [eapply timers_ok_view; [apply timer_view_enqueue_file|]|]]
  end.
  match goal with
  | |- timers_ok (if ?b then enqueue_file ?p ?s else ?s) =>
      assert (timers_ok s) as Hs; [|by destruct b;
        [eapply timers_ok_view; [apply timer_view_enqueue_file|]|]]
  end.
  match goal with
  | |- timers_ok (emit ?e ?s) =>
      apply (timers_ok_view s (emit e s) eq_refl)
  end.
  match goal with
  | |- timers_ok (emit ?e ?s) =>
      apply (timers_ok_view s (emit e s) eq_refl)
  end.
  apply timers_ok_idle_add; [done|].
  eapply timers_ok_view; [apply timer_view_seed|].
  split; [cbn; lia|]. split; [by constructor|].
  split; [by constructor|]. split; [|by constructor].
  intros t Ht. by apply elem_of_nil in Ht.
Qed.

Lemma reachable_timers_ok file script now fs g evs :
  timers_ok (run evs (init file script now fs g)).
Proof.
  induction evs as [|ev evs IH] using rev_ind.
  - apply timers_ok_init.
  - rewrite run_snoc. by apply timers_ok_handle.
Qed.

Lemma same_id_at_most_one (l : list timeout_source) (id : nat) :
  NoDup (map source_id l) → (∀ t, t ∈ l → source_id t = id) →
  (length l ≤ 1)%nat.
Proof.
  destruct l as [|a [|b l]]; cbn; [lia..|].
  intros Hnd Hall. exfalso.
  apply NoDup_cons in Hnd as [Hnot _]. apply Hnot.
  rewrite (Hall a), <- (Hall b); [apply list_elem_of_here| |].
  - apply list_elem_of_further, list_elem_of_here.
  - apply list_elem_of_here.
Qed.

(** X12. In every state the player reaches from start-up the one-shot
    timers of the main loop are under control: their source ids are
    distinct; each is either the timer that hides the toast, and then
    [toast_hide_source] names it, or the timer that continues a chain
    after a WAIT, and then [_step_timer_source] names it; so at most one
    timer of each kind is pending, whatever the number of toasts shown
    and of chains started. *)
Theorem one_timer_of_each_kind (file : option (list (list string)))
  (script : gmap string (list step)) (now : datetime) (fs : gset string)
  (g : list Z) (evs : list event) :
  let st := run evs (init file script now fs g) in
  NoDup (map source_id (timeout_sources st)) ∧
  (∀ t, t ∈ timeout_sources st →
     source_cb t = CbHideToast ∧ toast_hide_source st = Some (source_id t) ∨
     is_wait_cb (source_cb t) = true ∧
     _step_timer_source st = Some (source_id t)) ∧
  (length (toast_timers st) ≤ 1)%nat ∧
  (length (wait_timers st) ≤ 1)%nat.
Proof.
  intros st.
  destruct (reachable_timers_ok file script now fs g evs)
    as (Hpos & Hfresh & Hnd & Hkind & Hidle).
  fold st in Hpos, Hfresh, Hnd, Hkind, Hidle.
  split; [done|]. split; [|split].
  - intros t Ht. destruct (Hkind t Ht) as [_ Hcb].
    destruct (source_cb t); try done; [by right|by left].
  - destruct (toast_hide_source st) as [id|] eqn:Hsrc.
    + apply (same_id_at_most_one _ id); [by apply NoDup_map_filter|].
      intros t Ht. apply list_elem_of_filter in Ht as [Hcb Ht].
      destruct (Hkind t Ht) as [_ Hk]. rewrite Hcb in Hk. congruence.
    + destruct (toast_timers st) as [|t l] eqn:Hl; [cbn; lia|].
      assert (t ∈ toast_timers st) as Ht by (rewrite Hl; apply list_elem_of_here).
      apply list_elem_of_filter in Ht as [Hcb Ht].
      destruct (Hkind t Ht) as [_ Hk]. rewrite Hcb in Hk. congruence.
  - destruct (_step_timer_source st) as [id|] eqn:Hsrc.
    + apply (same_id_at_most_one _ id); [by apply NoDup_map_filter|].
      intros t Ht. apply list_elem_of_filter in Ht as [Hcb Ht].
      destruct (Hkind t Ht) as [_ Hk].
      destruct (source_cb t); try done; congruence.
    + destruct (wait_timers st) as [|t l] eqn:Hl; [cbn; lia|].
      assert (t ∈ wait_timers st) as Ht by (rewrite Hl; apply list_elem_of_here).
      apply list_elem_of_filter in Ht as [Hcb Ht].
      destruct (Hkind t Ht) as [_ Hk].
      destruct (source_cb t); try done; congruence.
Qed.


(** ** Chains without a WAIT *)

Lemma runner_view_try_play_next_from q st :
  runner_view (try_play_next_from q st) = runner_view st.
Proof.
  revert st. induction q as [|p q IH]; intros st; cbn [try_play_next_from].
  - reflexivity.
  - case_match; [by rewrite IH|reflexivity].
Qed.









(** ** PLAY-RANDOM: one range in a path *)










Lemma length_append u v :
  String.length (u +:+ v) = (String.length u + String.length v)%nat.
Proof.
  induction u as [|c u IH]; [done|].
  change (String c u +:+ v) with (String c (u +:+ v)).
  cbn [String.length]. by rewrite IH.
Qed.





Example expand_play_random_twelve_to_three :
  expand_play_random "/videos/clip_[12..3].mp4" [7] = ("/videos/clip_10.mp4", []).
Proof. vm_compute. reflexivity. Qed.


(** ** Rows of the schedule view *)

Lemma fmt_02d_two_digits (n : Z) :
  0 <= n <= 59 →
  ∃ c1 c2, fmt_02d n = String c1 (String c2 "") ∧
           Py.int (String c1 (String c2 "")) = Some n.
Proof.
  intros Hn.
  assert (∃ k : nat, n = Z.of_nat k ∧ (k < 60)%nat) as (k & -> & Hk)
    by (exists (Z.to_nat n); lia).
  do 60 (destruct k as [|k];
         [eexists _, _; split; [vm_compute; reflexivity|vm_compute; reflexivity]|]).
  lia.
Qed.

(** X15. The schedule view shows one row per entry, in schedule order.
    Its first column has seven characters, one per weekday from Monday:
    the letter of the day ([MTWTFSS]) when the entry's flag for that day
    is set and [-] when it is not. For an entry with hour and minute in
    range the second column is the time as [HH:MM], two digits each, from
    which the hour and the minute read back. *)
Theorem schedule_view_rows (e : ScheduleEntry) :
  (∀ st (i : nat),
     populate_schedule_view st !! i = schedule_row <$> schedule st !! i) ∧
  schedule_row e !! 0%nat = Some (_format_days e) ∧
  String.length (_format_days e) = 7%nat ∧
  (∀ wd : nat, (wd < 7)%nat →
     String.get wd (_format_days e)
     = if flag_set e (Z.of_nat wd) then String.get wd "MTWTFSS"
       else Some "-"%char) ∧
  (entry_valid e →
   ∃ h1 h2 m1 m2,
     schedule_row e !! 1%nat
     = Some (String h1 (String h2 (String ":" (String m1 (String m2 ""))))) ∧
     Py.int (String h1 (String h2 "")) = Some (hour e) ∧
     Py.int (String m1 (String m2 "")) = Some (minute e)).
Proof.
  split; [intros st i; apply list_lookup_fmap|].
  split; [done|].
  assert (String.length (_format_days e) = 7%nat ∧
          ∀ wd : nat, (wd < 7)%nat →
            String.get wd (_format_days e)
            = if flag_set e (Z.of_nat wd) then String.get wd "MTWTFSS"
              else Some "-"%char) as [Hlen Hget].
  { unfold _format_days, flag_set, flags. cbn [zip_with]. cbn beta.
    split.
    - by destruct (truthy (monday e)), (truthy (tuesday e)),
        (truthy (wednesday e)), (truthy (thursday e)), (truthy (friday e)),
        (truthy (saturday e)), (truthy (sunday e)).
    - intros wd Hwd. rewrite Nat2Z.id.
      do 7 (destruct wd as [|wd];
            [cbn [lookup list_lookup];
             by destruct (truthy (monday e)), (truthy (tuesday e)),
               (truthy (wednesday e)), (truthy (thursday e)),
               (truthy (friday e)), (truthy (saturday e)), (truthy (sunday e))|]).
      lia. }
  split; [done|]. split; [done|].
  intros [Hh Hm].
  destruct (fmt_02d_two_digits (hour e)) as (h1 & h2 & Hhs & Hhi); [lia|].
  destruct (fmt_02d_two_digits (minute e)) as (m1 & m2 & Hms & Hmi); [lia|].
  exists h1, h2, m1, m2. split; [|done].
  unfold schedule_row. cbn [lookup list_lookup]. by rewrite Hhs, Hms.
Qed.

Example schedule_row_demo :
  schedule_row (mkEntry 1 1 1 1 1 0 0 9 5 15 60 "Stretch" "ACT_STRETCH" "FF"
                  "9" "5")
  = ["MTWTF--"; "09:05"; "15m"; "60"; "Stretch"; "ACT_STRETCH"].
Proof. vm_compute. reflexivity. Qed.


(** ** The next event of the schedule view *)

Lemma datetime_of_valid day e :
  entry_valid e →
  datetime_of day (hour e) (minute e)
  = Some (mkDatetime day (hour e) (minute e) 0 0).
Proof.
  intros [Hh Hm]. unfold datetime_of.
  replace (0 <=? hour e) with true by lia.
  replace (hour e <=? 23) with true by lia.
  replace (0 <=? minute e) with true by lia.
  replace (minute e <=? 59) with true by lia. done.
Qed.

Lemma next_event_candidate_valid now d idx e c :
  entry_valid e →
  next_event_candidate now d idx e c
  = Ok (c ++ if flag_set e ((weekday now + d) mod 7)
                && dt_geb (occurrence now d e) now
             then [(occurrence now d e, idx)] else []).
Proof.
  intros He. unfold next_event_candidate. cbn zeta.
  rewrite (datetime_of_valid _ e He). fold (occurrence now d e).
  destruct (flag_set e _); cbn [negb andb]; [|by rewrite app_nil_r].
  destruct (dt_geb _ _); [done|by rewrite app_nil_r].
Qed.

Lemma candidates_ordered_nil : candidates_ordered [].
Proof. by intros p q x y Hp. Qed.

Lemma candidates_ordered_singleton x : candidates_ordered [x].
Proof.
  intros p q a b Hp Hq Hpq.
  apply lookup_lt_Some in Hp, Hq. cbn in *. lia.
Qed.

Lemma candidates_ordered_app l1 l2 :
  candidates_ordered l1 → candidates_ordered l2 →
  (∀ x y, x ∈ l1 → y ∈ l2 → candidate_before x y) →
  candidates_ordered (l1 ++ l2).
Proof.
  intros H1 H2 H12 p q x y Hp Hq Hpq.
  apply lookup_app_Some in Hp as [Hp|[Hp1 Hp]];
    apply lookup_app_Some in Hq as [Hq|[Hq1 Hq]].
  - by eapply H1.
  - apply H12; by eapply list_elem_of_lookup_2.
  - apply lookup_lt_Some in Hq. lia.
  - eapply H2; [exact Hp|exact Hq|lia].
Qed.

Lemma next_event_day_valid now d es idx c :
  Forall entry_valid es →
  ∃ new, next_event_day now d idx es c = Ok (c ++ new) ∧
    candidates_ordered new ∧
    ∀ x, x ∈ new ↔
      ∃ (j : nat) e, es !! j = Some e ∧
        flag_set e ((weekday now + d) mod 7) = true ∧
        dt_geb (occurrence now d e) now = true ∧
        x = (occurrence now d e, (idx + j)%nat).
Proof.
  intros Hes. revert idx c.
  induction Hes as [|e es He _ IH]; intros idx c; cbn [next_event_day].
  - exists []. split; [by rewrite app_nil_r|].
    split; [apply candidates_ordered_nil|].
    intros x. split; [by intros ?%elem_of_nil|]. by intros (j & e & ? & _).
  - rewrite (next_event_candidate_valid now d idx e c He).
    destruct (IH (S idx)
                (c ++ if flag_set e ((weekday now + d) mod 7)
                         && dt_geb (occurrence now d e) now
                      then [(occurrence now d e, idx)] else []))
      as (new & -> & Hord & Hnew).
    eexists. split; [by rewrite <- app_assoc|]. split.
    + apply candidates_ordered_app; [|done|].
      * case_match; [apply candidates_ordered_singleton
                    |apply candidates_ordered_nil].
      * intros x y Hx Hy. apply Hnew in Hy as (j & e' & _ & _ & _ & ->).
        case_match; [|by apply elem_of_nil in Hx].
        apply list_elem_of_singleton in Hx as ->.
        right. cbn. split; [done|lia].
    + intros x. rewrite elem_of_app, Hnew. split.
      * intros [Hx|(j & e' & Hj & Hf & Hg & ->)].
        -- destruct (flag_set e _) eqn:Hf; [|by apply elem_of_nil in Hx].
           destruct (dt_geb _ _) eqn:Hg; [|by apply elem_of_nil in Hx].
           apply list_elem_of_singleton in Hx as ->.
           exists 0%nat, e. by rewrite Nat.add_0_r.
        -- exists (S j), e'. split; [done|]. split; [done|]. split; [done|].
           f_equal. lia.
      * intros ([|j] & e' & Hj & Hf & Hg & ->); cbn in Hj.
        -- left. simplify_eq. rewrite Hf, Hg, Nat.add_0_r.
           apply list_elem_of_here.
        -- right. exists j, e'. split; [done|]. split; [done|].
           split; [done|]. f_equal. lia.
Qed.

Lemma next_event_days_valid now ds es c :
  Forall entry_valid es →
  (∀ (p q : nat) a b, ds !! p = Some a → ds !! q = Some b → (p < q)%nat → a < b) →
  ∃ new, next_event_days now ds es c = Ok (c ++ new) ∧
    candidates_ordered new ∧
    ∀ x, x ∈ new ↔
      ∃ d (i : nat) e, d ∈ ds ∧ es !! i = Some e ∧
        flag_set e ((weekday now + d) mod 7) = true ∧
        dt_geb (occurrence now d e) now = true ∧
        x = (occurrence now d e, i).
Proof.
  intros Hes. revert c.
  induction ds as [|d ds IH]; intros c Hds; cbn [next_event_days].
  - exists []. split; [by rewrite app_nil_r|].
    split; [apply candidates_ordered_nil|].
    intros x. split; [by intros ?%elem_of_nil|].
    by intros (d & i & e & ?%elem_of_nil & _).
  - destruct (next_event_day_valid now d es 0 c Hes) as (new1 & -> & Hord1 & Hnew1).
    destruct (IH (c ++ new1)) as (new2 & -> & Hord2 & Hnew2).
    { intros p q a b Hp Hq Hpq. apply (Hds (S p) (S q) a b Hp Hq). lia. }
    eexists. split; [by rewrite <- app_assoc|]. split.
    + apply candidates_ordered_app; [done..|].
      intros x y Hx Hy.
      apply Hnew1 in Hx as (j & e & _ & _ & _ & ->).
      apply Hnew2 in Hy as (d' & i & e' & Hd' & _ & _ & _ & ->).
      left. cbn. apply list_elem_of_lookup in Hd' as [q Hq].
      pose proof (Hds 0%nat (S q) d d' eq_refl Hq). lia.
    + intros x. rewrite elem_of_app, Hnew1, Hnew2. split.
      * intros [(j & e & Hj & Hf & Hg & ->)|(d' & i & e & Hd' & Hi & Hf & Hg & ->)].
        -- exists d, j, e. split; [apply list_elem_of_here|done].
        -- exists d', i, e. split; [by apply list_elem_of_further|done].
      * intros (d' & i & e & Hd' & Hi & Hf & Hg & ->).
        apply elem_of_cons in Hd' as [->|Hd'].
        -- left. by exists i, e.
        -- right. by exists d', i, e.
Qed.

Lemma min_candidate_first pre0 best mid l :
  (∀ y, y ∈ pre0 → to_microseconds best.1 < to_microseconds y.1) →
  (∀ y, y ∈ mid → to_microseconds best.1 <= to_microseconds y.1) →
  ∃ pre post,
    pre0 ++ best :: mid ++ l = pre ++ min_candidate best l :: post ∧
    (∀ y, y ∈ pre →
       to_microseconds (min_candidate best l).1 < to_microseconds y.1) ∧
    (∀ y, y ∈ post →
       to_microseconds (min_candidate best l).1 <= to_microseconds y.1).
Proof.
  revert pre0 best mid. induction l as [|c l IH]; intros pre0 best mid Hpre Hmid.
  - exists pre0, mid. by rewrite app_nil_r.
  - cbn [min_candidate]. unfold dt_ltb.
    destruct (to_microseconds c.1 <? to_microseconds best.1) eqn:Hlt.
    + apply Z.ltb_lt in Hlt.
      destruct (IH (pre0 ++ best :: mid) c []) as (pre & post & Heq & H1 & H2).
      { intros y Hy. apply elem_of_app in Hy as [Hy|Hy].
        - specialize (Hpre y Hy). lia.
        - apply elem_of_cons in Hy as [->|Hy]; [done|].
          specialize (Hmid y Hy). lia. }
      { by intros y ?%elem_of_nil. }
      exists pre, post. split; [|done].
      rewrite <- Heq. cbn. by rewrite <- app_assoc.
    + apply Z.ltb_ge in Hlt.
      destruct (IH pre0 best (mid ++ [c])) as (pre & post & Heq & H1 & H2).
      { done. }
      { intros y Hy. apply elem_of_app in Hy as [Hy|Hy]; [by apply Hmid|].
        by apply list_elem_of_singleton in Hy as ->. }
      exists pre, post. split; [|done].
      rewrite <- Heq. by rewrite <- app_assoc.
Qed.

Lemma occurrence_day now k e k' e' :
  entry_valid e → entry_valid e' →
  to_microseconds (occurrence now k e) = to_microseconds (occurrence now k' e') →
  k = k'.
Proof.
  intros [Hh Hm] [Hh' Hm']. unfold to_microseconds, occurrence, seconds_of_day.
  cbn. lia.
Qed.

(** X16. For a schedule whose hours and minutes are in range,
    [find_next_event_index] returns. Its candidates are the occurrences
    of the entries on today and the six days after it, by weekday flag,
    that are not before [now] (the jitter and the fired flags play no
    part). With no such occurrence the result is [(None, None)];
    otherwise it is the row and the time of an earliest one, and among
    rows that share that time the first row of the schedule. *)
Theorem find_next_event_index_earliest (now : datetime) (st : Player) :
  Forall entry_valid (schedule st) →
  ∃ r, find_next_event_index now st = Ok r ∧
    match r with
    | None => ∀ k i e, ¬ upcoming now st k i e
    | Some (i, dt) =>
        (∃ k e, upcoming now st k i e ∧ dt = occurrence now k e) ∧
        (∀ k' i' e', upcoming now st k' i' e' →
           to_microseconds dt <= to_microseconds (occurrence now k' e') ∧
           (to_microseconds (occurrence now k' e') = to_microseconds dt →
            (i ≤ i')%nat))
    end.
Proof.
  intros Hvalid. unfold find_next_event_index.
  destruct (next_event_days_valid now (Py.range 0 7 1) (schedule st) [] Hvalid)
    as (new & Hrun & Hord & Hnew).
  { intros p q a b. apply range_lookup_lt. lia. }
  assert (∀ x, x ∈ new ↔ ∃ k e, upcoming now st k x.2 e ∧ x.1 = occurrence now k e)
    as Hup.
  { intros [dt i]. rewrite Hnew. cbn [fst snd]. unfold upcoming, dt_geb. split.
    - intros (d & i' & e & Hd & Hi & Hf & Hg & [= -> ->]).
      apply elem_of_range_0 in Hd as [Hd _]; [|lia].
      exists d, e. split; [|done]. split; [lia|]. split; [done|].
      split; [done|]. lia.
    - intros (k & e & (Hk & Hi & Hf & Hg) & ->).
      exists k, i, e. split.
      { apply elem_of_range_0; [lia|]. split; [lia|]. apply Z.divide_1_l. }
      split; [done|]. split; [done|]. split; [lia|done]. }
  case_decide as Hempty.
  { exists None. split; [done|]. intros k i e (_ & Hi & _).
    rewrite Hempty in Hi. done. }
  rewrite Hrun. cbn [app].
  destruct new as [|c cs].
  { exists None. split; [done|]. intros k i e Hu.
    assert ((occurrence now k e, i) ∈ @nil (datetime * nat)) as Hin
      by (apply Hup; cbn; eauto).
    by apply elem_of_nil in Hin. }
  destruct (min_candidate_first [] c [] cs) as (pre & post & Heq & Hpre & Hpost).
  { by intros y ?%elem_of_nil. }
  { by intros y ?%elem_of_nil. }
  cbn [app] in Heq.
  destruct (min_candidate c cs) as [dt i] eqn:Hmin. cbn [fst snd] in *.
  exists (Some (i, dt)). split; [done|].
  assert ((dt, i) ∈ c :: cs) as Hin.
  { rewrite Heq. apply elem_of_app. right. apply list_elem_of_here. }
  apply Hup in Hin as (k & e & Hu & Hdt). cbn [fst snd] in *.
  split; [by exists k, e|].
  intros k' i' e' Hu'.
  assert ((occurrence now k' e', i') ∈ c :: cs) as Hin' by (apply Hup; cbn; eauto).
  rewrite Heq in Hin'. apply elem_of_app in Hin' as [Hin'|Hin'].
  { specialize (Hpre _ Hin'). cbn in Hpre. split; [lia|]. lia. }
  apply elem_of_cons in Hin' as [[= Ho ->]|Hin']; [by rewrite Ho|].
  pose proof (Hpost _ Hin') as Hle. cbn [fst] in Hle. split; [done|].
  intros Heq_us.
  assert (entry_valid e ∧ entry_valid e') as [He He'].
  { destruct Hu as (_ & Hi & _), Hu' as (_ & Hi' & _).
    split; eapply (proj1 (Forall_forall _ _) Hvalid);
      by eapply list_elem_of_lookup_2. }
  subst dt. apply occurrence_day in Heq_us; [|done..]. subst k'.
  apply list_elem_of_lookup in Hin' as [j Hj].
  assert (candidate_before (occurrence now k e, i) (occurrence now k e', i'))
    as [Hday|[_ Hidx]].
  { apply (Hord (length pre) (length pre + S j)%nat).
    - rewrite Heq. by rewrite list_lookup_middle.
    - rewrite Heq. rewrite lookup_app_r by lia.
      replace (length pre + S j - length pre)%nat with (S j) by lia. done.
    - lia. }
  - cbn in Hday. lia.
  - cbn in Hidx. lia.
Qed.

Lemma find_next_event_index_earliest_witness :
  ∃ r, find_next_event_index (monday_at 9 0 1) demo_player = Ok r ∧
    match r with
    | None => ∀ k i e, ¬ upcoming (monday_at 9 0 1) demo_player k i e
    | Some (i, dt) =>
        (∃ k e, upcoming (monday_at 9 0 1) demo_player k i e ∧
                dt = occurrence (monday_at 9 0 1) k e) ∧
        (∀ k' i' e', upcoming (monday_at 9 0 1) demo_player k' i' e' →
           to_microseconds dt
           <= to_microseconds (occurrence (monday_at 9 0 1) k' e') ∧
           (to_microseconds (occurrence (monday_at 9 0 1) k' e')
            = to_microseconds dt → (i ≤ i')%nat))
    end.
Proof.
  apply (find_next_event_index_earliest (monday_at 9 0 1) demo_player).
  vm_compute. repeat constructor; discriminate.
Defined.

(** The entry of [demo_player] is due from Monday to Friday at 09:00. One
    second after Monday's occurrence the next event is Tuesday's, and
    after Friday's it is the one of the Monday that follows. An entry
    that is due on Mondays only has no next event once Monday's
    occurrence has passed: the search stops six days ahead, one day short
    of its next occurrence. *)
Example find_next_event_index_demo :
  find_next_event_index (monday_at 9 0 1) demo_player
  = Ok (Some (0%nat, mkDatetime 739258 9 0 0 0)) ∧
  find_next_event_index (mkDatetime 739261 9 0 1 0) demo_player
  = Ok (Some (0%nat, mkDatetime 739264 9 0 0 0)) ∧
  find_next_event_index (monday_at 9 0 1)
    (set_schedule [mkEntry 1 0 0 0 0 0 0 9 0 0 0 "" "" "" "9" "0"] demo_player)
  = Ok None.
Proof. vm_compute. done. Qed.


(** ** The hour video *)

(** X17. [enqueue_hour_video(hour)] does nothing when the video of that
    hour was the last one it enqueued. Otherwise it enqueues the file of
    the hour when that file exists, the fallback file when only that one
    exists, and records the hour; when neither exists it only prints a
    warning and records nothing. For an hour of the day the file name
    carries the hour as two digits. *)
Theorem hour_video_fallback (hour : Z) (st : Player) :
  let candidate := "/home/tme520/Videos/LPS/announcements/FR/c10 - "
                   +:+ (fmt_02d hour +:+ "h.mp4") in
  (last_played_hour st = Some hour → enqueue_hour_video hour st = st) ∧
  (last_played_hour st ≠ Some hour →
   (candidate ∈ files st →
    enqueue_hour_video hour st
    = set_last_played_hour (Some hour) (enqueue_file candidate st)) ∧
   (candidate ∉ files st → FALLBACK_PATH ∈ files st →
    enqueue_hour_video hour st
    = set_last_played_hour (Some hour) (enqueue_file FALLBACK_PATH st)) ∧
   (candidate ∉ files st → FALLBACK_PATH ∉ files st →
    enqueue_hour_video hour st
    = print (LogMissingHourFile hour FALLBACK_PATH) st)) ∧
  (candidate ∈ files st ∨ FALLBACK_PATH ∈ files st →
   last_played_hour (enqueue_hour_video hour st) = Some hour ∧
   enqueue_hour_video hour (enqueue_hour_video hour st)
   = enqueue_hour_video hour st) ∧
  (0 <= hour <= 23 →
   ∃ c1 c2, fmt_02d hour = String c1 (String c2 "") ∧
            Py.int (String c1 (String c2 "")) = Some hour).
Proof.
  intros candidate.
  assert (path_for_hour hour st
          = if bool_decide (candidate ∈ files st) then candidate
            else FALLBACK_PATH) as Hpath by reflexivity.
  assert (candidate ≠ "") as Hcand by done.
  assert (∀ p, p ≠ "" → p ∈ files st → missing p st = false) as Hpresent.
  { intros p Hp Hin. unfold missing.
    by rewrite (bool_decide_eq_false_2 _ Hp), (bool_decide_eq_true_2 _ Hin). }
  assert (∀ p, p ∉ files st → missing p st = true) as Habsent.
  { intros p Hin. unfold missing.
    rewrite (bool_decide_eq_false_2 _ Hin). apply orb_true_r. }
  assert (last_played_hour st ≠ Some hour →
          (candidate ∈ files st →
           enqueue_hour_video hour st
           = set_last_played_hour (Some hour) (enqueue_file candidate st)) ∧
          (candidate ∉ files st → FALLBACK_PATH ∈ files st →
           enqueue_hour_video hour st
           = set_last_played_hour (Some hour) (enqueue_file FALLBACK_PATH st)) ∧
          (candidate ∉ files st → FALLBACK_PATH ∉ files st →
           enqueue_hour_video hour st
           = print (LogMissingHourFile hour FALLBACK_PATH) st)) as Hcases.
  { intros Hlast. unfold enqueue_hour_video.
    rewrite decide_False by done. cbn zeta. rewrite Hpath. split_and!.
    - intros Hin. rewrite (bool_decide_eq_true_2 _ Hin).
      by rewrite Hpresent.
    - intros Hnin Hfb. rewrite (bool_decide_eq_false_2 _ Hnin).
      by rewrite Hpresent.
    - intros Hnin Hfb. rewrite (bool_decide_eq_false_2 _ Hnin).
      by rewrite Habsent. }
  split; [|split; [done|split]].
  - intros Hlast. unfold enqueue_hour_video. by rewrite decide_True.
  - intros Hsome.
    assert (last_played_hour (enqueue_hour_video hour st) = Some hour) as Hrec.
    { destruct (decide (last_played_hour st = Some hour)) as [Hlast|Hlast].
      - unfold enqueue_hour_video. by rewrite decide_True.
      - destruct (Hcases Hlast) as (H1 & H2 & _).
        destruct (decide (candidate ∈ files st)) as [Hin|Hnin].
        + by rewrite H1.
        + destruct Hsome as [?|Hfb]; [done|]. by rewrite H2. }
    split; [done|].
    unfold enqueue_hour_video at 1. by rewrite decide_True.
  - intros Hh. apply fmt_02d_two_digits. lia.
Qed.

Lemma show_toast_trace message seconds st :
  message ≠ "" →
  trace (show_toast message seconds st) = trace st ++ [ToastShow message].
Proof.
  intros Hm. unfold show_toast, timeout_add_seconds, source_remove.
  rewrite decide_False by done. cbn. by repeat case_match.
Qed.

(** ** An entry fires when a tick lands on its second *)








(** ** The playing flag follows the calls on the collaborators *)

Lemma playing_after_app p l k :
  playing_after p (l ++ k) = playing_after (playing_after p l) k.
Proof. apply foldl_app. Qed.

Lemma tracks_playing_refl st : tracks_playing st st.
Proof. exists []. by rewrite app_nil_r. Qed.

Lemma tracks_playing_trans st1 st2 st3 :
  tracks_playing st1 st2 → tracks_playing st2 st3 → tracks_playing st1 st3.
Proof.
  intros (l1 & Ht1 & Hp1) (l2 & Ht2 & Hp2). exists (l1 ++ l2).
  split; [by rewrite Ht2, Ht1, app_assoc|].
  by rewrite playing_after_app, <- Hp1.
Qed.

Lemma tracks_playing_quiet st st' l :
  _playing st' = _playing st → trace st' = trace st ++ l →
  (∀ p, playing_after p l = p) → tracks_playing st st'.
Proof. intros Hp Ht Hl. exists l. by rewrite Hl. Qed.

Lemma tracks_playing_same st st' :
  _playing st' = _playing st → trace st' = trace st → tracks_playing st st'.
Proof.
  intros Hp Ht. apply (tracks_playing_quiet st st' []); [done| |done].
  by rewrite app_nil_r.
Qed.

Lemma tracks_playing_print msg st : tracks_playing st (print msg st).
Proof. by apply (tracks_playing_quiet _ _ [Print msg]). Qed.

Lemma tracks_playing_idle_add cb st : tracks_playing st (idle_add cb st).
Proof. by apply tracks_playing_same. Qed.

Lemma tracks_playing_show_toast message seconds st :
  tracks_playing st (show_toast message seconds st).
Proof.
  unfold show_toast. case_decide; [apply tracks_playing_refl|].
  apply (tracks_playing_quiet _ _ [ToastShow message]); [..|done];
    cbn; by repeat case_match.
Qed.

(** Whatever played before, after [try_play_next_in_queue] the playing
    flag is the one its calls announce. *)
Lemma try_play_next_from_announces q st :
  ∃ l, trace (try_play_next_from q st) = trace st ++ l ∧
       announces l ∧
       ∀ p, playing_after p l = _playing (try_play_next_from q st).
Proof.
  revert st. induction q as [|x q IH]; intros st; cbn [try_play_next_from].
  - exists [PipeSetState NULL; ShowClockOnly; OnPlaybackStopped].
    split; [by rewrite stop_to_clock_trace|].
    split; [right; apply list_elem_of_further, list_elem_of_further,
                   list_elem_of_here|done].
  - case_match.
    + destruct (IH (print (LogFileNotFound x) (set_play_queue q st)))
        as (l & Ht & Ha & Hp).
      exists (Print (LogFileNotFound x) :: l). split; [|split].
      * rewrite Ht. cbn. by rewrite <- app_assoc.
      * destruct Ha as [Ha|Ha]; [left|right]; by apply list_elem_of_further.
      * intros p. cbn. apply (Hp p).
    + exists [Print (LogPlaying x); OnPlaybackStarted; ShowVideoLayer;
              PipeSetState NULL; PipeSetUri x; PipeSetState PLAYING].
      split; [by rewrite start_playback_trace|].
      split; [left; apply list_elem_of_further, list_elem_of_here|done].
Qed.

Lemma tracks_playing_try_play_next_from q st :
  tracks_playing st (try_play_next_from q st).
Proof.
  destruct (try_play_next_from_announces q st) as (l & Ht & _ & Hp).
  exists l. by rewrite Hp.
Qed.

Lemma tracks_playing_start_playback path st :
  tracks_playing st (start_playback path st).
Proof. eexists. split; [apply start_playback_trace|done]. Qed.

Lemma tracks_playing_enqueue_file path st :
  tracks_playing st (enqueue_file path st).
Proof.
  unfold enqueue_file, play_file.
  case_match; [apply tracks_playing_print|].
  destruct (_playing st) eqn:Hp; cbn [negb].
  - by eapply (tracks_playing_quiet _ _ [_]).
  - apply tracks_playing_start_playback.
Qed.

Lemma tracks_playing_enqueue_hour_video hour st :
  tracks_playing st (enqueue_hour_video hour st).
Proof.
  unfold enqueue_hour_video. case_decide; [apply tracks_playing_refl|].
  case_match; [apply tracks_playing_print|].
  eapply tracks_playing_trans; [apply tracks_playing_enqueue_file|].
  by apply tracks_playing_same.
Qed.

Lemma tracks_playing_on_eos st : tracks_playing st (on_eos st).
Proof.
  unfold on_eos, try_play_next_in_queue.
  destruct (try_play_next_from_announces
              (play_queue (set_playing false st)) (set_playing false st))
    as (l & Ht & _ & Hp).
  exists l. by rewrite Hp.
Qed.

Lemma tracks_playing_on_error st : tracks_playing st (on_error st).
Proof.
  unfold on_error, try_play_next_in_queue.
  destruct (try_play_next_from_announces
              (play_queue (set_playing false (print LogGstError st)))
              (set_playing false (print LogGstError st)))
    as (l & Ht & _ & Hp).
  exists (Print LogGstError :: l). split.
  - rewrite Ht. cbn. by rewrite <- app_assoc.
  - cbn. by rewrite Hp.
Qed.

Lemma tracks_playing_run_steps_chain steps idx st :
  tracks_playing st (_run_steps_chain steps idx st).
Proof.
  unfold _run_steps_chain.
  destruct (steps !! idx) as [[op val|]|].
  - repeat case_decide.
    + eapply tracks_playing_trans; [apply tracks_playing_enqueue_file|].
      apply tracks_playing_idle_add.
    + destruct (expand_play_random val (rng st)) as [path g].
      eapply tracks_playing_trans; [|apply tracks_playing_idle_add].
      eapply tracks_playing_trans; [|apply tracks_playing_enqueue_file].
      by apply tracks_playing_same.
    + unfold _cancel_step_timer, timeout_add_seconds, source_remove.
      apply (tracks_playing_quiet _ _ [Print (LogWaiting (wait_minutes val))]);
        [..|done]; cbn; by repeat case_match.
    + eapply tracks_playing_trans; [apply tracks_playing_show_toast|].
      apply tracks_playing_idle_add.
    + eapply tracks_playing_trans; [apply tracks_playing_print|].
      apply tracks_playing_idle_add.
  - eapply tracks_playing_trans; [apply tracks_playing_print|].
    apply tracks_playing_idle_add.
  - by apply (tracks_playing_quiet _ _
                [Print (LogFinished (_current_action_name st))]).
Qed.

Lemma tracks_playing_run_action name st : tracks_playing st (run_action name st).
Proof.
  unfold run_action.
  destruct (actions_script st !! name) as [[|s steps]|];
    [apply tracks_playing_print| |apply tracks_playing_print].
  eapply tracks_playing_trans; [|apply tracks_playing_run_steps_chain].
  destruct (_action_running st).
  - apply (tracks_playing_quiet _ _
             [Print (LogAlreadyRunning (_current_action_name st));
              Print (LogStarting name)]); [done| |done].
    cbn. by rewrite <- app_assoc.
  - by apply (tracks_playing_quiet _ _ [Print (LogStarting name)]).
Qed.

Lemma tracks_playing_play_manual_action_once name now st :
  tracks_playing st (_play_manual_action_once name now st).
Proof.
  unfold _play_manual_action_once.
  repeat case_match; try apply tracks_playing_print;
    (eapply tracks_playing_trans; [|apply tracks_playing_run_action]);
    by apply tracks_playing_same.
Qed.

Lemma tracks_playing_seed force st :
  tracks_playing st (_seed_today_offsets force st).
Proof.
  unfold _seed_today_offsets.
  match goal with
  | |- tracks_playing _ (seed_loop ?i ?es ?s) =>
      destruct (seed_loop_shape es i s) as (o & f & g & ->)
  end.
  apply tracks_playing_same; by destruct force.
Qed.

Lemma tracks_playing_fire_entry now_no_ms fire_dt idx e st :
  tracks_playing st (fire_entry now_no_ms fire_dt idx e st).
Proof.
  unfold fire_entry.
  set (st1 := set_today_fired _ (print _ st)).
  assert (tracks_playing st st1) as H1.
  { by apply (tracks_playing_quiet _ _ [Print (LogFireEq now_no_ms fire_dt)]). }
  clearbody st1.
  set (st2 := if decide (text e = "") then st1 else _).
  assert (tracks_playing st1 st2) as H2.
  { unfold st2. case_decide; [apply tracks_playing_refl|].
    eapply tracks_playing_trans; [apply tracks_playing_print|].
    apply tracks_playing_show_toast. }
  clearbody st2.
  eapply tracks_playing_trans; [exact H1|].
  eapply tracks_playing_trans; [exact H2|].
  case_decide; [apply tracks_playing_refl|].
  eapply tracks_playing_trans; [apply tracks_playing_print|].
  apply tracks_playing_run_action.
Qed.

Lemma tracks_playing_check_loop now wd es idx st :
  tracks_playing st (state_of (check_loop now wd idx es st)).
Proof.
  revert idx st. induction es as [|e es IH]; intros idx st; cbn [check_loop].
  - apply tracks_playing_refl.
  - assert (tracks_playing st (state_of (check_entry now wd idx e st))) as He.
    { unfold check_entry.
      repeat case_match; cbn [state_of]; try apply tracks_playing_refl.
      apply tracks_playing_fire_entry. }
    destruct (check_entry now wd idx e st) as [st'|x st']; cbn [state_of] in *.
    + eapply tracks_playing_trans; [exact He|apply IH].
    + done.
Qed.

Lemma tracks_playing_tick now st : tracks_playing st (state_of (tick now st)).
Proof.
  unfold tick, _check_and_fire_scheduled.
  set (st1 := if decide (date now ≠ _today_key (emit ClockRefresh st))
              then _seed_today_offsets true
                     (set_today_key (date now)
                        (print LogNewDay (emit ClockRefresh st)))
              else emit ClockRefresh st).
  assert (tracks_playing st st1) as H1.
  { unfold st1. case_decide.
    - eapply tracks_playing_trans; [|apply tracks_playing_seed].
      apply (tracks_playing_quiet _ _ [ClockRefresh; Print LogNewDay]);
        [done| |done].
      cbn. by rewrite <- app_assoc.
    - by apply (tracks_playing_quiet _ _ [ClockRefresh]). }
  clearbody st1. cbn zeta.
  set (st2 := if decide (dt_hour now ≠ last_seen_hour st1)
              then enqueue_hour_video (dt_hour now)
                     (set_last_seen_hour (dt_hour now)
                        (print LogChangeOfHour st1))
              else st1).
  assert (tracks_playing st1 st2) as H2.
  { unfold st2. case_decide; [|apply tracks_playing_refl].
    eapply tracks_playing_trans; [|apply tracks_playing_enqueue_hour_video].
    by apply (tracks_playing_quiet _ _ [Print LogChangeOfHour]). }
  clearbody st2.
  eapply tracks_playing_trans; [exact H1|].
  eapply tracks_playing_trans; [exact H2|].
  apply tracks_playing_check_loop.
Qed.

Lemma tracks_playing_run_callback cb st :
  tracks_playing st (run_callback cb st).
Proof.
  destruct cb as [steps idx|steps idx| |hour]; cbn [run_callback].
  - apply tracks_playing_run_steps_chain.
  - unfold _after_wait_continue.
    eapply tracks_playing_trans; [|apply tracks_playing_run_steps_chain].
    by apply tracks_playing_same.
  - by apply (tracks_playing_quiet _ _ [ToastHide]).
  - apply tracks_playing_enqueue_hour_video.
Qed.

Lemma tracks_playing_on_key_R file st : tracks_playing st (on_key_R file st).
Proof.
  unfold on_key_R.
  eapply tracks_playing_trans; [|apply tracks_playing_seed].
  by apply tracks_playing_same.
Qed.

Lemma tracks_playing_handle ev st : tracks_playing st (handle ev st).
Proof.
  destruct ev as [now| | |file|name now| |id|fs]; cbn [handle].
  - apply tracks_playing_tick.
  - apply tracks_playing_on_eos.
  - apply tracks_playing_on_error.
  - apply tracks_playing_on_key_R.
  - apply tracks_playing_play_manual_action_once.
  - destruct (idle_sources st) as [|cb rest]; [apply tracks_playing_refl|].
    eapply tracks_playing_trans; [|apply tracks_playing_run_callback].
    by apply tracks_playing_same.
  - destruct (list_find _ _) as [[? t]|]; [|apply tracks_playing_refl].
    eapply tracks_playing_trans; [|apply tracks_playing_run_callback].
    by apply tracks_playing_same.
  - by apply tracks_playing_same.
Qed.

Lemma tracks_playing_enqueue_startup_sequence now st :
  tracks_playing st (enqueue_startup_sequence now st).
Proof.
  unfold enqueue_startup_sequence. cbn zeta.
  set (st1 := if bool_decide _ then enqueue_file _ st else st).
  assert (tracks_playing st st1) as H1.
  { unfold st1. case_match;
      [apply tracks_playing_enqueue_file|apply tracks_playing_refl]. }
  clearbody st1.
  eapply tracks_playing_trans; [exact H1|].
  case_match; [apply tracks_playing_enqueue_file|apply tracks_playing_refl].
Qed.

Lemma init_tracks_playing file script now fs g :
  _playing (init file script now fs g)
  = playing_after false (trace (init file script now fs g)).
Proof.
  unfold init. cbn zeta.
  match goal with
  | |- _playing (enqueue_startup_sequence _ ?s) = _ =>
      destruct (tracks_playing_enqueue_startup_sequence now s) as (l & Ht & Hp);
      assert (_playing s = false ∧ trace s = [ClockRefresh; ShowClockOnly])
        as [Hs Hts]
  end.
  { match goal with
    | |- _playing (emit _ (emit _ (idle_add _ (_seed_today_offsets ?f ?s)))) = _ ∧ _ =>
        destruct (tracks_playing_seed f s) as (l0 & Ht0 & Hp0);
        destruct (seed_loop_shape (schedule s) 0 s) as (o & fl & g' & Hshape)
    end.
    unfold _seed_today_offsets in *. rewrite Hshape in *. by cbn. }
  rewrite Hp, Ht, Hs, Hts. by rewrite playing_after_app.
Qed.

(** ** The schedule panel *)

Lemma schedule_box_tracks visible shown p l :
  shown = visible && negb p ∨ announces l →
  schedule_box_after visible shown l = visible && negb (playing_after p l).
Proof.
  revert shown p. induction l as [|e l IH]; intros shown p Hinv.
  - destruct Hinv as [->|[Ha|Ha]]; [done|by apply elem_of_nil in Ha..].
  - cbn. apply IH.
    destruct e; try (left; cbn; by rewrite ?andb_true_r, ?andb_false_r);
      (destruct Hinv as [->|[Ha|Ha]]; [by left|right; left|right; right]);
      by apply elem_of_cons in Ha as [?|?].
Qed.

Lemma panel_ok_in_window f w :
  tracks_playing (player w) (f (player w)) →
  panel_ok w ∨ announces (new_effects (player w) (f (player w))) →
  panel_ok (in_window f w).
Proof.
  intros (l & Ht & Hp) Hinv. unfold panel_ok, in_window. cbn.
  rewrite (new_effects_app _ _ _ Ht) in *. rewrite Hp.
  by apply schedule_box_tracks.
Qed.

Lemma panel_ok_toggle w : panel_ok (toggle_schedule_visibility w).
Proof.
  unfold panel_ok, toggle_schedule_visibility. cbn.
  by destruct (schedule_visible w), (_playing (player w)).
Qed.

Lemma highlight_sources_panel w n :
  panel_ok w →
  panel_ok {| player := player w; schedule_visible := schedule_visible w;
              schedule_box_shown := schedule_box_shown w;
              schedule_store := schedule_store w;
              highlight_sources := n;
              quit_requested := quit_requested w |}.
Proof. done. Qed.

Lemma panel_ok_key_step k now file w :
  panel_ok w ∨ k = KEY_s →
  panel_ok match k with
           | KEY_Escape => quit_cleanly w
           | KEY_s => toggle_schedule_visibility w
           | KEY_r =>
               {| player := player (in_window (on_key_R file) w);
                  schedule_visible :=
                    schedule_visible (in_window (on_key_R file) w);
                  schedule_box_shown :=
                    schedule_box_shown (in_window (on_key_R file) w);
                  schedule_store :=
                    populate_schedule_view (player (in_window (on_key_R file) w));
                  highlight_sources :=
                    highlight_sources (in_window (on_key_R file) w);
                  quit_requested :=
                    quit_requested (in_window (on_key_R file) w) |}
           | KEY_a => in_window (on_key_A now) w
           | KEY_other => w
           end.
Proof.
  intros Hw. destruct k; try (destruct Hw as [Hw|?]; [|done]).
  - unfold quit_cleanly.
    apply (panel_ok_in_window (emit (PipeSetState NULL)) w); [|by left].
    by apply (tracks_playing_quiet _ _ [PipeSetState NULL]).
  - apply panel_ok_toggle.
  - apply (panel_ok_in_window (on_key_R file) w); [|by left].
    apply tracks_playing_on_key_R.
  - apply panel_ok_in_window; [|by left].
    apply tracks_playing_play_manual_action_once.
  - done.
Qed.

Lemma panel_ok_on_key k now now_h file w :
  panel_ok w ∨ k = KEY_s →
  panel_ok (window_handle (WKey k now now_h file) w).
Proof.
  intros Hw. cbn [window_handle]. unfold on_key.
  pose proof (panel_ok_key_step k now file w Hw) as Hstep.
  cbn zeta. destruct (highlight_next_upcoming now_h _); done.
Qed.

(** X19. The box of the schedule panel follows the playback. A window in
    which it is shown exactly when the panel is switched on and no video
    plays stays so under every event of the main loop and every key; an
    event that starts or stops a playback, and the S key, bring the
    window into that state whatever it was before. The window is in that
    state when the constructor returns; the [show_all] of the bootstrap
    then shows the box again, so until the next start or stop the box
    lies over the start-up video when there is one. *)
Theorem schedule_panel_follows_playback (file : option (list (list string)))
  (script : gmap string (list step)) (now0 : datetime) (fs : gset string)
  (g : list Z) :
  (∀ wev w, panel_ok w → panel_ok (window_handle wev w)) ∧
  (∀ ev w, announces (new_effects (player w) (handle ev (player w))) →
           panel_ok (window_handle (WPlayer ev) w)) ∧
  (∀ now now_h file' w, panel_ok (window_handle (WKey KEY_s now now_h file') w)) ∧
  panel_ok (init_window file script now0 fs g) ∧
  schedule_box_shown (bootstrap file script now0 fs g) = true ∧
  (panel_ok (bootstrap file script now0 fs g)
   ↔ _playing (init file script now0 fs g) = false).
Proof.
  split_and!.
  - intros [ev|k now now_h file'|now] w Hw.
    + apply panel_ok_in_window; [apply tracks_playing_handle|by left].
    + apply panel_ok_on_key. by left.
    + cbn [window_handle]. by destruct (_periodic_highlight now w).
  - intros ev w Ha.
    apply panel_ok_in_window; [apply tracks_playing_handle|by right].
  - intros now now_h file' w. apply panel_ok_on_key. by right.
  - unfold panel_ok, init_window. cbn [player schedule_visible schedule_box_shown].
    rewrite init_tracks_playing.
    exact (schedule_box_tracks true true false _ (or_introl eq_refl)).
  - done.
  - unfold panel_ok, bootstrap, init_window. cbn.
    destruct (_playing (init file script now0 fs g)); by split.
Qed.

Example panel_over_the_startup_video :
  let fs : gset string :=
    {[ "/home/tme520/Videos/LPS/moves/c10 - wave hello 3.mp4" ]} in
  let w := bootstrap (Some demo_csv) demo_script (monday_at 8 0 0) fs [] in
  _playing (player w) = true ∧ schedule_box_shown w = true ∧
  schedule_box_shown (init_window (Some demo_csv) demo_script (monday_at 8 0 0)
                        fs []) = false ∧
  schedule_box_shown (window_handle (WPlayer EvEos) w) = true ∧
  _playing (player (window_handle (WPlayer EvEos) w)) = false.
Proof. vm_compute. done. Qed.

(** ** Periodic highlight sources *)










(** ** Start-up order *)

Lemma enqueue_file_effect path st :
  missing path st = false → idle_queue_empty st →
  files (enqueue_file path st) = files st ∧
  idle_sources (enqueue_file path st) = idle_sources st ∧
  last_played_hour (enqueue_file path st) = last_played_hour st ∧
  _playing (enqueue_file path st) = true ∧
  handed (trace (enqueue_file path st)) ++ play_queue (enqueue_file path st)
  = handed (trace st) ++ play_queue st ++ [path] ∧
  handed (trace (enqueue_file path st))
  = handed (trace st) ++ (if _playing st then [] else [path]).
Proof.
  intros Hp Hidle. destruct (_playing st) eqn:Hplay.
  - rewrite (enqueue_file_busy path st Hp Hplay).
    cbn. rewrite !handed_app. cbn. by rewrite !app_nil_r.
  - rewrite (enqueue_file_idle path st Hp Hplay), (Hidle Hplay).
    unfold start_playback, print, emit. cbn.
    rewrite !handed_app. cbn. rewrite Hidle by done.
    by rewrite !app_nil_r.
Qed.

Lemma init_before_startup file script now fs g :
  ∃ s0, init file script now fs g = enqueue_startup_sequence now s0 ∧
        _playing s0 = false ∧ play_queue s0 = [] ∧ files s0 = fs ∧
        trace s0 = [ClockRefresh; ShowClockOnly] ∧
        idle_sources s0 = [CbEnqueueHourVideo (dt_hour now)] ∧
        last_played_hour s0 = None.
Proof.
  unfold init. cbn zeta. eexists. split; [reflexivity|].
  match goal with
  | |- _playing (emit _ (emit _ (idle_add _ (_seed_today_offsets ?f ?s)))) = _ ∧ _ =>
      destruct (seed_loop_shape (schedule s) 0 s) as (o & fl & g' & Hshape)
  end.
  unfold _seed_today_offsets. rewrite Hshape. by cbn.
Qed.

Lemma path_for_hour_nonempty hour st : path_for_hour hour st ≠ "".
Proof.
  unfold path_for_hour, FALLBACK_PATH. cbn zeta.
  destruct (bool_decide _); intros Heq;
    apply (f_equal String.length) in Heq;
    rewrite ?length_append in Heq; cbn in Heq; lia.
Qed.

(** One conditional [enqueue_file] of the start-up sequence. *)
Lemma startup_step path st :
  path ≠ "" → idle_queue_empty st →
  let st' := if bool_decide (path ∈ files st) then enqueue_file path st
             else st in
  files st' = files st ∧ idle_sources st' = idle_sources st ∧
  last_played_hour st' = last_played_hour st ∧ idle_queue_empty st' ∧
  _playing st' = _playing st || bool_decide (path ∈ files st) ∧
  play_queue st'
  = play_queue st ++ (if _playing st && bool_decide (path ∈ files st)
                      then [path] else []) ∧
  handed (trace st')
  = handed (trace st) ++ (if negb (_playing st) && bool_decide (path ∈ files st)
                          then [path] else []).
Proof.
  intros Hne Hidle. cbn zeta.
  destruct (bool_decide (path ∈ files st)) eqn:Hin.
  - apply bool_decide_eq_true in Hin.
    assert (missing path st = false) as Hm.
    { unfold missing.
      by rewrite (bool_decide_eq_false_2 _ Hne), (bool_decide_eq_true_2 _ Hin). }
    destruct (enqueue_file_effect path st Hm Hidle)
      as (Hf1 & Hi1 & Hl1 & Hp1 & Ho1 & Hh1).
    pose proof (plays_existing_enqueue_file path st) as (_ & Hidle1 & _).
    split; [done|]. split; [done|]. split; [done|]. split; [by apply Hidle1|].
    split; [by rewrite Hp1, orb_true_r|].
    rewrite Hh1 in Ho1. rewrite Hh1.
    destruct (_playing st) eqn:Hplay; cbn [andb negb].
    + rewrite app_nil_r in Ho1. apply app_inv_head in Ho1. by rewrite app_nil_r.
    + rewrite (Hidle Hplay) in *. cbn in Ho1. rewrite <- app_assoc in Ho1.
      apply app_inv_head in Ho1. cbn in Ho1.
      split; [|done]. destruct (play_queue (enqueue_file path st)); [done|].
      by destruct l.
  - rewrite !andb_false_r, orb_false_r, !app_nil_r. done.
Qed.

(** The two conditional calls of [enqueue_startup_sequence], then the
    idle callback of the hour video. *)
Lemma startup_two_steps (hello daymsg : string) (hour : Z)
  (fs : gset string) (s0 : Player) :
  hello ≠ "" → daymsg ≠ "" →
  _playing s0 = false → play_queue s0 = [] → files s0 = fs →
  handed (trace s0) = [] →
  idle_sources s0 = [CbEnqueueHourVideo hour] → last_played_hour s0 = None →
  let s1 := if bool_decide (hello ∈ files s0) then enqueue_file hello s0
            else s0 in
  let st := if bool_decide (daymsg ∈ files s1) then enqueue_file daymsg s1
            else s1 in
  let wanted := filter (fun p => p ∈ fs) [hello; daymsg] in
  handed (trace st) = take 1 wanted ∧
  play_queue st = drop 1 wanted ∧
  _playing st = bool_decide (wanted ≠ []) ∧
  idle_sources st = [CbEnqueueHourVideo hour] ∧
  (path_for_hour hour st ∈ fs →
   handed (trace (handle EvIdle st)) ++ play_queue (handle EvIdle st)
   = wanted ++ [path_for_hour hour st] ∧
   _playing (handle EvIdle st) = true).
Proof.
  intros Hhello Hday Hp0 Hq0 Hf0 Ht0 Hi0 Hl0 s1 st wanted.
  assert (idle_queue_empty s0) as Hidle0 by (by intros _).
  destruct (startup_step hello s0 Hhello Hidle0)
    as (Hf1 & Hi1 & Hl1 & Hidle1 & Hp1 & Hq1 & Hh1).
  fold s1 in Hf1, Hi1, Hl1, Hidle1, Hp1, Hq1, Hh1. clearbody s1.
  destruct (startup_step daymsg s1 Hday Hidle1)
    as (Hf2 & Hi2 & Hl2 & Hidle2 & Hp2 & Hq2 & Hh2).
  fold st in Hf2, Hi2, Hl2, Hidle2, Hp2, Hq2, Hh2. clearbody st.
  rewrite Hf0 in Hf1, Hp1, Hq1, Hh1.
  rewrite Hp0, Hq0 in Hq1. rewrite Hp0, Ht0 in Hh1. rewrite Hp0 in Hp1.
  cbn [negb andb orb app] in Hp1, Hq1, Hh1.
  rewrite Hf1 in Hf2, Hp2, Hq2, Hh2.
  rewrite Hp1, Hq1 in Hq2. rewrite Hp1, Hh1 in Hh2. rewrite Hp1 in Hp2.
  cbn [app] in Hq2.
  assert (handed (trace st) = take 1 wanted ∧ play_queue st = drop 1 wanted ∧
          _playing st = bool_decide (wanted ≠ [])) as (Hh & Hq & Hp).
  { rewrite Hh2, Hq2, Hp2. unfold wanted. rewrite !filter_cons, filter_nil.
    destruct (decide (hello ∈ fs)) as [Hh|Hh];
      destruct (decide (daymsg ∈ fs)) as [Hd|Hd].
    - rewrite !(bool_decide_eq_true_2 _ Hh), !(bool_decide_eq_true_2 _ Hd).
      cbn; split_and!;
        first [done|by rewrite bool_decide_eq_true_2].
    - rewrite !(bool_decide_eq_true_2 _ Hh), !(bool_decide_eq_false_2 _ Hd).
      cbn; split_and!;
        first [done|by rewrite bool_decide_eq_true_2].
    - rewrite !(bool_decide_eq_false_2 _ Hh), !(bool_decide_eq_true_2 _ Hd).
      cbn; split_and!;
        first [done|by rewrite bool_decide_eq_true_2].
    - rewrite !(bool_decide_eq_false_2 _ Hh), !(bool_decide_eq_false_2 _ Hd).
      cbn; split_and!;
        first [done|rewrite bool_decide_eq_false_2; [done|by intros Hne]]. }
  split; [done|]. split; [done|]. split; [done|].
  split; [by rewrite Hi2, Hi1|].
  intros Hhour. cbn [handle]. rewrite Hi2, Hi1, Hi0. cbn [run_callback].
  unfold enqueue_hour_video. cbn [last_played_hour set_idle_sources].
  rewrite Hl2, Hl1, Hl0. rewrite decide_False by done. cbn zeta.
  assert (path_for_hour hour (set_idle_sources [] st) = path_for_hour hour st)
    as -> by reflexivity.
  pose proof (path_for_hour_nonempty hour st) as Hne.
  assert (missing (path_for_hour hour st) (set_idle_sources [] st) = false)
    as Hm.
  { unfold missing. cbn [files set_idle_sources]. rewrite Hf2.
    by rewrite (bool_decide_eq_false_2 _ Hne), (bool_decide_eq_true_2 _ Hhour). }
  rewrite Hm.
  destruct (enqueue_file_effect (path_for_hour hour st)
              (set_idle_sources [] st) Hm Hidle2)
    as (_ & _ & _ & Hp3 & Ho3 & _).
  cbn [trace play_queue _playing set_last_played_hour].
  cbn [trace play_queue set_idle_sources] in Ho3.
  rewrite Hh, Hq in Ho3. rewrite app_assoc, take_drop in Ho3.
  split; [exact Ho3|exact Hp3].
Qed.

(** X21. Start-up plays the wave-hello video, then the greeting of the
    weekday, then the video of the hour, each if its file exists: when
    the constructor returns the first of the two start-up videos that
    exists is playing and the other one waits in the queue; the idle
    callback that follows appends the hour video (or its fallback)
    behind them, or plays it at once when neither start-up video
    exists. *)
Theorem startup_order (file : option (list (list string)))
  (script : gmap string (list step)) (now : datetime) (fs : gset string)
  (g : list Z) :
  let hello := "/home/tme520/Videos/LPS/moves/c10 - wave hello 3.mp4" in
  let names := ["monday"; "tuesday"; "wednesday"; "thursday"; "friday";
                "saturday"; "sunday"] in
  let daymsg := "/home/tme520/Videos/LPS/announcements/FR" +:+ "/"
                +:+ "c10 - good "
                +:+ default "" (names !! Z.to_nat (weekday now)) +:+ ".mp4" in
  let wanted := filter (fun p => p ∈ fs) [hello; daymsg] in
  let st := init file script now fs g in
  is_Some (names !! Z.to_nat (weekday now)) ∧
  handed (trace st) = take 1 wanted ∧
  play_queue st = drop 1 wanted ∧
  _playing st = bool_decide (wanted ≠ []) ∧
  idle_sources st = [CbEnqueueHourVideo (dt_hour now)] ∧
  (path_for_hour (dt_hour now) st ∈ fs →
   handed (trace (handle EvIdle st)) ++ play_queue (handle EvIdle st)
   = wanted ++ [path_for_hour (dt_hour now) st] ∧
   _playing (handle EvIdle st) = true).
Proof.
  intros hello names daymsg wanted st.
  split.
  { apply lookup_lt_is_Some. unfold weekday. cbn [length names].
    pose proof (Z.mod_pos_bound (dt_day now + 6) 7 ltac:(lia)). lia. }
  destruct (init_before_startup file script now fs g)
    as (s0 & Hinit & Hp0 & Hq0 & Hf0 & Ht0 & Hi0 & Hl0).
  assert (hello ≠ "") as Hhello by (intros Heq; discriminate Heq).
  assert (daymsg ≠ "") as Hday.
  { intros Heq. apply (f_equal String.length) in Heq.
    unfold daymsg in Heq. rewrite !length_append in Heq. cbn in Heq. lia. }
  assert (handed (trace s0) = []) as Hh0 by (by rewrite Ht0).
  pose proof (startup_two_steps hello daymsg (dt_hour now) fs s0 Hhello Hday
                Hp0 Hq0 Hf0 Hh0 Hi0 Hl0) as Hsteps.
  unfold st. rewrite Hinit. exact Hsteps.
Qed.

Example startup_order_demo :
  let hello := "/home/tme520/Videos/LPS/moves/c10 - wave hello 3.mp4" in
  let monday := "/home/tme520/Videos/LPS/announcements/FR/c10 - good monday.mp4" in
  let eight := "/home/tme520/Videos/LPS/announcements/FR/c10 - 08h.mp4" in
  let st := init (Some demo_csv) demo_script (monday_at 8 0 0)
              {[ hello; monday; eight ]} [] in
  handed (trace st) = [hello] ∧ play_queue st = [monday] ∧
  play_queue (handle EvIdle st) = [monday; eight] ∧
  handed (trace (run [EvIdle; EvEos; EvEos] st)) = [hello; monday; eight].
Proof. vm_compute. done. Qed.


(** ** Toasts and WAITs keep their own timers *)

Lemma same_source_id (l : list timeout_source) t t' :
  NoDup (map source_id l) → t ∈ l → t' ∈ l →
  source_id t = source_id t' → t = t'.
Proof.
  induction l as [|a l IH]; cbn [map]; intros Hnd Ht Ht' Hid.
  - by apply elem_of_nil in Ht.
  - apply NoDup_cons in Hnd as [Ha Hnd].
    change (map source_id) with (fmap (M:=list) source_id) in Ha.
    apply elem_of_cons in Ht as [->|Ht]; apply elem_of_cons in Ht' as [->|Ht'].
    + done.
    + exfalso. apply Ha. rewrite Hid. apply list_elem_of_fmap. eauto.
    + exfalso. apply Ha. rewrite <- Hid. apply list_elem_of_fmap. eauto.
    + by apply IH.
Qed.

(** Removing the source of [t] leaves a timer of another kind pending. *)
Lemma kept_after_remove (l : list timeout_source) t t' :
  NoDup (map source_id l) → t ∈ l → t' ∈ l →
  source_cb t' ≠ source_cb t →
  t' ∈ filter (fun x => source_id x ≠ source_id t) l.
Proof.
  intros Hnd Ht Ht' Hcb. apply list_elem_of_filter. split; [|done].
  intros Hid. apply Hcb. f_equal. by apply (same_source_id l).
Qed.

Lemma filter_none {A} (P : A → Prop) `{∀ x, Decision (P x)} (l : list A) :
  (∀ x, x ∈ l → ¬ P x) → filter P l = [].
Proof.
  induction l as [|a l IH]; intros Hall; [done|].
  rewrite filter_cons, decide_False by (apply Hall, list_elem_of_here).
  apply IH. intros x Hx. by apply Hall, list_elem_of_further.
Qed.

Lemma filter_filter_keep {A} (P Q : A → Prop) `{∀ x, Decision (P x)}
  `{∀ x, Decision (Q x)} (l : list A) :
  (∀ x, x ∈ l → P x → Q x) → filter P (filter Q l) = filter P l.
Proof.
  induction l as [|a l IH]; intros Hall; [done|].
  assert (filter P (filter Q l) = filter P l) as IH'.
  { apply IH. intros x Hx. by apply Hall, list_elem_of_further. }
  rewrite (filter_cons Q). destruct (decide (Q a)) as [Hq|Hq].
  - rewrite !filter_cons. by rewrite IH'.
  - rewrite filter_cons, decide_False; [done|].
    intros Hp. apply Hq, Hall; [apply list_elem_of_here|done].
Qed.

Lemma filter_all {A} (P : A → Prop) `{∀ x, Decision (P x)} (l : list A) :
  (∀ x, x ∈ l → P x) → filter P l = l.
Proof.
  induction l as [|a l IH]; intros Hall; [done|].
  rewrite filter_cons, decide_True by (apply Hall, list_elem_of_here).
  f_equal. apply IH. intros x Hx. by apply Hall, list_elem_of_further.
Qed.

Lemma handles_live_view st st' :
  timer_view st' = timer_view st → handles_live st → handles_live st'.
Proof.
  intros [= Hl Ht Hs Hn Hi]. unfold handles_live. by rewrite Hl, Ht, Hs.
Qed.

Lemma timers_live_view st st' :
  timer_view st' = timer_view st → timers_live st → timers_live st'.
Proof.
  intros Hv [Hok Hlive].
  split; [by apply (timers_ok_view st)|by apply (handles_live_view st)].
Qed.

Lemma timers_live_idle_add cb st :
  idle_cb cb → timers_live st → timers_live (idle_add cb st).
Proof.
  intros Hcb [Hok Hlive]. split; [by apply timers_ok_idle_add|exact Hlive].
Qed.

Lemma timers_live_show_toast message seconds st :
  timers_live st → timers_live (show_toast message seconds st).
Proof.
  intros [Hok [Htoast Hstep]]. split; [by apply timers_ok_show_toast|].
  destruct Hok as (Hpos & Hfresh & Hnd & Hkind & Hidle).
  unfold show_toast. case_decide; [done|].
  unfold timeout_add_seconds, source_remove, handles_live in *.
  cbn. destruct (toast_hide_source st) as [[|n]|] eqn:Hold; cbn.
  - split.
    + intros id [= <-]. eexists.
      split; [apply elem_of_app; right; apply list_elem_of_here|done].
    + intros id Hid. destruct (Hstep id Hid) as (t & Ht & Hidt & Hcb).
      exists t. split; [|done]. apply elem_of_app. by left.
  - split.
    + intros id [= <-]. eexists.
      split; [apply elem_of_app; right; apply list_elem_of_here|done].
    + intros id Hid. destruct (Hstep id Hid) as (t & Ht & Hidt & Hcb).
      destruct (Htoast (S n) eq_refl) as (th & Hth & Hidh & Hcbh).
      exists t. split; [|done]. apply elem_of_app. left.
      rewrite <- Hidh. apply kept_after_remove; [done..|].
      rewrite Hcbh. by destruct (source_cb t).
  - split.
    + intros id [= <-]. eexists.
      split; [apply elem_of_app; right; apply list_elem_of_here|done].
    + intros id Hid. destruct (Hstep id Hid) as (t & Ht & Hidt & Hcb).
      exists t. split; [|done]. apply elem_of_app. by left.
Qed.

(** The WAIT arm of [_run_steps_chain]. *)
Lemma timers_live_wait seconds steps idx st :
  timers_live st →
  timers_live
    (set_step_timer_source (Some (next_source_id (_cancel_step_timer st)))
       (timeout_add_seconds seconds (CbAfterWaitContinue steps idx)
          (_cancel_step_timer st)).2).
Proof.
  intros [Hok [Htoast Hstep]]. split; [by apply timers_ok_wait|].
  destruct Hok as (Hpos & Hfresh & Hnd & Hkind & Hidle).
  unfold _cancel_step_timer, timeout_add_seconds, source_remove,
    handles_live in *.
  destruct (_step_timer_source st) as [[|n]|] eqn:Hold; cbn.
  - split.
    + intros id Hid. destruct (Htoast id Hid) as (t & Ht & Hidt & Hcb).
      exists t. split; [|done]. apply elem_of_app. by left.
    + intros id [= <-]. eexists.
      split; [apply elem_of_app; right; apply list_elem_of_here|done].
  - split.
    + intros id Hid. destruct (Htoast id Hid) as (t & Ht & Hidt & Hcb).
      destruct (Hstep (S n) eq_refl) as (tw & Htw & Hidw & Hcbw).
      exists t. split; [|done]. apply elem_of_app. left.
      rewrite <- Hidw. apply kept_after_remove; [done..|].
      rewrite Hcb. by destruct (source_cb tw).
    + intros id [= <-]. eexists.
      split; [apply elem_of_app; right; apply list_elem_of_here|done].
  - split.
    + intros id Hid. destruct (Htoast id Hid) as (t & Ht & Hidt & Hcb).
      exists t. split; [|done]. apply elem_of_app. by left.
    + intros id [= <-]. eexists.
      split; [apply elem_of_app; right; apply list_elem_of_here|done].
Qed.

Lemma timers_live_run_steps_chain steps idx st :
  timers_live st → timers_live (_run_steps_chain steps idx st).
Proof.
  intros Hst. unfold _run_steps_chain.
  destruct (steps !! idx) as [[op val|]|].
  - repeat case_decide.
    + apply timers_live_idle_add; [done|].
      eapply timers_live_view; [apply timer_view_enqueue_file|done].
    + destruct (expand_play_random val (rng st)) as [path g].
      apply timers_live_idle_add; [done|].
      eapply timers_live_view; [apply timer_view_enqueue_file|].
      by apply (timers_live_view st).
    + pose proof (timers_live_wait (wait_minutes val * 60) steps (idx + 1)
                    (print (LogWaiting (wait_minutes val)) st)) as Hw.
      unfold timeout_add_seconds in *. cbn [snd] in Hw. cbn zeta.
      apply Hw. by apply (timers_live_view st).
    + apply timers_live_idle_add; [done|]. by apply timers_live_show_toast.
    + apply timers_live_idle_add; [done|]. by apply (timers_live_view st).
  - apply timers_live_idle_add; [done|]. by apply (timers_live_view st).
  - by apply (timers_live_view st).
Qed.

Lemma timers_live_run_action name st :
  timers_live st → timers_live (run_action name st).
Proof.
  intros Hst. unfold run_action.
  destruct (actions_script st !! name) as [[|s steps]|];
    [by apply (timers_live_view st)| |by apply (timers_live_view st)].
  apply timers_live_run_steps_chain.
  apply (timers_live_view st); [|done]. by destruct (_action_running st).
Qed.

Lemma timers_live_play_manual_action_once name now st :
  timers_live st → timers_live (_play_manual_action_once name now st).
Proof.
  intros Hst. unfold _play_manual_action_once.
  repeat case_match; try (by apply (timers_live_view st));
    apply timers_live_run_action; by apply (timers_live_view st).
Qed.

Lemma timers_live_fire_entry now_no_ms fire_dt idx e st :
  timers_live st → timers_live (fire_entry now_no_ms fire_dt idx e st).
Proof.
  intros Hst. unfold fire_entry.
  set (st1 := set_today_fired _ (print _ st)).
  assert (timers_live st1) as H1 by (by apply (timers_live_view st)).
  clearbody st1.
  set (st2 := if decide (text e = "") then st1 else _).
  assert (timers_live st2) as H2.
  { unfold st2. case_decide; [done|].
    apply timers_live_show_toast. by apply (timers_live_view st1). }
  clearbody st2.
  case_decide; [done|].
  apply timers_live_run_action. by apply (timers_live_view st2).
Qed.

Lemma timers_live_check_loop now wd es idx st :
  timers_live st → timers_live (state_of (check_loop now wd idx es st)).
Proof.
  revert idx st. induction es as [|e es IH]; intros idx st Hst;
    cbn [check_loop]; [done|].
  assert (timers_live (state_of (check_entry now wd idx e st))) as He.
  { unfold check_entry. repeat case_match; cbn [state_of]; try done.
    by apply timers_live_fire_entry. }
  destruct (check_entry now wd idx e st) as [st'|x st']; cbn [state_of] in *.
  - by apply IH.
  - done.
Qed.

Lemma timers_live_tick now st :
  timers_live st → timers_live (state_of (tick now st)).
Proof.
  intros Hst. unfold tick, _check_and_fire_scheduled.
  set (st1 := if decide (date now ≠ _today_key (emit ClockRefresh st))
              then _seed_today_offsets true
                     (set_today_key (date now)
                        (print LogNewDay (emit ClockRefresh st)))
              else emit ClockRefresh st).
  assert (timers_live st1) as H1.
  { unfold st1. case_decide.
    - eapply timers_live_view; [apply timer_view_seed|].
      by apply (timers_live_view st).
    - by apply (timers_live_view st). }
  clearbody st1. cbn zeta.
  set (st2 := if decide (dt_hour now ≠ last_seen_hour st1)
              then enqueue_hour_video (dt_hour now)
                     (set_last_seen_hour (dt_hour now)
                        (print LogChangeOfHour st1))
              else st1).
  assert (timers_live st2) as H2.
  { unfold st2. case_decide; [|done].
    eapply timers_live_view; [apply timer_view_enqueue_hour_video|].
    by apply (timers_live_view st1). }
  clearbody st2.
  by apply timers_live_check_loop.
Qed.

(** The state in which the callback of an expired timer [t] runs, once
    the callback has cleared its handle. *)
Lemma timers_live_expired t st :
  timers_live st → t ∈ timeout_sources st →
  timers_live
    (match source_cb t with
     | CbHideToast =>
         set_toast_hide_source None (source_remove (source_id t) st)
     | _ => set_step_timer_source None (source_remove (source_id t) st)
     end).
Proof.
  intros [Hok [Htoast Hstep]] Ht.
  pose proof (timers_ok_source_remove (source_id t) st Hok) as Hrem.
  destruct Hok as (Hpos & Hfresh & Hnd & Hkind & Hcbs).
  destruct (Hkind t Ht) as [Hpos_t Hcb].
  destruct Hrem as (Hpos' & Hfresh' & Hnd' & Hkind' & Hcbs').
  destruct (source_cb t) as [steps idx|steps idx| |hour] eqn:Hsrc; try done.
  - split.
    + split; [done|]. split; [done|]. split; [done|]. split; [|done].
      intros t' Ht'. destruct (Hkind' t' Ht') as [Hpos_t' Hcb'].
      split; [done|]. cbn in *.
      apply list_elem_of_filter in Ht' as [Hne _].
      destruct (source_cb t'); try done. congruence.
    + split; [|done]. cbn. intros id Hid.
      destruct (Htoast id Hid) as (th & Hth & Hidh & Hcbh).
      exists th. split; [|done]. apply kept_after_remove; [done..|].
      by rewrite Hcbh, Hsrc.
  - split.
    + split; [done|]. split; [done|]. split; [done|]. split; [|done].
      intros t' Ht'. destruct (Hkind' t' Ht') as [Hpos_t' Hcb'].
      split; [done|]. cbn in *.
      apply list_elem_of_filter in Ht' as [Hne _].
      destruct (source_cb t'); try done. congruence.
    + split; [done|]. cbn. intros id Hid.
      destruct (Hstep id Hid) as (tw & Htw & Hidw & Hcbw).
      exists tw. split; [|done]. apply kept_after_remove; [done..|].
      rewrite Hsrc. by destruct (source_cb tw).
Qed.

Lemma timers_live_handle ev st : timers_live st → timers_live (handle ev st).
Proof.
  intros Hst.
  destruct ev as [now| | |file|name now| |id|fs]; cbn [handle].
  - by apply timers_live_tick.
  - unfold on_eos, try_play_next_in_queue.
    eapply timers_live_view; [apply timer_view_try_play_next_from|].
    by apply (timers_live_view st).
  - unfold on_error, try_play_next_in_queue.
    eapply timers_live_view; [apply timer_view_try_play_next_from|].
    by apply (timers_live_view st).
  - unfold on_key_R.
    eapply timers_live_view; [apply timer_view_seed|].
    by apply (timers_live_view st).
  - by apply timers_live_play_manual_action_once.
  - destruct (idle_sources st) as [|cb rest] eqn:Hidle; [done|].
    assert (idle_cb cb ∧ timers_live (set_idle_sources rest st)) as [Hcb Hst'].
    { destruct Hst as [(Hpos & Hfresh & Hnd & Hkind & Hcbs) Hlive].
      rewrite Hidle in Hcbs. apply Forall_cons in Hcbs as [Hcb Hrest].
      done. }
    destruct cb as [steps idx|steps idx| |hour]; cbn [run_callback]; try done.
    + by apply timers_live_run_steps_chain.
    + eapply timers_live_view; [apply timer_view_enqueue_hour_video|done].
  - destruct (list_find _ _) as [[i t]|] eqn:Hfind; [|done].
    apply list_find_Some in Hfind as (Hi & Hid & _).
    apply list_elem_of_lookup_2 in Hi. subst id.
    pose proof (timers_live_expired t st Hst Hi) as Hexp.
    destruct Hst as [(Hpos & Hfresh & Hnd & Hkind & Hcbs) Hlive].
    destruct (Hkind t Hi) as [_ Hcb].
    destruct (source_cb t) as [steps idx|steps idx| |hour] eqn:Hsrc;
      cbn [run_callback]; [done| |exact Hexp|done].
    unfold _after_wait_continue. by apply timers_live_run_steps_chain.
  - by apply (timers_live_view st).
Qed.

Lemma timers_live_init file script now fs g :
  timers_live (init file script now fs g).
Proof.
  split; [apply timers_ok_init|].
  unfold init. cbn zeta.
  unfold enqueue_startup_sequence. cbn zeta.
  match goal with
  | |- handles_live (if ?b then enqueue_file ?p ?s else ?s) =>
      assert (handles_live s) as Hs; [|by destruct b;
        [eapply handles_live_view; [apply timer_view_enqueue_file|]|]]
  end.
  match goal with
  | |- handles_live (if ?b then enqueue_file ?p ?s else ?s) =>
      assert (handles_live s) as Hs; [|by destruct b;
        [eapply handles_live_view; [apply timer_view_enqueue_file|]|]]
  end.
  match goal with
  | |- handles_live (emit ?e ?s) =>
      apply (handles_live_view s (emit e s) eq_refl)
  end.
  match goal with
  | |- handles_live (emit ?e ?s) =>
      apply (handles_live_view s (emit e s) eq_refl)
  end.
  match goal with
  | |- handles_live (idle_add ?cb ?s) =>
      assert (handles_live s) as Hs; [|done]
  end.
  eapply handles_live_view; [apply timer_view_seed|].
  split; intros id Hid; discriminate Hid.
Qed.

Lemma reachable_timers_live file script now fs g evs :
  timers_live (run evs (init file script now fs g)).
Proof.
  induction evs as [|ev evs IH] using rev_ind.
  - apply timers_live_init.
  - rewrite run_snoc. by apply timers_live_handle.
Qed.

Lemma filter_agree {A} (P Q : A → Prop) `{∀ x, Decision (P x)}
  `{∀ x, Decision (Q x)} (l : list A) :
  (∀ x, x ∈ l → P x ↔ Q x) → filter P l = filter Q l.
Proof.
  induction l as [|a l IH]; intros Hall; [done|].
  rewrite !filter_cons, IH
    by (intros x Hx; by apply Hall, list_elem_of_further).
  pose proof (Hall a (list_elem_of_here _ _)) as Ha.
  destruct (decide (P a)), (decide (Q a)); tauto || done.
Qed.

Lemma ids_of_one_kind (l : list timeout_source) (id : nat) t :
  NoDup (map source_id l) → (∀ x, x ∈ l → source_id x = id) → t ∈ l →
  map source_id l = [id].
Proof.
  intros Hnd Hall Ht.
  pose proof (same_id_at_most_one l id Hnd Hall) as Hlen.
  destruct l as [|a [|b l]]; cbn in Hlen; [by apply elem_of_nil in Ht| |lia].
  cbn. by rewrite (Hall a (list_elem_of_here _ _)).
Qed.

(** The handles and the pending timers of a state agree. *)
Lemma handles_are_pending_timers st :
  timers_live st →
  map source_id (toast_timers st) = option_list (toast_hide_source st) ∧
  map source_id (wait_timers st) = option_list (_step_timer_source st).
Proof.
  intros [(Hpos & Hfresh & Hnd & Hkind & Hidle) [Htoast Hstep]].
  unfold toast_timers, wait_timers. split.
  - destruct (toast_hide_source st) as [id|] eqn:Hsrc; cbn.
    + destruct (Htoast id eq_refl) as (t & Ht & Hid & Hcb).
      apply (ids_of_one_kind _ id t); [by apply NoDup_map_filter| |].
      * intros x Hx. apply list_elem_of_filter in Hx as [Hcbx Hx].
        destruct (Hkind x Hx) as [_ Hk]. rewrite Hcbx in Hk. congruence.
      * by apply list_elem_of_filter.
    + rewrite filter_none; [done|]. intros x Hx Hcbx.
      destruct (Hkind x Hx) as [_ Hk]. by rewrite Hcbx in Hk.
  - destruct (_step_timer_source st) as [id|] eqn:Hsrc; cbn.
    + destruct (Hstep id eq_refl) as (t & Ht & Hid & Hcb).
      apply (ids_of_one_kind _ id t); [by apply NoDup_map_filter| |].
      * intros x Hx. apply list_elem_of_filter in Hx as [Hcbx Hx].
        destruct (Hkind x Hx) as [_ Hk].
        destruct (source_cb x); try done; congruence.
      * by apply list_elem_of_filter.
    + rewrite filter_none; [done|]. intros x Hx Hcbx.
      destruct (Hkind x Hx) as [_ Hk].
      by destruct (source_cb x).
Qed.

(** X22. The handles of the player never dangle: in every state reached
    from start-up, [toast_hide_source] is the source id of the pending
    timer that hides the toast and is [None] when no such timer is
    pending, and [_step_timer_source] is in the same way the source id of
    the pending timer of a WAIT; so [GLib.source_remove] is only ever
    called on a pending source. *)
Theorem handles_name_pending_timers (file : option (list (list string)))
  (script : gmap string (list step)) (now : datetime) (fs : gset string)
  (g : list Z) (evs : list event) :
  let st := run evs (init file script now fs g) in
  map source_id (toast_timers st) = option_list (toast_hide_source st) ∧
  map source_id (wait_timers st) = option_list (_step_timer_source st) ∧
  (∀ id, toast_hide_source st = Some id ∨ _step_timer_source st = Some id →
     ∃ t, t ∈ timeout_sources st ∧ source_id t = id).
Proof.
  intros st.
  pose proof (reachable_timers_live file script now fs g evs) as Hlive.
  fold st in Hlive. clearbody st.
  destruct (handles_are_pending_timers st Hlive) as [Ht Hw].
  split; [done|]. split; [done|].
  destruct Hlive as [_ [Htoast Hstep]].
  intros id [Hid|Hid].
  - destruct (Htoast id Hid) as (t & Hin & Heq & _). eauto.
  - destruct (Hstep id Hid) as (t & Hin & Heq & _). eauto.
Qed.

(** ** A toast and its timer *)

(** The timers after [show_toast]: the timer of the toast before is gone,
    the others are as they were, and the new one comes last. *)
Lemma show_toast_timers message seconds st :
  timers_live st → message ≠ "" →
  timeout_sources (show_toast message seconds st)
  = filter (fun t => source_cb t ≠ CbHideToast) (timeout_sources st)
    ++ [mkTimeout (next_source_id st) seconds CbHideToast] ∧
  toast_hide_source (show_toast message seconds st)
  = Some (next_source_id st) ∧
  _step_timer_source (show_toast message seconds st) = _step_timer_source st.
Proof.
  intros [(Hpos & Hfresh & Hnd & Hkind & Hidle) [Htoast Hstep]] Hm.
  unfold show_toast. rewrite decide_False by done.
  unfold timeout_add_seconds, source_remove. cbn.
  destruct (toast_hide_source st) as [[|n]|] eqn:Hold; cbn.
  - split; [|done]. f_equal. symmetry. apply filter_all.
    intros x Hx Hcb. destruct (Hkind x Hx) as [Hid Hk].
    rewrite Hcb in Hk. simplify_eq. lia.
  - split; [|done]. f_equal.
    destruct (Htoast (S n) eq_refl) as (th & Hth & Hidh & Hcbh).
    apply filter_agree. intros x Hx. split.
    + intros Hne Hcb. destruct (Hkind x Hx) as [_ Hk].
      rewrite Hcb in Hk. congruence.
    + intros Hcb Hid. apply Hcb.
      assert (x = th) as -> by (apply (same_source_id (timeout_sources st));
                                 [done..|congruence]).
      done.
  - split; [|done]. f_equal. symmetry. apply filter_all.
    intros x Hx Hcb. destruct (Hkind x Hx) as [Hid Hk].
    by rewrite Hcb in Hk.
Qed.

Lemma toast_cycle message seconds st :
  timers_live st → message ≠ "" →
  let st' := show_toast message seconds st in
  let st'' := handle (EvTimeout (next_source_id st)) st' in
  new_effects st st' = [ToastShow message] ∧
  toast_timers st' = [mkTimeout (next_source_id st) seconds CbHideToast] ∧
  wait_timers st' = wait_timers st ∧
  new_effects st' st'' = [ToastHide] ∧
  toast_hide_source st'' = None ∧
  toast_timers st'' = [] ∧
  wait_timers st'' = wait_timers st.
Proof.
  intros Hlive Hm st'.
  destruct (show_toast_timers message seconds st Hlive Hm)
    as (Hl & Hh & Hs).
  pose proof (show_toast_trace message seconds st Hm) as Htr.
  fold st' in Hl, Hh, Hs, Htr. clearbody st'.
  destruct Hlive as [(Hpos & Hfresh & Hnd & Hkind & Hidle) _].
  set (kept := filter (fun t => source_cb t ≠ CbHideToast)
                 (timeout_sources st)) in *.
  assert (∀ x, x ∈ kept → source_id x ≠ next_source_id st) as Hkept.
  { intros x Hx. apply list_elem_of_filter in Hx as [_ Hx].
    apply (proj1 (Forall_forall _ _) Hfresh) in Hx. lia. }
  assert (filter (fun t => source_cb t = CbHideToast) kept = []) as Hnone.
  { apply filter_none. intros x Hx.
    by apply list_elem_of_filter in Hx as [Hcb _]. }
  assert (filter (fun t => is_wait_cb (source_cb t) = true) kept
          = filter (fun t => is_wait_cb (source_cb t) = true)
              (timeout_sources st)) as Hwait.
  { apply filter_filter_keep. intros x _ Hw Hcb. by rewrite Hcb in Hw. }
  cbn zeta. unfold handle.
  rewrite Hl, (list_find_fresh kept _ _ _ Hkept).
  cbn [source_cb run_callback]. unfold _hide, source_remove, emit.
  unfold new_effects, toast_timers, wait_timers. cbn.
  rewrite Hl, Htr, !filter_app, Hnone, Hwait, !drop_app_length.
  rewrite (filter_all _ kept) by done.
  rewrite Hnone, Hwait. cbn.
  repeat case_decide; try done. by rewrite !app_nil_r.
Qed.

(** X23. A toast and its timer, in every state reached from start-up:
    [show_toast] with an empty message does nothing; with a message it
    shows the toast, removes the timer of the toast before, if one is
    pending, and leaves one timer of [seconds] seconds to hide the new
    one, without touching the timer of a WAIT; when that timer expires
    the toast is hidden, [toast_hide_source] is cleared and no toast
    timer is left, the timer of a WAIT still being as it was. *)
Theorem toast_hidden_by_its_own_timer (file : option (list (list string)))
  (script : gmap string (list step)) (now : datetime) (fs : gset string)
  (g : list Z) (evs : list event) (message : string) (seconds : Z) :
  let st := run evs (init file script now fs g) in
  let st' := show_toast message seconds st in
  let st'' := handle (EvTimeout (next_source_id st)) st' in
  show_toast "" seconds st = st ∧
  (message ≠ "" →
   new_effects st st' = [ToastShow message] ∧
   toast_timers st' = [mkTimeout (next_source_id st) seconds CbHideToast] ∧
   wait_timers st' = wait_timers st ∧
   new_effects st' st'' = [ToastHide] ∧
   toast_hide_source st'' = None ∧
   toast_timers st'' = [] ∧
   wait_timers st'' = wait_timers st).
Proof.
  intros st.
  pose proof (reachable_timers_live file script now fs g evs) as Hlive.
  fold st in Hlive. clearbody st. cbn zeta.
  split; [done|]. intros Hm.
  exact (toast_cycle message seconds st Hlive Hm).
Qed.


(** ** The schedule files of the version before *)

Lemma parse_time_field_int value max_value v :
  0 <= max_value →
  V11_2_schedule.int_stripped value = Some v →
  _parse_time_field value max_value =
    if (0 <=? v) && (v <=? max_value) then Ok [v] else Raise OutOfRange.
Proof.
  intros Hmax Hv. unfold V11_2_schedule.int_stripped in Hv. cbn zeta in Hv.
  case_decide as Hs.
  - assert (v = 0) as -> by (change (Py.int "0") with (Some 0) in Hv; congruence).
    rewrite parse_time_field_blank by done.
    replace (0 <=? max_value) with true by (symmetry; apply Z.leb_le; lia).
    done.
  - destruct (int_literal_shape _ _ Hv) as (H1 & H2 & H3).
    rewrite (parse_time_field_other _ _ H1 H2 H3), Hv.
    by destruct ((0 <=? v) && (v <=? max_value)).
Qed.

(** What [load_schedule] of this version makes of a padded row that the
    loader of the version before reads as the entry [e]. *)
Lemma row_entry_row_entries hh mm row e :
  V11_2_schedule.row_entry hh mm row = Some e →
  row_entries hh mm row =
    if negb ((0 <=? V11_2_schedule.hour e) && (V11_2_schedule.hour e <=? 23))
    then Raise (RowBadHour OutOfRange)
    else if negb ((0 <=? V11_2_schedule.minute e)
                  && (V11_2_schedule.minute e <=? 59))
    then Raise (RowBadMinute OutOfRange)
    else Ok [mkEntry (V11_2_schedule.monday e) (V11_2_schedule.tuesday e)
               (V11_2_schedule.wednesday e) (V11_2_schedule.thursday e)
               (V11_2_schedule.friday e) (V11_2_schedule.saturday e)
               (V11_2_schedule.sunday e) (V11_2_schedule.hour e)
               (V11_2_schedule.minute e) (V11_2_schedule.random e)
               (V11_2_schedule.duration e) (V11_2_schedule.text e)
               (V11_2_schedule.action e) (V11_2_schedule.data e)
               (Py.strip (cell row hh)) (Py.strip (cell row mm))].
Proof.
  unfold V11_2_schedule.row_entry, row_entries. intros He.
  destruct (mapM int_cell (take 7 row)) as [l|]; [|done].
  do 8 (destruct l as [|? l]; try done).
  destruct (V11_2_schedule.int_stripped (cell row hh)) as [h|] eqn:Hh;
    [|done].
  destruct (V11_2_schedule.int_stripped (cell row mm)) as [m|] eqn:Hm;
    [|done].
  destruct (int_cell (cell row 9)) as [rnd|]; [|done].
  destruct (int_cell (cell row 10)) as [dur|]; [|done].
  injection He as <-. cbn -[Z.leb].
  rewrite (parse_time_field_int _ 23 h) by (done || lia).
  rewrite (parse_time_field_int _ 59 m) by (done || lia).
  destruct ((0 <=? h) && (h <=? 23)); [|done].
  by destruct ((0 <=? m) && (m <=? 59)).
Qed.

Lemma load_row_alike hh mm row :
  filter time_in_range (V11_2_schedule.load_row hh mm row)
  `sublist_of` map v11_2_fields (load_row hh mm row).
Proof.
  unfold V11_2_schedule.load_row, load_row.
  destruct (blank_row row); [done|].
  destruct (V11_2_schedule.row_entry hh mm (pad_row hh mm row)) as [e|] eqn:He;
    [|apply sublist_nil_l].
  rewrite (row_entry_row_entries _ _ _ _ He).
  rewrite filter_cons, filter_nil. case_decide as Hr; [|apply sublist_nil_l].
  destruct Hr as [Hh Hm].
  replace ((0 <=? V11_2_schedule.hour e) && (V11_2_schedule.hour e <=? 23))
    with true by (symmetry; apply andb_true_iff; split; apply Z.leb_le; lia).
  replace ((0 <=? V11_2_schedule.minute e) && (V11_2_schedule.minute e <=? 59))
    with true by (symmetry; apply andb_true_iff; split; apply Z.leb_le; lia).
  cbn. by destruct e.
Qed.

(** X24. A schedule file of [gtk-gstreamer-mp4-v11-2.py] under this
    version. A padded row that the loader of v11-2 reads as an entry is
    loaded here as the same entry, with the stripped hour and minute
    cells as [hour_expr] and [minute_expr], when its hour is in [0..23]
    and its minute in [0..59]; otherwise the row is dropped here, while
    v11-2 keeps it. So the entries of v11-2 with a time of the day are
    among the entries loaded here, in the same order. *)
Theorem v11_2_schedule_loads_alike :
  (∀ hh mm row e,
     V11_2_schedule.row_entry hh mm row = Some e →
     (time_in_range e →
      ∃ e', row_entries hh mm row = Ok [e'] ∧ v11_2_fields e' = e ∧
            hour_expr e' = Py.strip (cell row hh) ∧
            minute_expr e' = Py.strip (cell row mm)) ∧
     (¬ time_in_range e →
      row_entries hh mm row = Raise (RowBadHour OutOfRange) ∨
      row_entries hh mm row = Raise (RowBadMinute OutOfRange))) ∧
  (∀ file,
     filter time_in_range (V11_2_schedule.load_schedule file).1
     `sublist_of` map v11_2_fields (load_schedule file).1).
Proof.
  split.
  - intros hh mm row e He. rewrite (row_entry_row_entries _ _ _ _ He).
    unfold time_in_range.
    destruct ((0 <=? V11_2_schedule.hour e) && (V11_2_schedule.hour e <=? 23))
      eqn:Hh; cbn [negb].
    + destruct ((0 <=? V11_2_schedule.minute e)
                && (V11_2_schedule.minute e <=? 59)) eqn:Hm; cbn [negb].
      * split; [|lia]. intros _. eexists. split; [done|].
        split; [by destruct e|done].
      * split; [lia|]. intros _. by right.
    + split; [lia|]. intros _. by left.
  - intros [[|header rows]|]; cbn [V11_2_schedule.load_schedule load_schedule fst];
      [done| |done].
    induction rows as [|row rows IH]; [done|].
    rewrite !bind_cons, filter_app, map_app.
    apply sublist_app; [apply load_row_alike|exact IH].
Qed.

(** An hour 24 is kept by v11-2 and dropped here; a step expression is
    dropped by v11-2 and expanded here. *)
Example v11_2_schedule_differences :
  let header := ["MON"; "TUE"; "WED"; "THU"; "FRI"; "SAT"; "SUN"; "HH"; "MM";
                 "RND"; "DUR"; "TEXT"; "ACTION"; "DATA"] in
  let late := ["1"; "1"; "1"; "1"; "1"; "0"; "0"; "24"; "0"; "0"; "60";
               "Stretch"; "ACT_STRETCH"; "FF"] in
  let halves := ["1"; "1"; "1"; "1"; "1"; "0"; "0"; "9"; "*/30"; "0"; "60";
                 "Stretch"; "ACT_STRETCH"; "FF"] in
  length (V11_2_schedule.load_schedule (Some [header; late])).1 = 1%nat ∧
  (load_schedule (Some [header; late])).1 = [] ∧
  (V11_2_schedule.load_schedule (Some [header; halves])).1 = [] ∧
  map minute (load_schedule (Some [header; halves])).1 = [0; 30].
Proof. by vm_compute. Qed.


(** ** The change of hour *)

Lemma hour_kept_refl st : hour_kept st st.
Proof. split; [done|]. split; [done|]. exists []. by rewrite app_nil_r. Qed.

Lemma hour_kept_trans st1 st2 st3 :
  hour_kept st1 st2 → hour_kept st2 st3 → hour_kept st1 st3.
Proof.
  intros (Hs1 & Hp1 & l1 & Ht1 & Hl1) (Hs2 & Hp2 & l2 & Ht2 & Hl2).
  split; [congruence|]. split; [congruence|]. exists (l1 ++ l2).
  split; [by rewrite Ht2, Ht1, app_assoc|].
  rewrite forallb_app. by rewrite Hl1, Hl2.
Qed.

Lemma hour_kept_quiet st st' l :
  last_seen_hour st' = last_seen_hour st →
  last_played_hour st' = last_played_hour st →
  trace st' = trace st ++ l →
  forallb (fun e => negb (hour_change e)) l = true → hour_kept st st'.
Proof. intros Hs Hp Ht Hl. split; [done|]. split; [done|]. by exists l. Qed.

Lemma hour_kept_same st st' :
  last_seen_hour st' = last_seen_hour st →
  last_played_hour st' = last_played_hour st →
  trace st' = trace st → hour_kept st st'.
Proof.
  intros Hs Hp Ht. apply (hour_kept_quiet st st' []); [done..| |done].
  by rewrite app_nil_r.
Qed.

Lemma hour_kept_print msg st :
  msg ≠ LogChangeOfHour → hour_kept st (print msg st).
Proof.
  intros Hmsg. apply (hour_kept_quiet _ _ [Print msg]); [done..|].
  by destruct msg.
Qed.

Lemma hour_kept_idle_add cb st : hour_kept st (idle_add cb st).
Proof. by apply hour_kept_same. Qed.

Lemma hour_kept_show_toast message seconds st :
  hour_kept st (show_toast message seconds st).
Proof.
  unfold show_toast. case_decide; [apply hour_kept_refl|].
  apply (hour_kept_quiet _ _ [ToastShow message]); [..|done];
    cbn; by repeat case_match.
Qed.

Lemma hour_kept_try_play_next_from q st :
  hour_kept st (try_play_next_from q st).
Proof.
  revert st. induction q as [|x q IH]; intros st; cbn [try_play_next_from].
  - apply (hour_kept_quiet _ _
             [PipeSetState NULL; ShowClockOnly; OnPlaybackStopped]);
      [done..| |done].
    by rewrite stop_to_clock_trace.
  - case_match.
    + eapply hour_kept_trans; [|apply IH].
      by apply (hour_kept_quiet _ _ [Print (LogFileNotFound x)]).
    + apply (hour_kept_quiet _ _
               [Print (LogPlaying x); OnPlaybackStarted; ShowVideoLayer;
                PipeSetState NULL; PipeSetUri x; PipeSetState PLAYING]);
        [done..| |done].
      by rewrite start_playback_trace.
Qed.

Lemma hour_kept_enqueue_file path st : hour_kept st (enqueue_file path st).
Proof.
  unfold enqueue_file, play_file.
  case_match; [by apply hour_kept_print|].
  destruct (_playing st) eqn:Hp; cbn [negb].
  - by eapply (hour_kept_quiet _ _ [_]).
  - apply (hour_kept_quiet _ _
             [Print (LogPlaying path); OnPlaybackStarted; ShowVideoLayer;
              PipeSetState NULL; PipeSetUri path; PipeSetState PLAYING]);
      [done..| |done].
    by rewrite start_playback_trace.
Qed.

Lemma hour_kept_run_steps_chain steps idx st :
  hour_kept st (_run_steps_chain steps idx st).
Proof.
  unfold _run_steps_chain.
  destruct (steps !! idx) as [[op val|]|].
  - repeat case_decide.
    + eapply hour_kept_trans; [apply hour_kept_enqueue_file|].
      apply hour_kept_idle_add.
    + destruct (expand_play_random val (rng st)) as [path g].
      eapply hour_kept_trans; [|apply hour_kept_idle_add].
      eapply hour_kept_trans; [|apply hour_kept_enqueue_file].
      by apply hour_kept_same.
    + unfold _cancel_step_timer, timeout_add_seconds, source_remove.
      apply (hour_kept_quiet _ _ [Print (LogWaiting (wait_minutes val))]);
        [..|done]; cbn; by repeat case_match.
    + eapply hour_kept_trans; [apply hour_kept_show_toast|].
      apply hour_kept_idle_add.
    + eapply hour_kept_trans; [|apply hour_kept_idle_add].
      by apply hour_kept_print.
  - eapply hour_kept_trans; [|apply hour_kept_idle_add].
    by apply hour_kept_print.
  - by apply (hour_kept_quiet _ _
                [Print (LogFinished (_current_action_name st))]).
Qed.

Lemma hour_kept_run_action name st : hour_kept st (run_action name st).
Proof.
  unfold run_action.
  destruct (actions_script st !! name) as [[|s steps]|];
    [by apply hour_kept_print| |by apply hour_kept_print].
  eapply hour_kept_trans; [|apply hour_kept_run_steps_chain].
  destruct (_action_running st).
  - apply (hour_kept_quiet _ _
             [Print (LogAlreadyRunning (_current_action_name st));
              Print (LogStarting name)]); [done..| |done].
    cbn. by rewrite <- app_assoc.
  - by apply (hour_kept_quiet _ _ [Print (LogStarting name)]).
Qed.

Lemma hour_kept_play_manual_action_once name now st :
  hour_kept st (_play_manual_action_once name now st).
Proof.
  unfold _play_manual_action_once.
  repeat case_match; try (by apply hour_kept_print);
    (eapply hour_kept_trans; [|apply hour_kept_run_action]);
    by apply hour_kept_same.
Qed.

Lemma hour_kept_seed force st : hour_kept st (_seed_today_offsets force st).
Proof.
  unfold _seed_today_offsets.
  match goal with
  | |- hour_kept _ (seed_loop ?i ?es ?s) =>
      destruct (seed_loop_shape es i s) as (o & f & g & ->)
  end.
  apply hour_kept_same; by destruct force.
Qed.

Lemma hour_kept_fire_entry now_no_ms fire_dt idx e st :
  hour_kept st (fire_entry now_no_ms fire_dt idx e st).
Proof.
  unfold fire_entry.
  set (st1 := set_today_fired _ (print _ st)).
  assert (hour_kept st st1) as H1.
  { by apply (hour_kept_quiet _ _ [Print (LogFireEq now_no_ms fire_dt)]). }
  clearbody st1.
  set (st2 := if decide (text e = "") then st1 else _).
  assert (hour_kept st1 st2) as H2.
  { unfold st2. case_decide; [apply hour_kept_refl|].
    eapply hour_kept_trans; [|apply hour_kept_show_toast].
    by apply hour_kept_print. }
  clearbody st2.
  eapply hour_kept_trans; [exact H1|].
  eapply hour_kept_trans; [exact H2|].
  case_decide; [apply hour_kept_refl|].
  eapply hour_kept_trans; [|apply hour_kept_run_action].
  by apply hour_kept_print.
Qed.

Lemma hour_kept_check_loop now wd es idx st :
  hour_kept st (state_of (check_loop now wd idx es st)).
Proof.
  revert idx st. induction es as [|e es IH]; intros idx st; cbn [check_loop].
  - apply hour_kept_refl.
  - assert (hour_kept st (state_of (check_entry now wd idx e st))) as He.
    { unfold check_entry.
      repeat case_match; cbn [state_of]; try apply hour_kept_refl.
      apply hour_kept_fire_entry. }
    destruct (check_entry now wd idx e st) as [st'|x st']; cbn [state_of] in *.
    + eapply hour_kept_trans; [exact He|apply IH].
    + done.
Qed.

(** [enqueue_hour_video] leaves the hour last seen alone and prints no
    change of hour; the hour it records depends on the hour recorded
    before and on the files. *)
Lemma enqueue_hour_video_hours hour st :
  last_seen_hour (enqueue_hour_video hour st) = last_seen_hour st ∧
  (∃ l, trace (enqueue_hour_video hour st) = trace st ++ l ∧
        forallb (fun e => negb (hour_change e)) l = true) ∧
  ∀ st0, last_played_hour st0 = last_played_hour st → files st0 = files st →
         last_played_hour (enqueue_hour_video hour st0)
         = last_played_hour (enqueue_hour_video hour st).
Proof.
  assert (∀ s, last_played_hour (enqueue_hour_video hour s)
               = if decide (last_played_hour s = Some hour) then Some hour
                 else if missing (path_for_hour hour s) s
                      then last_played_hour s else Some hour) as Hplayed.
  { intros s. unfold enqueue_hour_video.
    case_decide as Hp; [done|]. by case_match. }
  split; [|split].
  - unfold enqueue_hour_video. case_decide; [done|]. case_match; [done|].
    apply (hour_kept_enqueue_file (path_for_hour hour st) st).
  - unfold enqueue_hour_video. case_decide; [exists []; by rewrite app_nil_r|].
    case_match; [by exists [Print (LogMissingHourFile hour
                                     (path_for_hour hour st))]|].
    destruct (hour_kept_enqueue_file (path_for_hour hour st) st)
      as (_ & _ & l & Ht & Hl).
    by exists l.
  - intros st0 Hp Hf. rewrite !Hplayed, Hp.
    unfold path_for_hour, missing. by rewrite Hf.
Qed.

(** X25. The change of hour: after a tick the hour last seen is the hour
    of the tick. A tick in the hour last seen prints no change of hour
    and leaves the hour last played alone; a tick in another hour prints
    the change once and calls [enqueue_hour_video] for the new hour, so
    the following ticks of that hour do neither. No event but a tick
    moves the hour last seen. *)
Theorem hour_video_once_per_hour (now : datetime) (st : Player) :
  let st' := state_of (tick now st) in
  last_seen_hour st' = dt_hour now ∧
  (dt_hour now = last_seen_hour st →
   (Print LogChangeOfHour ∉ new_effects st st') ∧
   last_played_hour st' = last_played_hour st) ∧
  (dt_hour now ≠ last_seen_hour st →
   (∃ l1 l2, new_effects st st' = l1 ++ Print LogChangeOfHour :: l2 ∧
             (Print LogChangeOfHour ∉ l1) ∧ (Print LogChangeOfHour ∉ l2)) ∧
   last_played_hour st'
   = last_played_hour (enqueue_hour_video (dt_hour now) st)) ∧
  (∀ ev, (∀ t, ev ≠ EvTick t) →
         last_seen_hour (handle ev st) = last_seen_hour st).
Proof.
  assert (∀ l, forallb (fun e => negb (hour_change e)) l = true →
               Print LogChangeOfHour ∉ l) as Hnot.
  { intros l Hl Hin. apply list_elem_of_In in Hin.
    by apply (proj1 (forallb_forall _ _) Hl) in Hin. }
  cbn zeta. unfold tick, _check_and_fire_scheduled.
  set (st1 := if decide (date now ≠ _today_key (emit ClockRefresh st))
              then _seed_today_offsets true
                     (set_today_key (date now)
                        (print LogNewDay (emit ClockRefresh st)))
              else emit ClockRefresh st).
  assert (hour_kept st st1 ∧ files st1 = files st) as [H1 Hfiles].
  { unfold st1. case_decide.
    - split.
      + eapply hour_kept_trans; [|apply hour_kept_seed].
        apply (hour_kept_quiet _ _ [ClockRefresh; Print LogNewDay]);
          [done..| |done].
        cbn. by rewrite <- app_assoc.
      + unfold _seed_today_offsets.
        match goal with
        | |- files (seed_loop ?i ?es ?s) = _ =>
            destruct (seed_loop_shape es i s) as (o & f & g & ->)
        end.
        done.
    - split; [|done]. by apply (hour_kept_quiet _ _ [ClockRefresh]). }
  clearbody st1. cbn zeta.
  destruct H1 as (Hs1 & Hp1 & l1 & Ht1 & Hl1).
  set (st2 := if decide (dt_hour now ≠ last_seen_hour st1)
              then enqueue_hour_video (dt_hour now)
                     (set_last_seen_hour (dt_hour now)
                        (print LogChangeOfHour st1))
              else st1).
  pose proof (hour_kept_check_loop now (weekday now) (schedule st2) 0 st2)
    as (Hs3 & Hp3 & l3 & Ht3 & Hl3).
  split; [|split; [|split]].
  - rewrite Hs3. unfold st2. case_decide as Hh.
    + by rewrite (proj1 (enqueue_hour_video_hours _ _)).
    + destruct (decide (dt_hour now = last_seen_hour st1)); [done|].
      by destruct Hh.
  - intros Hsame. unfold new_effects. rewrite Ht3, Hp3.
    unfold st2. rewrite decide_False by (rewrite Hs1; intros Hne; by apply Hne).
    rewrite Ht1, <- app_assoc, drop_app_length. split; [|done].
    apply Hnot. rewrite forallb_app. by rewrite Hl1, Hl3.
  - intros Hnew. unfold new_effects. rewrite Ht3, Hp3.
    assert (st2 = enqueue_hour_video (dt_hour now)
                    (set_last_seen_hour (dt_hour now)
                       (print LogChangeOfHour st1))) as ->.
    { unfold st2. rewrite decide_True; [done|]. by rewrite Hs1. }
    destruct (enqueue_hour_video_hours (dt_hour now)
                (set_last_seen_hour (dt_hour now)
                   (print LogChangeOfHour st1)))
      as (_ & (l2 & Ht2 & Hl2) & Hp2).
    split.
    + exists l1, (l2 ++ l3). rewrite Ht2. cbn. rewrite Ht1.
      rewrite <- !app_assoc, drop_app_length. cbn.
      split; [done|]. split; [by apply Hnot|].
      apply Hnot. rewrite forallb_app. by rewrite Hl2, Hl3.
    + symmetry. apply Hp2; cbn; [by rewrite Hp1|by rewrite Hfiles].
  - intros ev Hev.
    destruct ev as [t| | |file|name t| |id|fs]; cbn [handle].
    + by destruct (Hev t).
    + apply (hour_kept_try_play_next_from _ (set_playing false st)).
    + apply (hour_kept_try_play_next_from _
               (set_playing false (print LogGstError st))).
    + unfold on_key_R.
      match goal with
      | |- last_seen_hour (_seed_today_offsets ?f ?s) = _ =>
          apply (hour_kept_seed f s)
      end.
    + apply hour_kept_play_manual_action_once.
    + destruct (idle_sources st) as [|cb rest]; [done|].
      destruct cb as [steps idx|steps idx| |hour]; cbn [run_callback].
      * apply (hour_kept_run_steps_chain steps idx (set_idle_sources rest st)).
      * apply (hour_kept_run_steps_chain steps idx
                 (set_step_timer_source None (set_idle_sources rest st))).
      * done.
      * apply (enqueue_hour_video_hours hour (set_idle_sources rest st)).
    + destruct (list_find _ _) as [[i t]|]; [|done].
      destruct (source_cb t) as [steps idx|steps idx| |hour];
        cbn [run_callback].
      * apply (hour_kept_run_steps_chain steps idx (source_remove id st)).
      * apply (hour_kept_run_steps_chain steps idx
                 (set_step_timer_source None (source_remove id st))).
      * done.
      * apply (enqueue_hour_video_hours hour (source_remove id st)).
    + done.
Qed.

